(** * Conservation utilities: a shallow embedding of [src/utils.py] and
  [notebooks/dedup.py], with the properties their specification states.

  Scores are IEEE 754 binary64 values (NumPy [float64], Python [float],
  polars [Float64]), modelled by Rocq's primitive floats; a missing score
  is a NaN.  Python integers are unbounded: [Z], or [nat] for counters.
  Dictionaries with string keys are [gmap string _]; the frame dictionary,
  which is iterated in insertion order, is an association list. *)

From Stdlib Require Import ZArith List Uint63 Floats Ascii String Lia.
From stdpp Require Import gmap strings list pretty sorting.

(** * Python values and built-ins used by both source files *)
Module Py.

(** An exception, reduced to what the code observes of it: [str(e)]. *)
Inductive exn : Type := Exception (msg : string).

Definition str (e : exn) : string := let 'Exception msg := e in msg.

(** The outcome of a call that may raise. *)
Inductive result (A : Type) : Type :=
| Return (a : A)
| Raise (e : exn).
Arguments Return {A} a.
Arguments Raise {A} e.

#[global] Instance result_ret : MRet result := λ A a, Return a.
#[global] Instance result_bind : MBind result := λ A B k m,
  match m with
  | Return a => k a
  | Raise e => Raise e
  end.

(** A computation that prints: the lines written to standard output, and
    how the computation ended. *)
Record io (A : Type) : Type := IO { stdout : list string; outcome : result A }.
Arguments IO {A} stdout outcome.
Arguments stdout {A} _.
Arguments outcome {A} _.

#[global] Instance io_ret : MRet io := λ A a, IO [] (Return a).
#[global] Instance io_bind : MBind io := λ A B k m,
  match outcome m with
  | Return a => let r := k a in IO (stdout m ++ stdout r) (outcome r)
  | Raise e => IO (stdout m) (Raise e)
  end.

Definition call {A} (r : result A) : io A := IO [] r.
Definition print (line : string) : io unit := IO [line] (Return tt).

(** [try: body / except Exception as e: handler(e)]. *)
Definition try_except {A} (body : io A) (handler : exn → io A) : io A :=
  match outcome body with
  | Return _ => body
  | Raise e => let h := handler e in IO (stdout body ++ stdout h) (outcome h)
  end.

(** [for x in xs: state = body(x, state)]. *)
Fixpoint for_each {X S} (xs : list X) (body : X → S → io S) (state : S) : io S :=
  match xs with
  | [] => mret state
  | x :: xs => state ← body x state; for_each xs body state
  end.

(** [s.startswith(p)]. *)
Definition startswith (s p : string) : bool := String.prefix p s.

(** [np.isnan(x)] and the comparison [x > y] on floats. *)
Definition isnan (x : float) : bool := PrimFloat.is_nan x.
Definition gt (x y : float) : bool := (y <? x)%float.

(** The built-in [max] on a non-empty list of floats: the first item is
    kept until a later one compares strictly greater.  [None] stands for
    the [ValueError] raised on an empty list. *)
Definition max_step (best item : float) : float :=
  if gt item best then item else best.
Definition max (items : list float) : option float :=
  match items with
  | [] => None
  | first :: rest => Some (fold_left max_step rest first)
  end.

(** Slice bounds as Python resolves them: a negative bound counts from
    the end, and both are clamped to [0, len]. *)
Definition slice_bound (len i : Z) : Z :=
  if (i <? 0)%Z then Z.max 0 (i + len) else Z.min i len.
Definition slice {A} (l : list A) (start stop : Z) : list A :=
  let len := Z.of_nat (length l) in
  let lo := slice_bound len start in
  let hi := slice_bound len stop in
  take (Z.to_nat (hi - lo)) (drop (Z.to_nat lo) l).

(** [range(n)]. *)
Definition range (n : Z) : list Z := seqZ 0 n.

(** [d[k] = v] on a dictionary kept in insertion order: an existing key
    keeps its place, a new key goes last. *)
Fixpoint setitem {V} (d : list (Z * V)) (k : Z) (v : V) : list (Z * V) :=
  match d with
  | [] => [(k, v)]
  | (k', v') :: d => if decide (k' = k) then (k, v) :: d
                     else (k', v') :: setitem d k v
  end.

(** [d.update(other)]: the entries of [other] win. *)
Definition update {V} (d other : gmap string V) : gmap string V := other ∪ d.

(** The integer part of [floor(x)], for a finite [x]: a float is
    [± m * 2^e], and shifting right rounds towards minus infinity. *)
Definition floor_Z (x : float) : option Z :=
  match Prim2SF x with
  | S754_zero _ => Some 0%Z
  | S754_finite s m e => Some (Z.shiftl (if s then Z.neg m else Z.pos m) e)
  | S754_infinity _ | S754_nan => None
  end.

Definition of_Z (n : Z) : float := PrimFloat.of_uint63 (Uint63.of_Z n).

End Py.

(** * [ConservationAnalyzer] *)
Module Analyzer.

(** NumPy's nan-aware reductions over a one-dimensional [float64] array.
    They are the library's, not the repository's: the analyzer is stated
    over any implementation of them. *)
Class NumPy : Type := {
  nanmean : list float → float;
  nanmedian : list float → float;
  nanmax : list float → float;
  nanpercentile : list float → float → float
}.

(** A metric value: a Python [float], or the [int] of the run length. *)
Inductive value : Type :=
| VFloat (x : float)
| VInt (n : Z).

Record ConservationAnalyzer : Type := { window_size : Z }.

(** [ConservationAnalyzer()]: the default window of 30 positions. *)
Definition default_analyzer : ConservationAnalyzer := {| window_size := 30 |}.

(** The test of the run scan: [not np.isnan(score) and score > 0]. *)
Definition positive_score (score : float) : bool :=
  negb (Py.isnan score) && Py.gt score 0.

Definition run_step (st : nat * nat) (score : float) : nat * nat :=
  let '(current_run, max_run) := st in
  if positive_score score then
    let current_run := S current_run in
    (current_run, Nat.max max_run current_run)
  else (0, max_run).

Definition _get_longest_positive_run (scores : list float) : nat :=
  (fold_left run_step scores (0, 0)).2.

Section analyzer.
Context `{np : NumPy}.
Variable self : ConservationAnalyzer.

Definition _get_window_scores (scores : list float) : list float :=
  let len := Z.of_nat (length scores) in
  if (len <? window_size self)%Z then [nanmean scores]
  else
    fold_left
      (λ window_scores i,
         let window := Py.slice scores i (i + window_size self) in
         window_scores ++ [nanmean window])
      (Py.range (len - window_size self + 1)) [].

Definition _analyze_score_array (scores : option (list float))
    (prefix : string) : gmap string value :=
  match scores with
  | None => ∅
  | Some scores =>
    if decide (length scores = 0) then ∅
    else
      let metrics : gmap string value :=
        <[prefix +:+ "_start" := VFloat (nanmean (Py.slice scores 0 15))]>
        (<[prefix +:+ "_q75" := VFloat (nanpercentile scores 75)]>
        (<[prefix +:+ "_max" := VFloat (nanmax scores)]>
        (<[prefix +:+ "_median" := VFloat (nanmedian scores)]>
        (<[prefix +:+ "_mean" := VFloat (nanmean scores)]> ∅)))) in
      let window_scores := _get_window_scores scores in
      let metrics :=
        <[prefix +:+ "_max_window" :=
            VFloat (default nan (Py.max window_scores))]> metrics in
      <[prefix +:+ "_longest_positive_run" :=
          VInt (Z.of_nat (_get_longest_positive_run scores))]> metrics
  end.

Definition frame_prefix (frame : Z) : string :=
  "phylocsf_frame" +:+ pretty frame.

Definition calculate_metrics (phylocsf_scores : list (Z * list float))
    (phylop_scores : option (list float)) : gmap string value :=
  let metrics :=
    fold_left
      (λ metrics '(frame, scores),
         Py.update metrics
           (_analyze_score_array (Some scores) (frame_prefix frame)))
      phylocsf_scores ∅ in
  match phylop_scores with
  | Some _ => Py.update metrics (_analyze_score_array phylop_scores "phylop")
  | None => metrics
  end.

End analyzer.

(** ** A reference implementation of the reductions

    Used to run the analyzer on concrete arrays.  Sums are taken left to
    right; percentiles interpolate linearly between order statistics. *)
Definition nan_free (a : list float) : list float :=
  List.filter (λ x, negb (Py.isnan x)) a.

Definition float_le (x y : float) : Prop := (x <=? y)%float = true.

#[global] Instance float_le_dec : RelDecision float_le.
Proof. intros x y. unfold float_le. apply _. Defined.

Definition count (a : list float) : float :=
  fold_left (λ c _, (c + 1)%float) a 0%float.

Definition ref_nanmean (a : list float) : float :=
  let xs := nan_free a in
  (fold_left PrimFloat.add xs 0 / count xs)%float.

Definition ref_nanmax (a : list float) : float :=
  match nan_free a with
  | [] => nan
  | x :: xs => fold_left (λ m y, if (m <? y)%float then y else m) xs x
  end.

Definition ref_nanpercentile (a : list float) (q : float) : float :=
  let xs := merge_sort float_le (nan_free a) in
  match xs with
  | [] => nan
  | x0 :: _ =>
    let n := length xs in
    let virtual := (Py.of_Z (Z.of_nat (n - 1)) * (q / 100))%float in
    match Py.floor_Z virtual with
    | None => nan
    | Some lo =>
      let below := nth (Z.to_nat lo) xs x0 in
      let above := nth (Nat.min (S (Z.to_nat lo)) (n - 1)) xs x0 in
      (below + (above - below) * (virtual - Py.of_Z lo))%float
    end
  end.

Definition ref_nanmedian (a : list float) : float :=
  ref_nanpercentile a 50.

Definition numpy_ref : NumPy := {|
  nanmean := ref_nanmean;
  nanmedian := ref_nanmedian;
  nanmax := ref_nanmax;
  nanpercentile := ref_nanpercentile
|}.

End Analyzer.

(** * [ConservationTracker] *)
Module Tracker.

(** An open bigWig file, by the three calls the tracker makes on it.  They
    are [pyBigWig]'s, and each of them may raise. *)
Record BigWig : Type := {
  (** [bw.chroms()]: the declared chromosomes and their lengths. *)
  chroms : Py.result (gmap string Z);
  (** [bw.chroms(chrom)]: the declared length, [None] for an unknown name. *)
  chroms_of : string → Py.result (option Z);
  (** [bw.values(chrom, start, end)]. *)
  values : string → Z → Z → Py.result (list float)
}.

Record ConservationTracker : Type := {
  phylocsf_type : string;
  phylocsf_tracks : gmap string BigWig;
  phylop_track : BigWig
}.

(** [f"chr{chrom}" if not chrom.startswith('chr') else chrom]. *)
Definition normalize_chrom (chrom : string) : string :=
  if negb (Py.startswith chrom "chr") then "chr" +:+ chrom else chrom.

(** [start < 0 or end > chrom_length]; comparing with [None] raises. *)
Definition out_of_bounds (start end_ : Z) (chrom_length : option Z) :
    Py.result bool :=
  if (start <? 0)%Z then Py.Return true
  else match chrom_length with
       | Some len => Py.Return (len <? end_)%Z
       | None =>
         Py.Raise (Py.Exception
           "'>' not supported between instances of 'int' and 'NoneType'")
       end.

(** The body of the [try] of [_get_scores], after the name is normalized
    (the normalization itself cannot raise on a string). *)
Definition _get_scores_body (bw_file : BigWig) (chrom : string)
    (start end_ : Z) : Py.result (option (list float)) :=
  catalog ← chroms bw_file;
  if bool_decide (chrom ∉ dom catalog) then mret None
  else
    chrom_length ← chroms_of bw_file chrom;
    outside ← out_of_bounds start end_ chrom_length;
    if (outside : bool) then mret None
    else
      scores ← values bw_file chrom start end_;
      mret (Some scores).

Definition error_message (chrom : string) (start end_ : Z) (e : Py.exn) :
    string :=
  "Error accessing bigwig for " +:+ chrom +:+ ":" +:+ pretty start
    +:+ "-" +:+ pretty end_ +:+ ": " +:+ Py.str e.

Definition _get_scores (bw_file : BigWig) (chrom : string) (start end_ : Z) :
    Py.io (option (list float)) :=
  let chrom := normalize_chrom chrom in
  Py.try_except
    (Py.call (_get_scores_body bw_file chrom start end_))
    (λ e, Py.print (error_message chrom start end_ e);; mret None).

(** The frame dictionary, in insertion order. *)
Definition frame_scores : Type := list (Z * list float).

Definition get_conservation_scores (self : ConservationTracker)
    (chrom : string) (start end_ : Z) (strand : string) :
    Py.io (frame_scores * option (list float)) :=
  phylocsf_scores ←
    Py.for_each [1; 2; 3]%Z
      (λ frame (phylocsf_scores : frame_scores),
         let track_key := strand +:+ pretty frame in
         match phylocsf_tracks self !! track_key with
         | Some track =>
           scores ← _get_scores track chrom start end_;
           match scores with
           | Some scores => mret (Py.setitem phylocsf_scores frame scores)
           | None => mret phylocsf_scores
           end
         | None => mret phylocsf_scores
         end)
      [];
  phylop_scores ← _get_scores (phylop_track self) chrom start end_;
  mret (phylocsf_scores, phylop_scores).

End Tracker.

(** * [BEDHandler.write_scored_bed] *)
Module Bed.

(** A row of the input frame: the BED columns that are written, and the
    [Float64] columns of the frame by name (the score column is one of
    them).  Other columns are dropped by the [select]. *)
Record row : Type := {
  chrom : string;
  chromStart : Z;
  chromEnd : Z;
  name : string;
  strand : string;
  float_columns : gmap string float
}.

(** A cell of the written frame. *)
Inductive cell : Type :=
| Utf8 (s : string)
| Int64 (n : Z).

(** [pl.col(score_col)], row by row. *)
Definition col (df : list row) (score_col : string) : Py.result (list float) :=
  mapM (λ r,
          match float_columns r !! score_col with
          | Some x => Py.Return x
          | None => Py.Raise (Py.Exception ("ColumnNotFoundError: " +:+ score_col))
          end) df.

(** Column [min()] and [max()]: NaN is skipped while another value is
    there; the empty column has none ([null]). *)
Definition min_step (acc x : float) : float :=
  if Py.isnan acc then x else if (x <? acc)%float then x else acc.
Definition max_step (acc x : float) : float :=
  if Py.isnan acc then x else if (acc <? x)%float then x else acc.
Definition col_min (xs : list float) : option float :=
  match xs with
  | [] => None
  | x :: xs => Some (fold_left min_step xs x)
  end.
Definition col_max (xs : list float) : option float :=
  match xs with
  | [] => None
  | x :: xs => Some (fold_left max_step xs x)
  end.

(** [.floor().cast(pl.Int64)]: the strict cast fails on NaN, on an
    infinity and outside the 64-bit range. *)
Definition floor_cast (x : float) : Py.result Z :=
  match Py.floor_Z x with
  | Some n =>
    if ((- 2 ^ 63 <=? n) && (n <? 2 ^ 63))%Z then Py.Return n
    else Py.Raise (Py.Exception "conversion from `f64` to `i64` failed")
  | None => Py.Raise (Py.Exception "conversion from `f64` to `i64` failed")
  end.

(** [.clip(0, 1000)]. *)
Definition clip (lower upper n : Z) : Z := Z.min (Z.max n lower) upper.

(** A [Float64] column divided by a column of one value, as
    [pl.col(score_col).max() - pl.col(score_col).min()] is: polars
    multiplies each value by the reciprocal of the divisor. *)
Definition div_scalar (x divisor : float) : float :=
  (x * (1 / divisor))%float.

(** The expression aliased to ["score"], for one value [x] of a column
    whose minimum is [lo] and maximum is [hi]. *)
Definition score_expr (lo hi scale_factor x : float) : Py.result Z :=
  n ← floor_cast (div_scalar (x - lo) (hi - lo) * scale_factor)%float;
  mret (clip 0 1000 n).

(** The six selected columns of one row, in the order of the [select]. *)
Definition select (r : row) (score : Z) : list (string * cell) :=
  [("chrom", Utf8 (chrom r)); ("chromStart", Int64 (chromStart r));
   ("chromEnd", Int64 (chromEnd r)); ("name", Utf8 (name r));
   ("score", Int64 score); ("strand", Utf8 (strand r))].

(** The frame [bed_df] handed to [write_csv], one entry per row. *)
Definition write_scored_bed (df : list row) (score_col : string)
    (scale_factor : float) : Py.result (list (list (string * cell))) :=
  scores ← col df score_col;
  match col_min scores, col_max scores with
  | Some lo, Some hi =>
    normalized ← mapM (score_expr lo hi scale_factor) scores;
    mret (zip_with select df normalized)
  | _, _ => mret []
  end.

Definition default_score_col : string := "conservation_score".
Definition default_scale_factor : float := 1000.

End Bed.

(** * [notebooks/dedup.py] *)
Module Dedup.

(** [str.isspace] on a character, for the code points below 256. *)
Definition isspace (c : ascii) : bool :=
  let n := nat_of_ascii c in
  ((9 <=? n) && (n <=? 13)) || ((28 <=? n) && (n <=? 32))
  || (n =? 133) || (n =? 160).

Fixpoint lstrip (s : string) : string :=
  match s with
  | EmptyString => EmptyString
  | String c rest => if isspace c then lstrip rest else s
  end.

Fixpoint rstrip (s : string) : string :=
  match s with
  | EmptyString => EmptyString
  | String c rest =>
    match rstrip rest with
    | EmptyString => if isspace c then EmptyString else String c EmptyString
    | rest' => String c rest'
    end
  end.

(** [s.strip()]. *)
Definition strip (s : string) : string := rstrip (lstrip s).

(** [s.split(sep)] for a one-character separator. *)
Fixpoint split (sep : ascii) (s : string) : list string :=
  match s with
  | EmptyString => [EmptyString]
  | String c rest =>
    if Ascii.eqb c sep then EmptyString :: split sep rest
    else match split sep rest with
         | field :: fields => String c field :: fields
         | [] => [String c EmptyString]
         end
  end.

(** [sep.join(fields)]. *)
Fixpoint join (sep : string) (fields : list string) : string :=
  match fields with
  | [] => EmptyString
  | [field] => field
  | field :: fields => field +:+ sep +:+ join sep fields
  end.

Definition tab : ascii := "009".
Definition newline : ascii := "010".

(** [for line in f]: the lines of a text, each with its newline (the last
    one may lack it).  The text is the file as the text layer delivers it,
    line endings already translated to the newline character. *)
Fixpoint readlines (text : string) : list string :=
  match text with
  | EmptyString => []
  | String c rest =>
    if Ascii.eqb c newline then String c EmptyString :: readlines rest
    else match readlines rest with
         | line :: lines => String c line :: lines
         | [] => [String c EmptyString]
         end
  end.

(** One iteration of the reading loop, on the state
    [(name_counts, lines)]. *)
Definition process_line (st : gmap string nat * list string) (line : string) :
    gmap string nat * list string :=
  let '(name_counts, lines) := st in
  let fields := split tab (strip line) in
  if 4 <=? length fields then
    let name := default EmptyString (fields !! 3) in
    let count := S (default 0 (name_counts !! name)) in
    let name_counts := <[name := count]> name_counts in
    let fields :=
      if 1 <? count then
        <[3 := name +:+ "_dup" +:+ pretty (count - 1)]> fields
      else fields in
    (name_counts, lines ++ [join (String tab EmptyString) fields])
  else (name_counts, lines ++ [join (String tab EmptyString) fields]).

(** [make_names_unique], from the text of [bed_file] to the text written
    to [output_file]. *)
Definition make_names_unique (bed_file : string) : string :=
  let '(_, lines) := fold_left process_line (readlines bed_file) (∅, []) in
  fold_left
    (λ written line, written +:+ (line +:+ String newline EmptyString))
    lines EmptyString.

End Dedup.

(** * Opening the tracks: [ConservationTracker.__init__] *)
Module Loader.
Import Tracker.

(** [for x in xs: state = body(x, state)], where the body may raise. *)
Fixpoint for_in {X S} (xs : list X) (body : X → S → Py.result S) (state : S) :
    Py.result S :=
  match xs with
  | [] => mret state
  | x :: xs => state ← body x state; for_in xs body state
  end.

(** [f"PhyloCSF{phylocsf_type}_{sign}{frame}.bw"], with
    [sign = 'plus' if strand == '+' else 'minus']. *)
Definition track_filename (phylocsf_type strand : string) (frame : Z) : string :=
  let sign := if String.eqb strand "+" then "plus" else "minus" in
  "PhyloCSF" +:+ phylocsf_type +:+ "_" +:+ sign +:+ pretty frame +:+ ".bw".

Section loader.
(** [pathlib] paths with the operations used on them, and [pyBigWig.open]:
    they are the libraries', and the loader is stated over any
    implementation of them. *)
Context {Path : Type}.
Variable joinpath : Path → string → Path.
Variable exists_ : Path → bool.
Variable bigwig_open : Path → Py.result BigWig.

(** The body of the two nested loops of [_load_phylocsf_tracks]. *)
Definition load_track (phylocsf_type : string) (phylocsf_dir : Path)
    (frame : Z) (strand : string) (tracks : gmap string BigWig) :
    Py.result (gmap string BigWig) :=
  let filename := track_filename phylocsf_type strand frame in
  let filepath := joinpath phylocsf_dir filename in
  if exists_ filepath then
    track ← bigwig_open filepath;
    mret (<[strand +:+ pretty frame := track]> tracks)
  else mret tracks.

Definition _load_phylocsf_tracks (phylocsf_type : string)
    (phylocsf_dir : Path) : Py.result (gmap string BigWig) :=
  for_in [1; 2; 3]%Z
    (λ frame tracks,
       for_in ["+"; "-"]
         (λ strand tracks,
            load_track phylocsf_type phylocsf_dir frame strand tracks)
         tracks)
    ∅.

Definition _load_phylop_track (phylop_path : Path) : Py.result BigWig :=
  bigwig_open phylop_path.

(** [ConservationTracker(phylocsf_dir, phylop_path, phylocsf_type)]. *)
Definition __init__ (phylocsf_dir phylop_path : Path)
    (phylocsf_type : string) : Py.result ConservationTracker :=
  tracks ← _load_phylocsf_tracks phylocsf_type phylocsf_dir;
  track ← _load_phylop_track phylop_path;
  mret {| Tracker.phylocsf_type := phylocsf_type;
          phylocsf_tracks := tracks;
          phylop_track := track |}.

End loader.

(** [phylocsf_type: str = "Raw"]. *)
Definition default_phylocsf_type : string := "Raw".

End Loader.

(** * The command line of [notebooks/dedup.py] *)
Module Cli.

(** The files the tool can reach: for each existing path, what opening
    it and reading it to the end gives (its text, or the exception raised
    for a file without read permission, a directory, or bytes that do not
    decode), and the paths that cannot be opened for writing. *)
Record FileSystem : Type := {
  files : gmap string (Py.result string);
  read_only : gset string
}.

(** [open(path, 'r')] followed by reading the whole text. *)
Definition read_text (fs : FileSystem) (path : string) : Py.result string :=
  match files fs !! path with
  | Some outcome => outcome
  | None =>
    Py.Raise (Py.Exception
      ("[Errno 2] No such file or directory: '" +:+ path +:+ "'"))
  end.

(** [open(path, 'w')] followed by writing the whole text. *)
Definition write_text (fs : FileSystem) (path text : string) :
    Py.result FileSystem :=
  if decide (path ∈ read_only fs) then
    Py.Raise (Py.Exception ("[Errno 13] Permission denied: '" +:+ path +:+ "'"))
  else
    Py.Return {| files := <[path := Py.Return text]> (files fs);
                 read_only := read_only fs |}.

(** [make_names_unique(bed_file, output_file)] on the files: every line is
    read and rewritten in memory before the output is opened. *)
Definition make_names_unique (fs : FileSystem) (bed_file output_file : string) :
    Py.result FileSystem :=
  text ← read_text fs bed_file;
  write_text fs output_file (Dedup.make_names_unique text).

(** How the process ends: its exit code, what it printed on the two
    streams, and the files it leaves. *)
Record Exit : Type := {
  exit_code : Z;
  printed : list string;
  printed_err : list string;
  disk : FileSystem
}.

Definition usage : string :=
  "Usage: python make_unique_names.py input.bed output.bed".

(** [main()], with [sys.argv] and the files as inputs. *)
Definition main (argv : list string) (fs : FileSystem) : Exit :=
  if negb (length argv =? 3) then
    {| exit_code := 1; printed := [usage]; printed_err := []; disk := fs |}
  else
    let input_file := default EmptyString (argv !! 1) in
    let output_file := default EmptyString (argv !! 2) in
    match make_names_unique fs input_file output_file with
    | Py.Return fs' =>
      {| exit_code := 0; printed := []; printed_err := []; disk := fs' |}
    | Py.Raise e =>
      {| exit_code := 1; printed := [];
         printed_err := ["Error: " +:+ Py.str e]; disk := fs |}
    end.

End Cli.

(** * Properties

    The remaining modules state and prove the properties of the code
    above, with the definitions in which they are expressed. *)

(** * Facts about binary64 comparisons

    Derived from the specification of the primitive operations
    ([FloatAxioms]): on values that are not NaN, [<=?] is a total preorder
    and [<?] is its strict part. *)
Module FloatOrder.

Lemma is_nan_spec (x : float) :
  PrimFloat.is_nan x = true ↔ Prim2SF x = S754_nan.
Proof.
  unfold PrimFloat.is_nan. rewrite FloatAxioms.eqb_spec.
  destruct (Prim2SF x) as [s| s | |s m e]; simpl; unfold SFeqb; simpl;
    try (destruct s); simpl; try (split; congruence).
  all: change PosDef.Pos.compare_cont with Pos.compare_cont;
    rewrite ?Z.compare_refl, ?Pos.compare_cont_refl; simpl;
    split; congruence.
Qed.

Lemma not_nan_spec (x : float) :
  PrimFloat.is_nan x = false ↔ Prim2SF x ≠ S754_nan.
Proof.
  rewrite <- is_nan_spec. destruct (PrimFloat.is_nan x); split; congruence.
Qed.

Lemma SFcompare_antisym (x y : spec_float) :
  SFcompare y x = option_map CompOpp (SFcompare x y).
Proof.
  destruct x as [sx|sx| |sx mx ex], y as [sy|sy| |sy my ey]; simpl;
    try destruct sx; try destruct sy; simpl; try reflexivity.
  all: rewrite (Z.compare_antisym ey ex);
    destruct (ey ?= ex)%Z; simpl; try reflexivity.
  all: rewrite ?CompOpp_involutive; f_equal.
  - exact (Pos.compare_cont_antisym my mx Eq).
  - symmetry. exact (Pos.compare_cont_antisym mx my Eq).
Qed.

Lemma SFcompare_total (x y : spec_float) :
  x ≠ S754_nan → y ≠ S754_nan → ∃ c, SFcompare x y = Some c.
Proof.
  destruct x, y; simpl; intros; try congruence; eauto.
Qed.

(** [<?] is the complement of the converse [<=?] away from NaN. *)
Lemma ltb_negb_leb (x y : float) :
  PrimFloat.is_nan x = false → PrimFloat.is_nan y = false →
  (x <? y)%float = negb (y <=? x)%float.
Proof.
  rewrite !not_nan_spec, ltb_spec, leb_spec. intros Hx Hy.
  unfold SFltb, SFleb. rewrite (SFcompare_antisym (Prim2SF x) (Prim2SF y)).
  destruct (SFcompare_total _ _ Hx Hy) as [c ->]. by destruct c.
Qed.

Lemma ltb_leb (x y : float) : (x <? y)%float = true → (x <=? y)%float = true.
Proof.
  rewrite ltb_spec, leb_spec. unfold SFltb, SFleb.
  destruct (SFcompare _ _) as [[]|]; congruence.
Qed.

Lemma leb_refl (x : float) : PrimFloat.is_nan x = false → (x <=? x)%float = true.
Proof.
  rewrite not_nan_spec, leb_spec. unfold SFleb.
  destruct (Prim2SF x) as [s|s| |s m e]; simpl; try destruct s; simpl;
    try congruence.
  all: change PosDef.Pos.compare_cont with Pos.compare_cont;
    rewrite Z.compare_refl, Pos.compare_cont_refl; reflexivity.
Qed.

Lemma SFleb_trans (x y z : spec_float) :
  SFleb x y = true → SFleb y z = true → SFleb x z = true.
Proof.
  unfold SFleb.
  destruct x as [sx|sx| |sx mx ex], y as [sy|sy| |sy my ey],
    z as [sz|sz| |sz mz ez]; simpl;
    try destruct sx; try destruct sy; try destruct sz; simpl;
    try congruence.
  all: change PosDef.Pos.compare_cont with Pos.compare_cont;
    rewrite ?Pos.compare_cont_spec; simpl.
  all: destruct (Z.compare_spec ex ey), (Z.compare_spec ey ez),
    (Z.compare_spec ex ez); try congruence; try lia.
  all: destruct (Pos.compare_spec mx my), (Pos.compare_spec my mz),
    (Pos.compare_spec mx mz); simpl; try congruence; try lia.
Qed.

Lemma leb_trans (x y z : float) :
  (x <=? y)%float = true → (y <=? z)%float = true → (x <=? z)%float = true.
Proof. rewrite !leb_spec. apply SFleb_trans. Qed.

Lemma leb_not_nan (x y : float) :
  (x <=? y)%float = true →
  PrimFloat.is_nan x = false ∧ PrimFloat.is_nan y = false.
Proof.
  rewrite leb_spec, !not_nan_spec. unfold SFleb.
  destruct (Prim2SF x), (Prim2SF y); simpl; try congruence; by split.
Qed.

(** A comparison with NaN is false. *)
Lemma ltb_nan_l (x y : float) :
  PrimFloat.is_nan x = true → (x <? y)%float = false.
Proof. rewrite is_nan_spec, ltb_spec. by intros ->. Qed.

Lemma ltb_nan_r (x y : float) :
  PrimFloat.is_nan y = true → (x <? y)%float = false.
Proof.
  rewrite is_nan_spec, ltb_spec. intros ->. by destruct (Prim2SF x).
Qed.

End FloatOrder.

(** * Facts about binary64 arithmetic on NaN and on equal operands *)
Module FloatArith.
Import FloatOrder.

Lemma sub_nan (x y : float) :
  PrimFloat.is_nan (x - y) = false →
  PrimFloat.is_nan x = false ∧ PrimFloat.is_nan y = false.
Proof.
  rewrite !not_nan_spec, sub_spec.
  destruct (Prim2SF x), (Prim2SF y); simpl; intros Hn; split; congruence.
Qed.

Lemma div_nan (x y : float) :
  PrimFloat.is_nan (x / y) = false →
  PrimFloat.is_nan x = false ∧ PrimFloat.is_nan y = false.
Proof.
  rewrite !not_nan_spec, div_spec.
  destruct (Prim2SF x), (Prim2SF y); simpl; intros Hn; split; congruence.
Qed.

Lemma mul_nan (x y : float) :
  PrimFloat.is_nan (x * y) = false →
  PrimFloat.is_nan x = false ∧ PrimFloat.is_nan y = false.
Proof.
  rewrite !not_nan_spec, mul_spec.
  destruct (Prim2SF x), (Prim2SF y); simpl; intros Hn; split; congruence.
Qed.

(** [x - x] is a zero, or NaN when [x] is infinite or NaN. *)
Lemma sub_self (x : float) :
  Prim2SF (x - x) = S754_nan ∨ ∃ s, Prim2SF (x - x) = S754_zero s.
Proof.
  rewrite sub_spec. destruct (Prim2SF x) as [s|s| |s m e].
  - right. destruct s; simpl; eauto.
  - left. by destruct s.
  - by left.
  - right. unfold SF64sub, SFsub. rewrite Z.sub_diag. simpl. eauto.
Qed.

(** The quotient of [x - x] by itself is NaN, and stays NaN when scaled. *)
Lemma degenerate_quotient_nan (x scale : float) :
  PrimFloat.is_nan ((x - x) / (x - x) * scale) = true.
Proof.
  rewrite is_nan_spec, mul_spec, div_spec.
  destruct (sub_self x) as [-> | [s ->]]; reflexivity.
Qed.

(** So does its product with its own reciprocal: [0 * (1 / 0)] is
    [0 * inf]. *)
Lemma degenerate_reciprocal_nan (x scale : float) :
  PrimFloat.is_nan ((x - x) * (1 / (x - x)) * scale) = true.
Proof.
  rewrite is_nan_spec, !mul_spec, div_spec.
  destruct (sub_self x) as [-> | [s ->]]; [reflexivity|].
  by destruct s.
Qed.

End FloatArith.

(** * Runs of consecutive positions satisfying a test

    The scan of [_get_longest_positive_run], for an arbitrary test [P]: one
    counter for the run that ends at the current position, one for the
    longest run seen. *)
Module Runs.
Section runs.
Context {A : Type} (P : A → bool).

(** [n] consecutive positions of [l], starting at [i], all pass the test. *)
Definition run_at (l : list A) (i n : nat) : Prop :=
  i + n ≤ length l ∧ ∀ k, k < n → ∃ x, l !! (i + k) = Some x ∧ P x = true.

Definition scan_step (st : nat * nat) (x : A) : nat * nat :=
  let '(current_run, max_run) := st in
  if P x then (S current_run, Nat.max max_run (S current_run))
  else (0, max_run).

Lemma run_at_app_l (l r : list A) (i n : nat) :
  i + n ≤ length l → run_at (l ++ r) i n ↔ run_at l i n.
Proof.
  intros Hin. unfold run_at. rewrite length_app. split.
  - intros [_ Hk]. split; [done|]. intros k Hlt.
    destruct (Hk k Hlt) as (x & Hx & HP). exists x. split; [|done].
    rewrite lookup_app_l in Hx by lia. done.
  - intros [_ Hk]. split; [lia|]. intros k Hlt.
    destruct (Hk k Hlt) as (x & Hx & HP). exists x. split; [|done].
    rewrite lookup_app_l by lia. done.
Qed.

Lemma run_at_nil (l : list A) (i : nat) : i ≤ length l → run_at l i 0.
Proof. intros. split; [lia|]. intros k Hk. lia. Qed.

(** A non-empty run that reaches the last position of [l ++ [x]]. *)
Lemma run_at_snoc_last (l : list A) (x : A) (i n : nat) :
  i + S n = S (length l) →
  run_at (l ++ [x]) i (S n) ↔ P x = true ∧ run_at l i n.
Proof.
  intros Hend. unfold run_at. rewrite length_app. simpl. split.
  - intros [_ Hk]. split.
    + destruct (Hk n ltac:(lia)) as (y & Hy & HP).
      replace (i + n) with (length l + 0) in Hy by lia.
      rewrite lookup_app_r, Nat.add_comm, Nat.add_sub in Hy by lia.
      simpl in Hy. congruence.
    + split; [lia|]. intros k Hlt.
      destruct (Hk k ltac:(lia)) as (y & Hy & HP). exists y. split; [|done].
      rewrite lookup_app_l in Hy by lia. done.
  - intros [HP [_ Hk]]. split; [lia|]. intros k Hlt.
    destruct (decide (k = n)) as [->|Hne].
    + exists x. split; [|done].
      replace (i + n) with (length l) by lia.
      by rewrite list_lookup_middle.
    + destruct (Hk k ltac:(lia)) as (y & Hy & HPy). exists y. split; [|done].
      rewrite lookup_app_l by lia. done.
Qed.

(** The loop invariant of the scan, after any prefix [l] of the input. *)
Record scan_inv (l : list A) (st : nat * nat) : Prop := {
  inv_le : st.1 ≤ st.2;
  inv_current : run_at l (length l - st.1) st.1;
  inv_current_len : st.1 ≤ length l;
  inv_current_max : ∀ n, n ≤ length l → run_at l (length l - n) n → n ≤ st.1;
  inv_max_run : ∃ i, run_at l i st.2;
  inv_max_bound : ∀ i n, run_at l i n → n ≤ st.2
}.

Lemma scan_inv_init : scan_inv [] (0, 0).
Proof.
  split; simpl; try lia.
  - by apply run_at_nil.
  - exists 0. by apply run_at_nil.
  - intros i n [Hlen _]. simpl in Hlen. lia.
Qed.

Lemma scan_inv_step (l : list A) (st : nat * nat) (x : A) :
  scan_inv l st → scan_inv (l ++ [x]) (scan_step st x).
Proof.
  destruct st as [cur mx]. intros [Hle Hcur Hlen Hcmax [j Hj] Hbound].
  simpl in *. unfold scan_step. destruct (P x) eqn:HP.
  - split; simpl; rewrite ?length_app; simpl; try lia.
    + replace (length l + 1 - S cur) with (length l - cur) by lia.
      apply run_at_snoc_last; [lia|done].
    + intros [|n] Hn Hrun; [lia|].
      replace (length l + 1 - S n) with (length l - n) in Hrun by lia.
      apply run_at_snoc_last in Hrun as [_ Hrun]; [|lia].
      apply Hcmax in Hrun; lia.
    + destruct (Nat.max_spec mx (S cur)) as [[_ ->]|[_ ->]].
      * exists (length l - cur). apply run_at_snoc_last; [lia|done].
      * exists j. apply run_at_app_l; [apply Hj|done].
    + intros i n Hrun. pose proof Hrun as [Hin _].
      rewrite length_app in Hin. simpl in Hin.
      destruct (decide (i + n ≤ length l)) as [Hfit|Hover].
      * apply run_at_app_l in Hrun; [|done]. apply Hbound in Hrun. lia.
      * destruct n as [|n]; [lia|].
        apply run_at_snoc_last in Hrun as [_ Hrun]; [|lia].
        replace i with (length l - n) in Hrun by lia.
        apply Hcmax in Hrun; lia.
  - assert (Hlast : ∀ i n, i + S n = S (length l) →
                            ¬ run_at (l ++ [x]) i (S n)).
    { intros i n Hend Hrun. apply run_at_snoc_last in Hrun as [HPx _];
        [congruence|done]. }
    split; simpl; rewrite ?length_app; simpl; try lia.
    + apply run_at_nil. rewrite length_app. simpl. lia.
    + intros [|n] Hn Hrun; [lia|]. exfalso.
      refine (Hlast _ _ _ Hrun). lia.
    + exists j. apply run_at_app_l; [apply Hj|done].
    + intros i n Hrun. pose proof Hrun as [Hin _].
      rewrite length_app in Hin. simpl in Hin.
      destruct (decide (i + n ≤ length l)) as [Hfit|Hover].
      * apply run_at_app_l in Hrun; [|done]. by apply Hbound in Hrun.
      * destruct n as [|n]; [lia|]. exfalso.
        refine (Hlast i n _ Hrun). lia.
Qed.

Lemma scan_inv_fold (l : list A) : scan_inv l (fold_left scan_step l (0, 0)).
Proof.
  induction l as [|x l IH] using rev_ind; [apply scan_inv_init|].
  rewrite fold_left_app. simpl. by apply scan_inv_step.
Qed.

Lemma scan_none (l : list A) :
  (∀ x, x ∈ l → P x = false) → (fold_left scan_step l (0, 0)).2 = 0.
Proof.
  intros Hnone. destruct (scan_inv_fold l) as [_ _ _ _ [i [_ Hrun]] _].
  destruct ((fold_left scan_step l (0, 0)).2) as [|n]; [done|].
  destruct (Hrun 0 ltac:(lia)) as (x & Hx & HP).
  apply list_elem_of_lookup_2 in Hx. rewrite (Hnone x Hx) in HP. done.
Qed.

End runs.
End Runs.

(** * Characters of strings, and decimal numerals *)
Module TextFacts.

(** Every character of [s] passes the test [P]. *)
Fixpoint all_chars (P : ascii → bool) (s : string) : bool :=
  match s with
  | EmptyString => true
  | String c rest => P c && all_chars P rest
  end.

Lemma all_chars_app (P : ascii → bool) (s t : string) :
  all_chars P (s +:+ t) = all_chars P s && all_chars P t.
Proof.
  induction s as [|c s IH]; simpl; [done|]. by rewrite IH, andb_assoc.
Qed.

Lemma all_chars_impl (P Q : ascii → bool) (s : string) :
  (∀ c, P c = true → Q c = true) →
  all_chars P s = true → all_chars Q s = true.
Proof.
  intros HPQ. induction s as [|c s IH]; simpl; [done|].
  rewrite !andb_true_iff. intros [Hc Hs]. auto.
Qed.

Definition is_digit (c : ascii) : bool :=
  let n := nat_of_ascii c in (48 <=? n) && (n <=? 57).

Lemma pretty_N_char_digit (d : N) : is_digit (pretty_N_char d) = true.
Proof. unfold pretty_N_char. by repeat case_match. Qed.

Lemma pretty_N_go_digits (x : N) (s : string) :
  all_chars is_digit s = true → all_chars is_digit (pretty_N_go x s) = true.
Proof.
  revert s. induction (N.lt_wf_0 x) as [x _ IH]. intros s Hs.
  destruct (decide (x = 0%N)) as [->|Hx]; [by rewrite pretty_N_go_0|].
  rewrite pretty_N_go_step by lia. apply IH.
  - apply N.div_lt; lia.
  - simpl. by rewrite pretty_N_char_digit, Hs.
Qed.

Lemma pretty_N_digits (x : N) : all_chars is_digit (pretty x) = true.
Proof.
  unfold pretty, pretty_N. case_decide; [done|]. by apply pretty_N_go_digits.
Qed.

Lemma pretty_nat_digits (n : nat) : all_chars is_digit (pretty n) = true.
Proof. apply pretty_N_digits. Qed.

(** A decimal numeral of an integer: digits, after a sign if negative. *)
Lemma pretty_Z_chars (P : ascii → bool) (z : Z) :
  (∀ c, is_digit c = true → P c = true) → P "-"%char = true →
  all_chars P (pretty z) = true.
Proof.
  intros Hdigit Hdash. unfold pretty, pretty_Z. destruct z as [|p|p].
  - simpl. rewrite Hdigit; done.
  - apply (all_chars_impl is_digit); [done|]. apply pretty_N_digits.
  - rewrite all_chars_app. simpl. rewrite Hdash. simpl.
    apply (all_chars_impl is_digit); [done|]. apply pretty_N_digits.
Qed.

(** Two texts cut at the first occurrence of a separator agree part by
    part. *)
Lemma app_sep_inj (sep : ascii) (a b s t : string) :
  all_chars (λ c, negb (Ascii.eqb c sep)) a = true →
  all_chars (λ c, negb (Ascii.eqb c sep)) b = true →
  a +:+ String sep s = b +:+ String sep t → a = b ∧ s = t.
Proof.
  revert b. induction a as [|c a IH]; intros [|d b]; simpl;
    rewrite ?andb_true_iff, ?negb_true_iff.
  - intros _ _ [= ->]. done.
  - intros _ [Hd _] [= <- _]. by rewrite Ascii.eqb_refl in Hd.
  - intros [Hc _] _ [= -> _]. by rewrite Ascii.eqb_refl in Hc.
  - intros [_ Ha] [_ Hb] [= -> Heq].
    destruct (IH b Ha Hb Heq) as [-> ->]. done.
Qed.

End TextFacts.

(** * The longest positive run *)
Module RunFacts.
Import Analyzer.

(** A value that is not missing and strictly greater than 0. *)
Definition strictly_positive (score : float) : Prop :=
  PrimFloat.is_nan score = false ∧ (0 <? score)%float = true.

(** A run of [n] consecutive positions from [i], all strictly positive. *)
Definition positive_run (scores : list float) (i n : nat) : Prop :=
  i + n ≤ length scores ∧
  ∀ k, k < n → ∃ score, scores !! (i + k) = Some score ∧ strictly_positive score.

Lemma positive_score_spec (score : float) :
  positive_score score = true ↔ strictly_positive score.
Proof.
  unfold positive_score, strictly_positive, Py.isnan, Py.gt.
  rewrite andb_true_iff, negb_true_iff. done.
Qed.

(** What breaks a run: a missing value, or a value [≤ 0]. *)
Lemma positive_score_false (score : float) :
  positive_score score = false ↔
  PrimFloat.is_nan score = true ∨ (score <=? 0)%float = true.
Proof.
  unfold positive_score, Py.isnan, Py.gt.
  destruct (PrimFloat.is_nan score) eqn:Hnan; simpl.
  - split; [by left|done].
  - rewrite (FloatOrder.ltb_negb_leb 0 score) by done.
    rewrite negb_false_iff. split; [by right|]. by intros [?|?].
Qed.

Lemma positive_run_run_at (scores : list float) (i n : nat) :
  positive_run scores i n ↔ Runs.run_at positive_score scores i n.
Proof.
  unfold positive_run, Runs.run_at.
  by setoid_rewrite positive_score_spec.
Qed.

Lemma run_step_scan_step (st : nat * nat) (score : float) :
  run_step st score = Runs.scan_step positive_score st score.
Proof. by destruct st. Qed.

Lemma longest_run_fold (scores : list float) :
  _get_longest_positive_run scores
  = (fold_left (Runs.scan_step positive_score) scores (0, 0)).2.
Proof. reflexivity. Qed.

(** The entry [_analyze_score_array] writes under
    [{prefix}_longest_positive_run]: the result of the scan, for an array
    that is not empty. *)
Lemma run_lookup `{np : NumPy} (self : ConservationAnalyzer)
    (scores : list float) (prefix : string) :
  scores ≠ [] →
  _analyze_score_array self (Some scores) prefix
    !! (prefix +:+ "_longest_positive_run")
  = Some (VInt (Z.of_nat (_get_longest_positive_run scores))).
Proof.
  intros Hne. unfold _analyze_score_array.
  case_decide as Hnil; [by destruct scores|]. cbv zeta.
  by rewrite lookup_insert_eq.
Qed.

(** C3. For an array that is not empty, the metric
    [{prefix}_longest_positive_run] written by [_analyze_score_array] is
    the integer [n] such that some run of [n] consecutive positions holds
    only non-missing, strictly positive values and no such run is longer;
    the empty array has no such metric.  The metric is the result of
    [_get_longest_positive_run], of which the same holds: in its scan a
    missing value or a value [≤ 0] resets the running count to 0 and keeps
    the maximum, a positive value extends the run; the result is 0 when no
    position is strictly positive, [[1,2,-1,3,4,5,-1]] gives 3 and an
    all-missing array gives 0. *)
Theorem longest_positive_run_correct :
  (∀ (np : NumPy) (self : ConservationAnalyzer) (scores : list float)
     (prefix : string),
     scores ≠ [] →
     ∃ n : nat,
       _analyze_score_array self (Some scores) prefix
         !! (prefix +:+ "_longest_positive_run") = Some (VInt (Z.of_nat n)) ∧
       (∃ i, positive_run scores i n) ∧
       (∀ i m, positive_run scores i m → m ≤ n)) ∧
  (∀ (np : NumPy) (self : ConservationAnalyzer) (prefix : string),
     _analyze_score_array self (Some []) prefix
       !! (prefix +:+ "_longest_positive_run") = None ∧
     _analyze_score_array self (Some [1; 2; -1; 3; 4; 5; -1]%float) prefix
       !! (prefix +:+ "_longest_positive_run") = Some (VInt 3) ∧
     _analyze_score_array self (Some [nan; nan]%float) prefix
       !! (prefix +:+ "_longest_positive_run") = Some (VInt 0)) ∧
  (∀ scores : list float,
     (∃ i, positive_run scores i (_get_longest_positive_run scores)) ∧
     (∀ i n, positive_run scores i n → n ≤ _get_longest_positive_run scores)) ∧
  (∀ (current_run max_run : nat) (score : float),
     PrimFloat.is_nan score = true ∨ (score <=? 0)%float = true →
     run_step (current_run, max_run) score = (0, max_run)) ∧
  (∀ (current_run max_run : nat) (score : float),
     strictly_positive score →
     run_step (current_run, max_run) score
     = (S current_run, Nat.max max_run (S current_run))) ∧
  (∀ scores : list float,
     (∀ score, score ∈ scores → ¬ strictly_positive score) →
     _get_longest_positive_run scores = 0) ∧
  _get_longest_positive_run [1; 2; -1; 3; 4; 5; -1]%float = 3 ∧
  (∀ scores : list float,
     Forall (λ score, PrimFloat.is_nan score = true) scores →
     _get_longest_positive_run scores = 0).
Proof.
  assert (Hnone : ∀ scores : list float,
             (∀ score, score ∈ scores → ¬ strictly_positive score) →
             _get_longest_positive_run scores = 0).
  { intros scores Hno. rewrite longest_run_fold. apply Runs.scan_none.
    intros x Hx. specialize (Hno x Hx). rewrite <- positive_score_spec in Hno.
    by destruct (positive_score x). }
  assert (Hrun : ∀ scores : list float,
             (∃ i, positive_run scores i (_get_longest_positive_run scores)) ∧
             (∀ i n, positive_run scores i n →
                     n ≤ _get_longest_positive_run scores)).
  { intros scores. rewrite longest_run_fold.
    destruct (Runs.scan_inv_fold positive_score scores)
      as [_ _ _ _ [i Hi] Hmax].
    split.
    - exists i. by apply positive_run_run_at.
    - intros j n Hrun. apply (Hmax j). by apply positive_run_run_at. }
  split; [|split; [|split; [|split; [|split; [|split; [|split]]]]]].
  - intros np self scores prefix Hne.
    exists (_get_longest_positive_run scores).
    split; [by apply run_lookup|]. apply Hrun.
  - intros np self prefix. split; [done|].
    split; by rewrite run_lookup.
  - exact Hrun.
  - intros cur mx score Hbreak. apply positive_score_false in Hbreak.
    unfold run_step. by rewrite Hbreak.
  - intros cur mx score Hpos. apply positive_score_spec in Hpos.
    unfold run_step. by rewrite Hpos.
  - exact Hnone.
  - by vm_compute.
  - intros scores Hall. apply Hnone. intros score Hin [Hnan _].
    rewrite Forall_forall in Hall. specialize (Hall score Hin). congruence.
Qed.

End RunFacts.
(** * The keys of a metric set *)
Module MetricFacts.
Import Analyzer TextFacts.

(** The names [_analyze_score_array] gives to the metrics of one array. *)
Definition metric_suffixes : list string :=
  ["_mean"; "_median"; "_max"; "_q75"; "_start"; "_max_window";
   "_longest_positive_run"].

Definition metric_keys (prefix : string) (scores : list float) : gset string :=
  if decide (length scores = 0) then ∅
  else list_to_set ((λ suffix, prefix +:+ suffix) <$> metric_suffixes).

(** The keys contributed by the frames of a bundle, and by its base-level
    array. *)
Definition frame_keys (frames : list (Z * list float)) : gset string :=
  ⋃ ((λ fs, metric_keys (frame_prefix fs.1) fs.2) <$> frames).
Definition base_keys (base : option (list float)) : gset string :=
  from_option (metric_keys "phylop") ∅ base.

Lemma suffix_underscore (suffix : string) :
  suffix ∈ metric_suffixes → ∃ rest, suffix = String "_" rest.
Proof.
  unfold metric_suffixes. rewrite !elem_of_cons, elem_of_nil.
  intros [->|[->|[->|[->|[->|[->|[->|[]]]]]]]]; eauto.
Qed.

Lemma metric_keys_elem (prefix : string) (scores : list float) (key : string) :
  key ∈ metric_keys prefix scores →
  scores ≠ [] ∧ ∃ rest, key = prefix +:+ String "_" rest.
Proof.
  unfold metric_keys. case_decide as Hlen; [by rewrite elem_of_empty|].
  rewrite elem_of_list_to_set, list_elem_of_fmap.
  intros (suffix & -> & Hin). split.
  - by intros ->.
  - destruct (suffix_underscore suffix Hin) as [rest ->]. eauto.
Qed.

Lemma metric_keys_size (prefix : string) (scores : list float) :
  scores ≠ [] → size (metric_keys prefix scores) = 7.
Proof.
  intros Hne. unfold metric_keys.
  case_decide as Hlen; [by destruct scores|].
  rewrite size_list_to_set; [done|].
  apply NoDup_fmap_2; [apply _|]. unfold metric_suffixes.
  apply (bool_decide_unpack _). by vm_compute.
Qed.

Lemma frame_key_inj (f g : Z) (s t : string) :
  frame_prefix f +:+ String "_" s = frame_prefix g +:+ String "_" t →
  f = g ∧ s = t.
Proof.
  unfold frame_prefix. simpl. intros [= Heq].
  apply (app_sep_inj "_") in Heq as [Hfg ->].
  - split; [|done]. by apply (inj pretty).
  - apply pretty_Z_chars; [|done]. intros c. unfold is_digit.
    destruct (Ascii.eqb_spec c "_") as [->|]; [by vm_compute|done].
  - apply pretty_Z_chars; [|done]. intros c. unfold is_digit.
    destruct (Ascii.eqb_spec c "_") as [->|]; [by vm_compute|done].
Qed.

Lemma frame_key_not_phylop (f : Z) (s t : string) :
  frame_prefix f +:+ s ≠ "phylop" +:+ t.
Proof. unfold frame_prefix. by intros [=]. Qed.

Section keys.
Context `{np : NumPy}.
Variable self : ConservationAnalyzer.

Lemma analyze_dom (scores : list float) (prefix : string) :
  dom (_analyze_score_array self (Some scores) prefix)
  = metric_keys prefix scores.
Proof.
  unfold _analyze_score_array, metric_keys.
  case_decide; [by rewrite dom_empty_L|].
  rewrite !dom_insert_L, dom_empty_L. unfold metric_suffixes. simpl.
  apply set_eq. intros key. set_unfold. tauto.
Qed.

Lemma frames_loop_dom (frames : list (Z * list float))
    (metrics : gmap string value) :
  dom (fold_left
         (λ metrics '(frame, scores),
            Py.update metrics
              (_analyze_score_array self (Some scores) (frame_prefix frame)))
         frames metrics)
  = dom metrics ∪ frame_keys frames.
Proof.
  revert metrics. induction frames as [|[f s] frames IH]; intros metrics.
  - unfold frame_keys. simpl. by rewrite (right_id_L ∅ (∪)).
  - cbn [fold_left]. rewrite IH. unfold Py.update.
    rewrite dom_union_L, analyze_dom.
    unfold frame_keys. rewrite fmap_cons. cbn [union_list fst snd].
    apply set_eq. intros key. set_unfold. tauto.
Qed.

Lemma calculate_metrics_dom (frames : list (Z * list float))
    (base : option (list float)) :
  dom (calculate_metrics self frames base) = frame_keys frames ∪ base_keys base.
Proof.
  unfold calculate_metrics, base_keys. destruct base as [scores|]; cbv zeta.
  - unfold Py.update at 1. rewrite dom_union_L, analyze_dom, frames_loop_dom.
    rewrite dom_empty_L. apply set_eq. intros key. set_unfold. tauto.
  - rewrite frames_loop_dom, dom_empty_L.
    apply set_eq. intros key. set_unfold. tauto.
Qed.

End keys.

Lemma frame_keys_elem (frames : list (Z * list float)) (key : string) :
  key ∈ frame_keys frames →
  ∃ f scores rest, (f, scores) ∈ frames ∧ scores ≠ [] ∧
                   key = frame_prefix f +:+ String "_" rest.
Proof.
  unfold frame_keys. rewrite elem_of_union_list.
  intros (X & HX & Hkey). apply list_elem_of_fmap in HX as ([f s] & -> & Hin).
  apply metric_keys_elem in Hkey as (Hne & rest & ->). simpl. eauto 8.
Qed.

Lemma frame_keys_base_disjoint (frames : list (Z * list float))
    (base : option (list float)) :
  frame_keys frames ## base_keys base.
Proof.
  intros key Hf Hb. apply frame_keys_elem in Hf as (f & s & rest & _ & _ & ->).
  destruct base as [scores|]; simpl in Hb; [|by apply elem_of_empty in Hb].
  apply metric_keys_elem in Hb as (_ & rest' & Heq).
  by apply frame_key_not_phylop in Heq.
Qed.

(** Distinct frames of a dictionary never share a key: each non-empty
    array adds seven keys of its own. *)
Lemma frame_keys_size (frames : list (Z * list float)) :
  NoDup frames.*1 →
  size (frame_keys frames)
  = 7 * length (List.filter (λ fs, negb (Nat.eqb (length fs.2) 0)) frames).
Proof.
  induction frames as [|[f s] frames IH]; [done|].
  rewrite fmap_cons, NoDup_cons. cbn [fst]. intros [Hf Hnd].
  assert (Hcons : frame_keys ((f, s) :: frames)
                  = metric_keys (frame_prefix f) s ∪ frame_keys frames) by done.
  rewrite Hcons, size_union.
  - rewrite IH by done. destruct s as [|x s]; cbn [List.filter length snd].
    + replace (metric_keys (frame_prefix f) []) with (∅ : gset string) by done.
      rewrite size_empty. simpl. lia.
    + rewrite metric_keys_size by done. simpl. lia.
  - intros key Hk Hfr.
    apply metric_keys_elem in Hk as (_ & rest & ->).
    apply frame_keys_elem in Hfr as (g & t & rest' & Hin & _ & Heq).
    apply frame_key_inj in Heq as [-> _].
    apply Hf. apply list_elem_of_fmap. by exists (g, t).
Qed.

(** A frame with no array, or with empty arrays only, has no key. *)
Lemma empty_frame_no_key (frames : list (Z * list float))
    (base : option (list float)) (frame : Z) (rest : string) :
  (∀ scores, (frame, scores) ∈ frames → scores = []) →
  frame_prefix frame +:+ String "_" rest ∉ frame_keys frames ∪ base_keys base.
Proof.
  intros Hempty. rewrite elem_of_union. intros [Hk|Hk].
  - apply frame_keys_elem in Hk as (g & t & rest' & Hin & Hne & Heq).
    apply frame_key_inj in Heq as [-> _]. by apply Hne, Hempty.
  - destruct base as [scores|]; simpl in Hk; [|by apply elem_of_empty in Hk].
    apply metric_keys_elem in Hk as (_ & rest' & Heq).
    by apply frame_key_not_phylop in Heq.
Qed.

Lemma absent_frame_no_key (frames : list (Z * list float))
    (base : option (list float)) (frame : Z) (rest : string) :
  frame ∉ frames.*1 →
  frame_prefix frame +:+ String "_" rest ∉ frame_keys frames ∪ base_keys base.
Proof.
  intros Habsent. apply empty_frame_no_key. intros scores Hin.
  destruct Habsent. apply list_elem_of_fmap. by exists (frame, scores).
Qed.

(** An absent or empty base-level array has no key. *)
Lemma empty_base_no_key (frames : list (Z * list float))
    (base : option (list float)) (rest : string) :
  base = None ∨ base = Some [] →
  "phylop" +:+ String "_" rest ∉ frame_keys frames ∪ base_keys base.
Proof.
  intros Hbase. rewrite elem_of_union. intros [Hk|Hk].
  - apply frame_keys_elem in Hk as (g & t & rest' & _ & _ & Heq).
    symmetry in Heq. by apply frame_key_not_phylop in Heq.
  - destruct Hbase as [-> | ->]; simpl in Hk; by apply elem_of_empty in Hk.
Qed.

(** The bundle of the counterexample and of the witness: three frames and
    a base-level array, all non-empty. *)
Definition full_frames : list (Z * list float) :=
  [(1%Z, [0.5; nan; 2]%float); (2%Z, [-1; 0.25]%float); (3%Z, [nan]%float)].
Definition full_base : list float := [1; 2; 3; 4]%float.

(** C1, as stated, fails: a fully loaded bundle has 28 keys, not 24. *)
Lemma full_bundle_not_24_keys :
  size (calculate_metrics (np := numpy_ref) default_analyzer
          full_frames (Some full_base)) = 28
  ∧ size (calculate_metrics (np := numpy_ref) default_analyzer
            full_frames (Some full_base)) ≠ 24.
Proof. split; [by vm_compute|]. by vm_compute. Qed.

(** C1, amended. For a bundle in which the three frames and the base-level
    array are present and non-empty, [calculate_metrics] returns exactly
    28 keys (7 named metrics per array, 3×7 + 7); and a frame absent from
    the frame dictionary contributes no key with that frame's prefix. *)
Theorem full_bundle_metric_keys `{np : NumPy} (self : ConservationAnalyzer) :
  (∀ (frames : list (Z * list float)) (base : list float),
     frames.*1 ≡ₚ [1; 2; 3]%Z →
     Forall (λ fs, fs.2 ≠ []) frames →
     base ≠ [] →
     size (calculate_metrics self frames (Some base)) = 28) ∧
  (∀ (frames : list (Z * list float)) (base : option (list float))
     (frame : Z) (rest : string),
     frame ∉ frames.*1 →
     calculate_metrics self frames base
       !! (frame_prefix frame +:+ String "_" rest) = None).
Proof.
  split.
  - intros frames base Hkeys Hfull Hbase.
    rewrite <- size_dom, calculate_metrics_dom.
    rewrite size_union by apply frame_keys_base_disjoint.
    rewrite frame_keys_size.
    + simpl. rewrite metric_keys_size by done.
      replace (List.filter _ frames) with frames.
      * apply Permutation_length in Hkeys.
        rewrite length_fmap in Hkeys. rewrite Hkeys. done.
      * clear Hkeys. induction Hfull as [|[f s] frames Hs _ IH]; [done|].
        simpl in *. destruct s; [done|]. simpl. by rewrite <- IH.
    + rewrite Hkeys. apply (bool_decide_unpack _). by vm_compute.
  - intros frames base frame rest Habsent.
    apply not_elem_of_dom. rewrite calculate_metrics_dom.
    by apply absent_frame_no_key.
Qed.

Lemma full_bundle_metric_keys_witness :
  size (calculate_metrics (np := numpy_ref) default_analyzer
          full_frames (Some full_base)) = 28
  ∧ calculate_metrics (np := numpy_ref) default_analyzer
      [(1%Z, [0.5]%float); (3%Z, [2]%float)] None
      !! (frame_prefix 2 +:+ "_mean") = None.
Proof.
  split.
  - apply (proj1 (full_bundle_metric_keys (np := numpy_ref) default_analyzer)).
    + reflexivity.
    + unfold full_frames. repeat constructor; simpl; discriminate.
    + discriminate.
  - apply (proj2 (full_bundle_metric_keys (np := numpy_ref) default_analyzer)).
    simpl. rewrite !elem_of_cons, elem_of_nil. intros [?|[?|[]]]; lia.
Defined.

(** C5. [_analyze_score_array] on an empty array, or on no array, returns
    the empty mapping; a frame with no array in the bundle (or an empty
    one) and a base-level array that is [None] (or empty) contribute no
    entry at all to the metric set. *)
Theorem absent_or_empty_array_no_entries `{np : NumPy} (self : ConservationAnalyzer) :
  (∀ prefix, _analyze_score_array self (Some []) prefix = ∅) ∧
  (∀ prefix, _analyze_score_array self None prefix = ∅) ∧
  (∀ (frames : list (Z * list float)) (base : option (list float))
     (frame : Z) (rest : string),
     frame ∉ frames.*1 ∨ (∀ scores, (frame, scores) ∈ frames → scores = []) →
     calculate_metrics self frames base
       !! (frame_prefix frame +:+ String "_" rest) = None) ∧
  (∀ (frames : list (Z * list float)) (base : option (list float))
     (rest : string),
     base = None ∨ base = Some [] →
     calculate_metrics self frames base !! ("phylop" +:+ String "_" rest) = None) ∧
  calculate_metrics self [] None = ∅.
Proof.
  split; [done|]. split; [done|]. split; [|split; [|done]].
  - intros frames base frame rest Habsent.
    apply not_elem_of_dom. rewrite calculate_metrics_dom.
    destruct Habsent as [Habsent|Hempty].
    + by apply absent_frame_no_key.
    + by apply empty_frame_no_key.
  - intros frames base rest Hbase.
    apply not_elem_of_dom. rewrite calculate_metrics_dom.
    by apply empty_base_no_key.
Qed.

End MetricFacts.

(** * The sliding-window maximum *)
Module WindowFacts.
Import Analyzer.

(** A slice with in-range, non-negative bounds. *)
Lemma slice_take_drop {A} (l : list A) (i w : nat) :
  i + w ≤ length l →
  Py.slice l (Z.of_nat i) (Z.of_nat i + Z.of_nat w) = take w (drop i l).
Proof.
  intros Hfit. unfold Py.slice, Py.slice_bound.
  destruct (Z.ltb_spec (Z.of_nat i) 0); [lia|].
  destruct (Z.ltb_spec (Z.of_nat i + Z.of_nat w) 0); [lia|].
  rewrite !Z.min_l by lia.
  replace (Z.to_nat (Z.of_nat i + Z.of_nat w - Z.of_nat i)) with w by lia.
  by rewrite Nat2Z.id.
Qed.

Section windows.
Context `{np : NumPy}.
Variable self : ConservationAnalyzer.

(** The appending loop collects one mean per offset, in order. *)
Lemma window_loop_map (scores : list float) (offsets : list Z)
    (window_scores : list float) :
  fold_left
    (λ window_scores i,
       window_scores ++ [nanmean (Py.slice scores i (i + window_size self))])
    offsets window_scores
  = window_scores
    ++ map (λ i, nanmean (Py.slice scores i (i + window_size self))) offsets.
Proof.
  revert window_scores.
  induction offsets as [|i offsets IH]; intros window_scores; simpl.
  - by rewrite app_nil_r.
  - by rewrite IH, <- app_assoc.
Qed.

(** For an array at least as long as the window, the window scores are the
    nan-aware means of the windows at the offsets [0 .. L - window_size],
    one per unit offset. *)
Lemma window_scores_long (scores : list float) (w : nat) :
  window_size self = Z.of_nat w → w ≤ length scores →
  _get_window_scores self scores
  = map (λ i, nanmean (take w (drop i scores)))
      (seq 0 (length scores - w + 1)).
Proof.
  intros Hw Hlen. unfold _get_window_scores. cbv zeta.
  destruct (Z.ltb_spec (Z.of_nat (length scores)) (window_size self)); [lia|].
  rewrite window_loop_map. rewrite Hw. simpl. unfold Py.range, seqZ.
  replace (Z.to_nat (Z.of_nat (length scores) - Z.of_nat w + 1))
    with (length scores - w + 1) by lia.
  rewrite <- list_fmap_compose. apply map_ext_in. intros i Hi.
  apply in_seq in Hi. simpl.
  replace (Z.of_nat i + 0)%Z with (Z.of_nat i) by lia.
  rewrite slice_take_drop by lia. done.
Qed.

(** For a shorter array the only window is the whole array. *)
Lemma window_scores_short (scores : list float) :
  (Z.of_nat (length scores) < window_size self)%Z →
  _get_window_scores self scores = [nanmean scores].
Proof.
  intros Hlen. unfold _get_window_scores. cbv zeta.
  destruct (Z.ltb_spec (Z.of_nat (length scores)) (window_size self)); [done|lia].
Qed.

Lemma max_window_lookup (scores : list float) (prefix : string) :
  scores ≠ [] →
  _analyze_score_array self (Some scores) prefix !! (prefix +:+ "_max_window")
  = Some (VFloat (default nan (Py.max (_get_window_scores self scores)))).
Proof.
  intros Hne. unfold _analyze_score_array.
  case_decide as Hnil; [by destruct scores|].
  rewrite lookup_insert_ne.
  - by rewrite lookup_insert_eq.
  - intros Heq. by apply (inj (String.app prefix)) in Heq.
Qed.

Lemma max_window_short (scores : list float) (prefix : string) :
  scores ≠ [] → (Z.of_nat (length scores) < window_size self)%Z →
  _analyze_score_array self (Some scores) prefix !! (prefix +:+ "_max_window")
  = Some (VFloat (nanmean scores)).
Proof.
  intros Hne Hlen. rewrite max_window_lookup by done.
  by rewrite window_scores_short.
Qed.

End windows.

(** The built-in [max] returns an item of the list; when no item is NaN it
    is an upper bound of the list. *)
Lemma max_elem (items : list float) (best : float) :
  Py.max items = Some best → best ∈ items.
Proof.
  destruct items as [|first rest]; [done|]. simpl. intros [= <-].
  revert first. induction rest as [|x rest IH]; intros first; simpl.
  - apply list_elem_of_here.
  - specialize (IH (Py.max_step first x)). unfold Py.max_step in *.
    rewrite !elem_of_cons in *. destruct (Py.gt x first); tauto.
Qed.

Lemma max_upper_bound (items : list float) (best : float) :
  Forall (λ x, PrimFloat.is_nan x = false) items →
  Py.max items = Some best →
  ∀ x, x ∈ items → (x <=? best)%float = true.
Proof.
  destruct items as [|first rest]; [done|]. simpl.
  rewrite Forall_cons. intros [Hfirst Hrest] [= <-].
  assert (Hloop : ∀ acc, PrimFloat.is_nan acc = false →
            (acc <=? fold_left Py.max_step rest acc)%float = true ∧
            ∀ x, x ∈ rest → (x <=? fold_left Py.max_step rest acc)%float = true).
  { clear first Hfirst. induction Hrest as [|y rest Hy _ IH]; intros acc Hacc.
    - simpl. split; [by apply FloatOrder.leb_refl|]. intros x Hx.
      by apply elem_of_nil in Hx.
    - simpl. unfold Py.max_step at 2 4, Py.gt.
      destruct (acc <? y)%float eqn:Hlt.
      + destruct (IH y Hy) as [Hy' Hr]. split.
        * eapply FloatOrder.leb_trans; [|exact Hy']. by apply FloatOrder.ltb_leb.
        * intros x. rewrite elem_of_cons. intros [->|Hx]; auto.
      + destruct (IH acc Hacc) as [Hacc' Hr]. split; [done|].
        intros x. rewrite elem_of_cons. intros [->|Hx]; [|auto].
        rewrite FloatOrder.ltb_negb_leb in Hlt by done.
        apply negb_false_iff in Hlt.
        eapply FloatOrder.leb_trans; [exact Hlt|exact Hacc']. }
  destruct (Hloop first Hfirst) as [Hf Hr].
  intros x. rewrite elem_of_cons. intros [->|Hx]; auto.
Qed.

(** When no window mean is NaN, the reported value is the maximum of the
    window means: one of them, and at least each of them. *)
Lemma max_window_without_nan `{np : NumPy} (self : ConservationAnalyzer)
    (scores : list float) (w : nat) (prefix : string) :
  window_size self = Z.of_nat w → w ≤ length scores → scores ≠ [] →
  let means := map (λ i, nanmean (take w (drop i scores)))
                 (seq 0 (length scores - w + 1)) in
  Forall (λ x, PrimFloat.is_nan x = false) means →
  ∃ best,
    _analyze_score_array self (Some scores) prefix !! (prefix +:+ "_max_window")
    = Some (VFloat best) ∧
    best ∈ means ∧ ∀ x, x ∈ means → (x <=? best)%float = true.
Proof.
  intros Hw Hlen Hne means Hnan. rewrite max_window_lookup by done.
  rewrite (window_scores_long self scores w Hw Hlen). fold means.
  destruct (Py.max means) as [best|] eqn:Hbest.
  - exists best. split; [done|]. split.
    + by apply max_elem.
    + by apply max_upper_bound.
  - destruct means eqn:Hmeans; [|done]. unfold means in Hmeans.
    replace (length scores - w + 1) with (S (length scores - w)) in Hmeans
      by lia. done.
Qed.

(** C2, on an array whose first window is entirely missing.  With the
    default window of 30, the array [30 × NaN, 1.0] has two windows; the
    nan-aware mean of the first is NaN and that of the second is 1.0 (as
    NumPy computes them).  The reported maximum is NaN, because [max]
    keeps its first item unless a later one compares greater; on the same
    values in reverse order the means are 1.0 and NaN and the reported
    maximum is 1.0. *)
Theorem max_window_first_window_missing `{np : NumPy} :
  PrimFloat.is_nan (nanmean (repeat nan 30)) = true →
  nanmean (repeat nan 29 ++ [1%float]) = 1%float →
  nanmean ([1%float] ++ repeat nan 29) = 1%float →
  _get_window_scores default_analyzer (repeat nan 30 ++ [1%float])
  = [nanmean (repeat nan 30); 1%float] ∧
  (∃ reported,
     _analyze_score_array default_analyzer
       (Some (repeat nan 30 ++ [1%float])) "phylop" !! "phylop_max_window"
     = Some (VFloat reported) ∧ PrimFloat.is_nan reported = true) ∧
  _get_window_scores default_analyzer ([1%float] ++ repeat nan 30)
  = [1%float; nanmean (repeat nan 30)] ∧
  _analyze_score_array default_analyzer
    (Some ([1%float] ++ repeat nan 30)) "phylop" !! "phylop_max_window"
  = Some (VFloat 1).
Proof.
  intros Hmissing Hlast Hfirst.
  assert (Hforward : _get_window_scores default_analyzer
                       (repeat nan 30 ++ [1%float])
                     = [nanmean (repeat nan 30); 1%float]).
  { rewrite (window_scores_long default_analyzer _ 30) by (simpl; lia || done).
    change (nanmean (repeat nan 30) :: nanmean (repeat nan 29 ++ [1%float]) :: []
            = [nanmean (repeat nan 30); 1%float]).
    by rewrite Hlast. }
  assert (Hbackward : _get_window_scores default_analyzer
                        ([1%float] ++ repeat nan 30)
                      = [1%float; nanmean (repeat nan 30)]).
  { rewrite (window_scores_long default_analyzer _ 30) by (simpl; lia || done).
    change (nanmean ([1%float] ++ repeat nan 29) :: nanmean (repeat nan 30) :: []
            = [1%float; nanmean (repeat nan 30)]).
    by rewrite Hfirst. }
  split; [done|]. split; [|split; [done|]].
  - exists (nanmean (repeat nan 30)). split; [|done].
    change "phylop_max_window" with ("phylop" +:+ "_max_window").
    rewrite max_window_lookup by done. rewrite Hforward. simpl.
    unfold Py.max_step, Py.gt. by rewrite FloatOrder.ltb_nan_l.
  - change "phylop_max_window" with ("phylop" +:+ "_max_window").
    rewrite max_window_lookup by done. rewrite Hbackward. simpl.
    unfold Py.max_step, Py.gt. by rewrite FloatOrder.ltb_nan_r.
Qed.

Lemma max_window_first_window_missing_witness :
  _get_window_scores (np := numpy_ref) default_analyzer
    (repeat nan 30 ++ [1%float])
  = [ref_nanmean (repeat nan 30); 1%float] ∧
  (∃ reported,
     _analyze_score_array (np := numpy_ref) default_analyzer
       (Some (repeat nan 30 ++ [1%float])) "phylop" !! "phylop_max_window"
     = Some (VFloat reported) ∧ PrimFloat.is_nan reported = true) ∧
  _get_window_scores (np := numpy_ref) default_analyzer
    ([1%float] ++ repeat nan 30)
  = [1%float; ref_nanmean (repeat nan 30)] ∧
  _analyze_score_array (np := numpy_ref) default_analyzer
    (Some ([1%float] ++ repeat nan 30)) "phylop" !! "phylop_max_window"
  = Some (VFloat 1).
Proof.
  apply (max_window_first_window_missing (np := numpy_ref)); by vm_compute.
Defined.

End WindowFacts.

(** * The score fetcher *)
Module TrackerFacts.
Import Tracker.

(** ** Chromosome names *)

Lemma normalize_chrom_prefixed (chrom : string) :
  Py.startswith (normalize_chrom chrom) "chr" = true.
Proof.
  unfold normalize_chrom.
  destruct (Py.startswith chrom "chr") eqn:Hpre; simpl; [done|].
  unfold Py.startswith. by destruct chrom.
Qed.

Lemma normalize_chrom_idem (chrom : string) :
  normalize_chrom (normalize_chrom chrom) = normalize_chrom chrom.
Proof.
  unfold normalize_chrom at 1. by rewrite normalize_chrom_prefixed.
Qed.

(** ** One lookup *)

(** The lookup succeeds with [scores]: the track declares the normalized
    name, the span lies within the declared length, and the retrieval
    returns [scores]. *)
Definition available (bw : BigWig) (chrom : string) (start end_ : Z)
    (scores : list float) : Prop :=
  let name := normalize_chrom chrom in
  ∃ catalog len,
    chroms bw = Py.Return catalog ∧ name ∈ dom catalog ∧
    chroms_of bw name = Py.Return (Some len) ∧
    (0 ≤ start)%Z ∧ (end_ ≤ len)%Z ∧
    values bw name start end_ = Py.Return scores.

(** What makes a lookup unavailable: the name is not declared, the span
    is out of bounds, or one of the calls on the track raises. *)
Definition unavailable (bw : BigWig) (chrom : string) (start end_ : Z) : Prop :=
  let name := normalize_chrom chrom in
  (∃ catalog, chroms bw = Py.Return catalog ∧ name ∉ dom catalog)
  ∨ (start < 0)%Z
  ∨ (∃ len, chroms_of bw name = Py.Return (Some len) ∧ (end_ > len)%Z)
  ∨ (∃ e, chroms bw = Py.Raise e ∨ chroms_of bw name = Py.Raise e
          ∨ values bw name start end_ = Py.Raise e).

Lemma body_Some_iff (bw : BigWig) (name : string) (start end_ : Z)
    (scores : list float) :
  _get_scores_body bw name start end_ = Py.Return (Some scores) ↔
  ∃ catalog len,
    chroms bw = Py.Return catalog ∧ name ∈ dom catalog ∧
    chroms_of bw name = Py.Return (Some len) ∧
    (0 ≤ start)%Z ∧ (end_ ≤ len)%Z ∧
    values bw name start end_ = Py.Return scores.
Proof.
  unfold _get_scores_body, out_of_bounds. split.
  - destruct (chroms bw) as [catalog|e]; simpl; [|done].
    case_bool_decide as Hin; [done|].
    destruct (chroms_of bw name) as [[len|]|e]; simpl;
      destruct (Z.ltb_spec start 0); simpl; try done.
    destruct (Z.ltb_spec len end_); simpl; [done|].
    destruct (values bw name start end_) as [vals|e]; simpl; [|done].
    intros [= ->]. exists catalog, len. repeat split; auto; lia.
  - intros (catalog & len & -> & Hin & -> & Hstart & Hend & ->). simpl.
    rewrite bool_decide_eq_false_2 by auto.
    destruct (Z.ltb_spec start 0); [lia|]. simpl.
    destruct (Z.ltb_spec len end_); [lia|]. done.
Qed.

(** [_get_scores] never raises: a fault becomes [None] and one printed
    line. *)
Lemma get_scores_returns (bw : BigWig) (chrom : string) (start end_ : Z) :
  ∃ out r, _get_scores bw chrom start end_ = Py.IO out (Py.Return r) ∧
           (∀ scores, r = Some scores ↔ available bw chrom start end_ scores).
Proof.
  unfold _get_scores, available, Py.try_except, Py.call. cbv zeta.
  pose proof (body_Some_iff bw (normalize_chrom chrom) start end_) as Hiff.
  destruct (_get_scores_body bw (normalize_chrom chrom) start end_)
    as [r|e]; simpl.
  - eexists _, r. split; [done|]. intros scores. rewrite <- Hiff.
    split; congruence.
  - eexists _, None. split; [done|]. intros scores. rewrite <- Hiff.
    split; congruence.
Qed.

Lemma unavailable_not_available (bw : BigWig) (chrom : string)
    (start end_ : Z) (scores : list float) :
  unavailable bw chrom start end_ → ¬ available bw chrom start end_ scores.
Proof.
  unfold unavailable, available. cbv zeta.
  intros Hun (catalog & len & Hc & Hin & Hlen & Hstart & Hend & Hvals).
  destruct Hun as [(c' & Hc' & Hnin)|[Hneg|[(len' & Hlen' & Hgt)|(e & He)]]].
  - congruence.
  - lia.
  - assert (len' = len) by congruence. lia.
  - destruct He as [He|[He|He]]; congruence.
Qed.

Lemma get_scores_unavailable (bw : BigWig) (chrom : string) (start end_ : Z) :
  unavailable bw chrom start end_ →
  Py.outcome (_get_scores bw chrom start end_) = Py.Return None.
Proof.
  intros Hun. destruct (get_scores_returns bw chrom start end_)
    as (out & r & -> & Hr). simpl. f_equal.
  destruct r as [scores|]; [|done].
  destruct (unavailable_not_available _ _ _ _ scores Hun). by apply Hr.
Qed.

(** Two tracks that answer alike about one name. *)
Definition agree_at (name : string) (bw bw' : BigWig) : Prop :=
  match chroms bw, chroms bw' with
  | Py.Return catalog, Py.Return catalog' =>
    name ∈ dom catalog ↔ name ∈ dom catalog'
  | Py.Raise e, Py.Raise e' => e = e'
  | _, _ => False
  end
  ∧ chroms_of bw name = chroms_of bw' name
  ∧ ∀ start end_, values bw name start end_ = values bw' name start end_.

Lemma body_agree (name : string) (bw bw' : BigWig) (start end_ : Z) :
  agree_at name bw bw' →
  _get_scores_body bw name start end_ = _get_scores_body bw' name start end_.
Proof.
  intros (Hc & Hlen & Hvals). unfold _get_scores_body.
  rewrite <- Hlen, <- Hvals.
  destruct (chroms bw) as [c|e], (chroms bw') as [c'|e']; simpl;
    try done; [|congruence].
  repeat case_bool_decide; try done; tauto.
Qed.

(** ** The frame loop *)

Lemma setitem_keys {V} (d : list (Z * V)) (k : Z) (v : V) (f : Z) :
  f ∈ (Py.setitem d k v).*1 → f = k ∨ f ∈ d.*1.
Proof.
  induction d as [|[k' v'] d IH]; simpl.
  - rewrite list_elem_of_singleton. auto.
  - case_decide as Hk; simpl; rewrite !elem_of_cons.
    + intros [->|Hin]; auto.
    + intros [->|Hin]; auto. destruct (IH Hin); auto.
Qed.

Section fetch.
Variables (self : ConservationTracker) (chrom : string) (start end_ : Z)
  (strand : string).

Definition frame_body (frame : Z) (phylocsf_scores : frame_scores) :
    Py.io frame_scores :=
  let track_key := strand +:+ pretty frame in
  match phylocsf_tracks self !! track_key with
  | Some track =>
    scores ← _get_scores track chrom start end_;
    match scores with
    | Some scores => mret (Py.setitem phylocsf_scores frame scores)
    | None => mret phylocsf_scores
    end
  | None => mret phylocsf_scores
  end.

(** A frame is stored only after a lookup on its own track succeeded. *)
Definition fetched (frame : Z) : Prop :=
  ∃ track scores,
    phylocsf_tracks self !! (strand +:+ pretty frame) = Some track ∧
    available track chrom start end_ scores.

Lemma frame_body_returns (frame : Z) (acc : frame_scores) :
  ∃ out acc', frame_body frame acc = Py.IO out (Py.Return acc') ∧
              ∀ f, f ∈ acc'.*1 → f ∈ acc.*1 ∨ (f = frame ∧ fetched frame).
Proof.
  unfold frame_body, fetched. cbv zeta.
  destruct (phylocsf_tracks self !! (strand +:+ pretty frame))
    as [track|] eqn:Htrack.
  - destruct (get_scores_returns track chrom start end_)
      as (out & r & Heq & Hr).
    rewrite Heq. destruct r as [scores|]; simpl.
    + eexists _, _. split; [done|]. intros f Hf.
      apply setitem_keys in Hf as [->|Hf]; [right|by left].
      split; [done|]. exists track, scores. split; [done|]. by apply Hr.
    + eexists _, _. split; [done|]. auto.
  - eexists _, _. split; [done|]. auto.
Qed.

Lemma frame_loop_returns (frames : list Z) (acc : frame_scores) :
  ∃ out acc', Py.for_each frames frame_body acc = Py.IO out (Py.Return acc') ∧
              ∀ f, f ∈ acc'.*1 → f ∈ acc.*1 ∨ (f ∈ frames ∧ fetched f).
Proof.
  revert acc. induction frames as [|frame frames IH]; intros acc.
  - simpl. eexists _, _. split; [done|]. auto.
  - destruct (frame_body_returns frame acc) as (out1 & acc1 & Heq1 & H1).
    destruct (IH acc1) as (out2 & acc2 & Heq2 & H2).
    exists (out1 ++ out2), acc2. split.
    + simpl. rewrite Heq1. unfold Py.io_bind. simpl. rewrite Heq2. done.
    + intros f Hf. destruct (H2 f Hf) as [Hf1|[Hin Hfetched]].
      * destruct (H1 f Hf1) as [?|[-> ?]]; [by left|right].
        split; [apply list_elem_of_here|done].
      * right. split; [by apply list_elem_of_further|done].
Qed.

End fetch.

(** C4. A lookup whose normalized chromosome name is not declared by the
    track, whose start is negative, whose end exceeds the declared length,
    or during which a call on the track raises, returns [None];
    [get_conservation_scores] always returns (no exception reaches its
    caller), the frame of such a lookup is left out of the frame
    dictionary, and the base-level result of such a lookup is [None]. *)
Theorem get_conservation_scores_contains_faults (self : ConservationTracker)
    (chrom : string) (start end_ : Z) (strand : string) :
  ∃ out frames base,
    get_conservation_scores self chrom start end_ strand
    = Py.IO out (Py.Return (frames, base)) ∧
    (∀ frame track,
       phylocsf_tracks self !! (strand +:+ pretty frame) = Some track →
       unavailable track chrom start end_ → frame ∉ frames.*1) ∧
    (unavailable (phylop_track self) chrom start end_ → base = None) ∧
    (∀ bw, unavailable bw chrom start end_ →
           Py.outcome (_get_scores bw chrom start end_) = Py.Return None).
Proof.
  destruct (frame_loop_returns self chrom start end_ strand [1; 2; 3]%Z [])
    as (out1 & frames & Hloop & Hframes).
  destruct (get_scores_returns (phylop_track self) chrom start end_)
    as (out2 & base & Hbase & Hbase_iff).
  exists (out1 ++ out2 ++ []), frames, base. repeat split.
  - unfold get_conservation_scores. fold (frame_body self chrom start end_ strand).
    rewrite Hloop. unfold mbind, Py.io_bind. simpl. rewrite Hbase. done.
  - intros frame track Htrack Hun Hin.
    destruct (Hframes frame Hin) as [Hnil|[_ (track' & scores & Htrack' & Hav)]].
    + by apply elem_of_nil in Hnil.
    + assert (track' = track) as -> by congruence.
      by apply (unavailable_not_available _ _ _ _ scores Hun).
  - intros Hun. destruct base as [scores|]; [|done].
    destruct (unavailable_not_available _ _ _ _ scores Hun).
    by apply Hbase_iff.
  - intros bw. apply get_scores_unavailable.
Qed.

(** A tracker whose plus-strand frame-1 track raises on retrieval, whose
    frame-2 track lacks the chromosome, and whose base track is sound. *)
Definition ones (start end_ : Z) : list float :=
  repeat 1%float (Z.to_nat (end_ - start)).
Definition sound_track : BigWig := {|
  chroms := Py.Return {[ "chr1" := 1000%Z ]};
  chroms_of := λ name,
    Py.Return (if String.eqb name "chr1" then Some 1000%Z else None);
  values := λ name start end_, Py.Return (ones start end_)
|}.
Definition failing_track : BigWig := {|
  chroms := Py.Return {[ "chr1" := 1000%Z ]};
  chroms_of := λ name, Py.Return (Some 1000%Z);
  values := λ name start end_,
    Py.Raise (Py.Exception "Invalid interval bounds!")
|}.
Definition other_track : BigWig := {|
  chroms := Py.Return {[ "chr2" := 500%Z ]};
  chroms_of := λ name,
    Py.Return (if String.eqb name "chr2" then Some 500%Z else None);
  values := λ name start end_, Py.Return (ones start end_)
|}.
Definition example_tracker : ConservationTracker := {|
  phylocsf_type := "Raw";
  phylocsf_tracks :=
    {[ "+1" := failing_track; "+2" := other_track; "+3" := sound_track ]};
  phylop_track := sound_track
|}.

Example get_conservation_scores_example :
  get_conservation_scores example_tracker "1" 10 12 "+"
  = Py.IO ["Error accessing bigwig for chr1:10-12: Invalid interval bounds!"]
      (Py.Return ([(3%Z, [1; 1]%float)], Some [1; 1]%float)).
Proof. by vm_compute. Qed.

(** ** The values of a call *)

(** The value one lookup returns. *)
Definition lookup_value (bw : BigWig) (chrom : string) (start end_ : Z) :
    option (list float) :=
  match Py.outcome (_get_scores bw chrom start end_) with
  | Py.Return r => r
  | Py.Raise _ => None
  end.

(** The entry of a frame: the value of the lookup on the track loaded for
    the strand and the frame, if there is such a track and a value. *)
Definition frame_entry (self : ConservationTracker) (chrom : string)
    (start end_ : Z) (strand : string) (frame : Z) : option (Z * list float) :=
  track ← phylocsf_tracks self !! (strand +:+ pretty frame);
  scores ← lookup_value track chrom start end_;
  Some (frame, scores).

Lemma get_scores_value (bw : BigWig) (chrom : string) (start end_ : Z) :
  ∃ out, _get_scores bw chrom start end_
         = Py.IO out (Py.Return (lookup_value bw chrom start end_)).
Proof.
  destruct (get_scores_returns bw chrom start end_) as (out & r & Heq & _).
  exists out. unfold lookup_value. by rewrite Heq.
Qed.

Lemma frame_body_value (self : ConservationTracker) (chrom : string)
    (start end_ : Z) (strand : string) (frame : Z) (acc : frame_scores) :
  ∃ out, frame_body self chrom start end_ strand frame acc
         = Py.IO out (Py.Return
             match frame_entry self chrom start end_ strand frame with
             | Some (f, scores) => Py.setitem acc f scores
             | None => acc
             end).
Proof.
  unfold frame_body, frame_entry. cbv zeta.
  destruct (phylocsf_tracks self !! (strand +:+ pretty frame)) as [track|];
    simpl; [|by eexists].
  destruct (get_scores_value track chrom start end_) as [out ->].
  destruct (lookup_value track chrom start end_); simpl; by eexists.
Qed.

Lemma for_each_value {X S} (xs : list X) (body : X → S → Py.io S)
    (step : X → S → S) (state : S) :
  (∀ x s, ∃ out, body x s = Py.IO out (Py.Return (step x s))) →
  ∃ out, Py.for_each xs body state
         = Py.IO out (Py.Return (fold_left (λ s x, step x s) xs state)).
Proof.
  intros Hbody. revert state. induction xs as [|x xs IH]; intros state.
  - by eexists.
  - destruct (Hbody x state) as [o1 H1].
    destruct (IH (step x state)) as [o2 H2].
    exists (o1 ++ o2). cbn [Py.for_each fold_left]. rewrite H1.
    unfold mbind, Py.io_bind. cbn [Py.outcome Py.stdout]. by rewrite H2.
Qed.

Lemma fetch_value (self : ConservationTracker) (chrom : string)
    (start end_ : Z) (strand : string) :
  Py.outcome (get_conservation_scores self chrom start end_ strand)
  = Py.Return
      (omap (frame_entry self chrom start end_ strand) [1; 2; 3]%Z,
       lookup_value (phylop_track self) chrom start end_).
Proof.
  unfold get_conservation_scores.
  fold (frame_body self chrom start end_ strand).
  destruct (for_each_value [1; 2; 3]%Z
              (frame_body self chrom start end_ strand)
              (λ frame acc,
                 match frame_entry self chrom start end_ strand frame with
                 | Some (f, scores) => Py.setitem acc f scores
                 | None => acc
                 end) []) as [o1 ->].
  { intros frame acc. apply frame_body_value. }
  destruct (get_scores_value (phylop_track self) chrom start end_)
    as [o2 Hbase].
  unfold mbind, Py.io_bind. cbn [Py.outcome Py.stdout]. rewrite Hbase.
  cbn [Py.outcome Py.stdout mret Py.io_ret]. f_equal. f_equal.
  cbn [fold_left omap list_omap]. unfold frame_entry.
  destruct (phylocsf_tracks self !! (strand +:+ pretty 1%Z)) as [t1|];
    destruct (phylocsf_tracks self !! (strand +:+ pretty 2%Z)) as [t2|];
    destruct (phylocsf_tracks self !! (strand +:+ pretty 3%Z)) as [t3|];
    cbn [mbind option_bind];
    repeat match goal with
           | |- context [lookup_value ?t chrom start end_] =>
             destruct (lookup_value t chrom start end_);
             cbn [mbind option_bind]
           end; reflexivity || (vm_compute; reflexivity).
Qed.

Lemma frame_entry_Some (self : ConservationTracker) (chrom : string)
    (start end_ : Z) (strand : string) (frame f : Z) (scores : list float) :
  frame_entry self chrom start end_ strand frame = Some (f, scores) ↔
  f = frame ∧
  ∃ track, phylocsf_tracks self !! (strand +:+ pretty frame) = Some track ∧
           Py.outcome (_get_scores track chrom start end_)
           = Py.Return (Some scores).
Proof.
  unfold frame_entry.
  destruct (phylocsf_tracks self !! (strand +:+ pretty frame)) as [track|];
    cbn [mbind option_bind].
  - destruct (get_scores_value track chrom start end_) as [out Heq].
    destruct (lookup_value track chrom start end_) as [v|];
      cbn [mbind option_bind].
    + split.
      * intros [= <- <-]. split; [done|]. exists track. by rewrite Heq.
      * intros [-> (t & [= <-] & Hv)]. rewrite Heq in Hv.
        by injection Hv as [= <-].
    + split; [done|]. intros [_ (t & [= <-] & Hv)]. by rewrite Heq in Hv.
  - split; [done|]. by intros [_ (t & [=] & _)].
Qed.

Lemma entries_sublist (self : ConservationTracker) (chrom : string)
    (start end_ : Z) (strand : string) (frames : list Z) :
  (omap (frame_entry self chrom start end_ strand) frames).*1
    `sublist_of` frames.
Proof.
  induction frames as [|frame frames IH]; [done|].
  cbn [omap list_omap].
  destruct (frame_entry self chrom start end_ strand frame)
    as [[f scores]|] eqn:Hentry.
  - apply frame_entry_Some in Hentry as [-> _]. by apply sublist_skip.
  - by apply sublist_cons.
Qed.

(** C6. Normalization adds the prefix [chr] exactly when the name lacks it:
    ["1"] and ["chr1"] give the same key, a prefixed name is unchanged and
    normalization is idempotent.  A lookup returns an array exactly when
    the track declares the normalized name, the span lies within the
    length declared for the normalized name, and the retrieval at the
    normalized name returns that array: the membership test, the length
    query and the retrieval are all made with the normalized name.  In one
    call of [get_conservation_scores] every frame that is returned and the
    base-level result come from such a lookup with the chromosome of the
    call, so one normalized form serves all of them; on a track that
    declares [chr1] only, ["1"] and ["chr1"] both retrieve the values of
    [chr1]. *)
Theorem chrom_normalization_consistent :
  (∀ chrom, Py.startswith chrom "chr" = false →
            normalize_chrom chrom = "chr" +:+ chrom) ∧
  (∀ chrom, Py.startswith chrom "chr" = true → normalize_chrom chrom = chrom) ∧
  normalize_chrom "1" = "chr1" ∧ normalize_chrom "chr1" = "chr1" ∧
  (∀ chrom, normalize_chrom (normalize_chrom chrom) = normalize_chrom chrom) ∧
  (∀ bw chrom start end_ scores,
     Py.outcome (_get_scores bw chrom start end_) = Py.Return (Some scores) ↔
     ∃ catalog len,
       chroms bw = Py.Return catalog ∧
       normalize_chrom chrom ∈ dom catalog ∧
       chroms_of bw (normalize_chrom chrom) = Py.Return (Some len) ∧
       (0 ≤ start)%Z ∧ (end_ ≤ len)%Z ∧
       values bw (normalize_chrom chrom) start end_ = Py.Return scores) ∧
  (∀ self chrom start end_ strand,
     ∃ frames base,
       Py.outcome (get_conservation_scores self chrom start end_ strand)
       = Py.Return (frames, base) ∧
       (∀ frame scores,
          (frame, scores) ∈ frames ↔
          frame ∈ [1; 2; 3]%Z ∧
          ∃ track,
            phylocsf_tracks self !! (strand +:+ pretty frame) = Some track ∧
            Py.outcome (_get_scores track chrom start end_)
            = Py.Return (Some scores)) ∧
       Py.outcome (_get_scores (phylop_track self) chrom start end_)
       = Py.Return base) ∧
  (∀ start end_,
     (0 ≤ start)%Z → (end_ ≤ 1000)%Z →
     Py.outcome (_get_scores sound_track "1" start end_)
     = Py.Return (Some (ones start end_)) ∧
     Py.outcome (_get_scores sound_track "chr1" start end_)
     = Py.Return (Some (ones start end_))) ∧
  (∀ bw start end_,
     _get_scores bw "1" start end_ = _get_scores bw "chr1" start end_) ∧
  (∀ bw chrom start end_,
     _get_scores bw (normalize_chrom chrom) start end_
     = _get_scores bw chrom start end_) ∧
  (∀ bw bw' chrom start end_,
     agree_at (normalize_chrom chrom) bw bw' →
     _get_scores bw chrom start end_ = _get_scores bw' chrom start end_).
Proof.
  assert (Hlookup : ∀ bw chrom start end_ scores,
     Py.outcome (_get_scores bw chrom start end_) = Py.Return (Some scores) ↔
     available bw chrom start end_ scores).
  { intros bw chrom start end_ scores.
    destruct (get_scores_returns bw chrom start end_) as (out & r & -> & Hr).
    cbn [Py.outcome]. rewrite <- Hr. split; congruence. }
  split; [|split; [|split; [|split; [|split; [|split; [|split;
    [|split; [|split; [|split]]]]]]]]].
  - intros chrom Hpre. unfold normalize_chrom. by rewrite Hpre.
  - intros chrom Hpre. unfold normalize_chrom. by rewrite Hpre.
  - done.
  - done.
  - apply normalize_chrom_idem.
  - exact Hlookup.
  - intros self chrom start end_ strand.
    eexists _, _. split; [apply fetch_value|]. split.
    + intros frame scores. rewrite list_elem_of_omap. split.
      * intros (f & Hf & Hentry).
        by apply frame_entry_Some in Hentry as [-> Htrack].
      * intros [Hf Htrack]. exists frame. split; [done|].
        by apply frame_entry_Some.
    + by destruct (get_scores_value (phylop_track self) chrom start end_)
        as [out ->].
  - intros start end_ Hstart Hend.
    split; apply Hlookup; exists {[ "chr1" := 1000%Z ]}, 1000%Z;
      (split; [done|]); (split; [by apply elem_of_dom; eexists|]);
      done.
  - done.
  - intros bw chrom start end_. unfold _get_scores.
    by rewrite normalize_chrom_idem.
  - intros bw bw' chrom start end_ Hagree. unfold _get_scores. cbv zeta.
    by rewrite (body_agree _ bw bw' start end_ Hagree).
Qed.

End TrackerFacts.
(** * Score normalization on write *)
Module BedFacts.
Import Bed.

(** ** [mapM] over calls that may raise *)

Lemma mapM_Return {A B} (f : A → Py.result B) (l : list A) (k : list B) :
  mapM f l = Py.Return k ↔ Forall2 (λ x y, f x = Py.Return y) l k.
Proof.
  revert k. induction l as [|x l IH]; intros k; simpl.
  - split.
    + intros [= <-]. constructor.
    + intros Hk. by apply Forall2_nil_inv_l in Hk as ->.
  - split.
    + destruct (f x) as [y|e] eqn:Hfx; simpl; [|done].
      destruct (mapM f l) as [k'|e] eqn:Hl; simpl; [|done].
      intros [= <-]. constructor; [done|]. by apply IH.
    + intros Hk. apply Forall2_cons_inv_l in Hk as (y & k' & Hy & Hk' & ->).
      rewrite Hy. simpl. apply IH in Hk'. rewrite Hk'. done.
Qed.

(** ** The minimum and the maximum of a column without NaN *)

Definition is_minimum (lo : float) (xs : list float) : Prop :=
  lo ∈ xs ∧ ∀ x, x ∈ xs → (lo <=? x)%float = true.
Definition is_maximum (hi : float) (xs : list float) : Prop :=
  hi ∈ xs ∧ ∀ x, x ∈ xs → (x <=? hi)%float = true.

Lemma min_loop (xs : list float) (acc : float) :
  PrimFloat.is_nan acc = false → Forall (λ x, PrimFloat.is_nan x = false) xs →
  fold_left min_step xs acc ∈ acc :: xs ∧
  (fold_left min_step xs acc <=? acc)%float = true ∧
  ∀ x, x ∈ xs → (fold_left min_step xs acc <=? x)%float = true.
Proof.
  intros Hacc Hxs. revert acc Hacc.
  induction Hxs as [|y xs Hy _ IH]; intros acc Hacc; simpl.
  - split; [apply list_elem_of_here|].
    split; [by apply FloatOrder.leb_refl|]. intros x Hx.
    by apply elem_of_nil in Hx.
  - unfold min_step at 2 4 6, Py.isnan. rewrite Hacc.
    destruct (y <? acc)%float eqn:Hlt.
    + destruct (IH y Hy) as (Hin & Hle & Hall).
      split; [rewrite !elem_of_cons in *; tauto|]. split.
      * eapply FloatOrder.leb_trans; [exact Hle|]. by apply FloatOrder.ltb_leb.
      * intros x. rewrite elem_of_cons. intros [->|Hx]; auto.
    + destruct (IH acc Hacc) as (Hin & Hle & Hall).
      split; [rewrite !elem_of_cons in *; tauto|].
      split; [done|].
      intros x. rewrite elem_of_cons. intros [->|Hx]; [|auto].
      rewrite FloatOrder.ltb_negb_leb in Hlt by done.
      apply negb_false_iff in Hlt.
      eapply FloatOrder.leb_trans; [exact Hle|exact Hlt].
Qed.

Lemma max_loop (xs : list float) (acc : float) :
  PrimFloat.is_nan acc = false → Forall (λ x, PrimFloat.is_nan x = false) xs →
  fold_left max_step xs acc ∈ acc :: xs ∧
  (acc <=? fold_left max_step xs acc)%float = true ∧
  ∀ x, x ∈ xs → (x <=? fold_left max_step xs acc)%float = true.
Proof.
  intros Hacc Hxs. revert acc Hacc.
  induction Hxs as [|y xs Hy _ IH]; intros acc Hacc; simpl.
  - split; [apply list_elem_of_here|].
    split; [by apply FloatOrder.leb_refl|]. intros x Hx.
    by apply elem_of_nil in Hx.
  - unfold max_step at 2 4 6, Py.isnan. rewrite Hacc.
    destruct (acc <? y)%float eqn:Hlt.
    + destruct (IH y Hy) as (Hin & Hle & Hall).
      split; [rewrite !elem_of_cons in *; tauto|]. split.
      * eapply FloatOrder.leb_trans; [|exact Hle]. by apply FloatOrder.ltb_leb.
      * intros x. rewrite elem_of_cons. intros [->|Hx]; auto.
    + destruct (IH acc Hacc) as (Hin & Hle & Hall).
      split; [rewrite !elem_of_cons in *; tauto|].
      split; [done|].
      intros x. rewrite elem_of_cons. intros [->|Hx]; [|auto].
      rewrite FloatOrder.ltb_negb_leb in Hlt by done.
      apply negb_false_iff in Hlt.
      eapply FloatOrder.leb_trans; [exact Hlt|exact Hle].
Qed.

Lemma col_min_spec (xs : list float) (lo : float) :
  Forall (λ x, PrimFloat.is_nan x = false) xs →
  col_min xs = Some lo → is_minimum lo xs.
Proof.
  destruct xs as [|x xs]; [done|]. rewrite Forall_cons. simpl.
  intros [Hx Hxs] [= <-]. destruct (min_loop xs x Hx Hxs) as (Hin & Hle & Hall).
  split; [done|]. intros y. rewrite elem_of_cons. intros [->|Hy]; auto.
Qed.

Lemma col_max_spec (xs : list float) (hi : float) :
  Forall (λ x, PrimFloat.is_nan x = false) xs →
  col_max xs = Some hi → is_maximum hi xs.
Proof.
  destruct xs as [|x xs]; [done|]. rewrite Forall_cons. simpl.
  intros [Hx Hxs] [= <-]. destruct (max_loop xs x Hx Hxs) as (Hin & Hle & Hall).
  split; [done|]. intros y. rewrite elem_of_cons. intros [->|Hy]; auto.
Qed.

(** ** The score expression *)

(** [Py.floor_Z] is the floor: on the finite float [± m * 2^e] it is the
    integer [± m * 2^e] when [e] is not negative, and the quotient of
    [± m] by [2^(-e)], rounded towards minus infinity, when it is. *)
Lemma floor_Z_finite (x : float) (s : bool) (m : positive) (e : Z) :
  Prim2SF x = S754_finite s m e →
  Py.floor_Z x
  = Some (if (e <? 0)%Z then ((if s then Z.neg m else Z.pos m) / 2 ^ (- e))%Z
          else ((if s then Z.neg m else Z.pos m) * 2 ^ e)%Z).
Proof.
  intros Hx. unfold Py.floor_Z. rewrite Hx. f_equal.
  destruct (Z.ltb_spec e 0).
  - by rewrite Z.shiftl_div_pow2 by lia.
  - by rewrite Z.shiftl_mul_pow2 by lia.
Qed.

Lemma floor_Z_not_nan (x : float) (n : Z) :
  Py.floor_Z x = Some n → PrimFloat.is_nan x = false.
Proof.
  unfold Py.floor_Z. rewrite FloatOrder.not_nan_spec.
  destruct (Prim2SF x); congruence.
Qed.

(** [n] is the floor of the finite float [v = ± m * 2^e]: the greatest
    integer not above it, written over the integers ([n ≤ v < n + 1]
    multiplied by [2^(-e)] when [e] is negative). *)
Definition floor_of (v : float) (n : Z) : Prop :=
  match Prim2SF v with
  | S754_zero _ => n = 0%Z
  | S754_finite s m e =>
    let a := if s then Z.neg m else Z.pos m in
    if (e <? 0)%Z then (n * 2 ^ (- e) ≤ a < (n + 1) * 2 ^ (- e))%Z
    else n = (a * 2 ^ e)%Z
  | S754_infinity _ | S754_nan => False
  end.

Lemma floor_Z_spec (v : float) (n : Z) :
  Py.floor_Z v = Some n ↔ floor_of v n.
Proof.
  unfold floor_of. destruct (Prim2SF v) as [s|s| |s m e] eqn:Hv.
  - unfold Py.floor_Z. rewrite Hv. split; [by intros [= <-]|by intros ->].
  - unfold Py.floor_Z. rewrite Hv. done.
  - unfold Py.floor_Z. rewrite Hv. done.
  - rewrite (floor_Z_finite v s m e Hv). cbv zeta.
    set (a := if s then Z.neg m else Z.pos m).
    destruct (Z.ltb_spec e 0) as [He|He].
    + assert (0 < 2 ^ (- e))%Z as Hpos by (apply Z.pow_pos_nonneg; lia).
      split.
      * intros [= <-]. pose proof (Z.mul_div_le a _ Hpos).
        pose proof (Z.mul_succ_div_gt a _ Hpos). lia.
      * intros Hn. f_equal. symmetry.
        apply (Z.div_unique a (2 ^ (- e)) n (a - n * 2 ^ (- e))); lia.
    + split; [by intros [= <-]|by intros ->].
Qed.

Lemma floor_cast_Return (x : float) (n : Z) :
  floor_cast x = Py.Return n → Py.floor_Z x = Some n.
Proof.
  unfold floor_cast. destruct (Py.floor_Z x) as [m|]; [|done].
  case_match; [|done]. by intros [= ->].
Qed.

Lemma score_expr_Return (lo hi scale_factor x : float) (score : Z) :
  score_expr lo hi scale_factor x = Py.Return score →
  ∃ n, Py.floor_Z ((x - lo) * (1 / (hi - lo)) * scale_factor) = Some n ∧
       score = clip 0 1000 n ∧ PrimFloat.is_nan x = false.
Proof.
  unfold score_expr, div_scalar.
  destruct (floor_cast ((x - lo) * (1 / (hi - lo)) * scale_factor))
    as [n|e] eqn:Hn; simpl; [|done].
  intros [= <-]. apply floor_cast_Return in Hn. exists n. repeat split; [done|].
  apply floor_Z_not_nan in Hn.
  apply FloatArith.mul_nan in Hn as [Hn _].
  apply FloatArith.mul_nan in Hn as [Hn _].
  by apply FloatArith.sub_nan in Hn as [Hn _].
Qed.

Lemma score_expr_cast (lo hi scale_factor x : float) (score : Z) :
  score_expr lo hi scale_factor x = Py.Return score →
  ∃ n, Py.floor_Z ((x - lo) * (1 / (hi - lo)) * scale_factor) = Some n ∧
       (- 2 ^ 63 ≤ n < 2 ^ 63)%Z ∧ score = Z.min (Z.max n 0) 1000.
Proof.
  unfold score_expr, div_scalar, floor_cast.
  destruct (Py.floor_Z ((x - lo) * (1 / (hi - lo)) * scale_factor))
    as [n|]; simpl; [|done].
  destruct (Z.leb_spec (- 2 ^ 63) n), (Z.ltb_spec n (2 ^ 63)); simpl;
    try done.
  intros [= <-]. exists n. split; [done|]. split; [lia|done].
Qed.

Lemma clip_range (n : Z) : (0 ≤ clip 0 1000 n ≤ 1000)%Z.
Proof. unfold clip. lia. Qed.

Lemma score_expr_degenerate (x scale_factor : float) :
  ∃ e, score_expr x x scale_factor x = Py.Raise e.
Proof.
  unfold score_expr, div_scalar, floor_cast, Py.floor_Z.
  pose proof (FloatArith.degenerate_reciprocal_nan x scale_factor) as Hnan.
  apply FloatOrder.is_nan_spec in Hnan. rewrite Hnan. simpl. eauto.
Qed.

(** ** The column of a frame *)

Lemma col_Return (df : list row) (score_col : string) (scores : list float) :
  col df score_col = Py.Return scores ↔
  Forall2 (λ r x, float_columns r !! score_col = Some x) df scores.
Proof.
  unfold col. rewrite mapM_Return.
  split; intros Hall; (eapply Forall2_impl; [exact Hall|]); intros r x; simpl;
    destruct (float_columns r !! score_col); congruence.
Qed.

Lemma min_step_self (x : float) : min_step x x = x.
Proof. unfold min_step. by repeat case_match. Qed.
Lemma max_step_self (x : float) : max_step x x = x.
Proof. unfold max_step. by repeat case_match. Qed.

Lemma fold_min_constant (x : float) (n : nat) :
  fold_left min_step (replicate n x) x = x.
Proof. induction n as [|n IH]; simpl; [done|]. by rewrite min_step_self. Qed.
Lemma fold_max_constant (x : float) (n : nat) :
  fold_left max_step (replicate n x) x = x.
Proof. induction n as [|n IH]; simpl; [done|]. by rewrite max_step_self. Qed.

Lemma col_min_constant (x : float) (n : nat) :
  col_min (replicate (S n) x) = Some x.
Proof. simpl. by rewrite fold_min_constant. Qed.
Lemma col_max_constant (x : float) (n : nat) :
  col_max (replicate (S n) x) = Some x.
Proof. simpl. by rewrite fold_max_constant. Qed.

(** ** The written frame *)

Definition example_row (score : float) : row := {|
  chrom := "chr1"; chromStart := 100; chromEnd := 200; name := "orf";
  strand := "+"; float_columns := {[ "conservation_score" := score ]}
|}.

(** C7, as stated, fails: on the scores 0 and 49 the row of the maximum is
    written with the score 999, where the quotient of the claim,
    [(49 - 0) / (49 - 0) * 1000], is 1000.  The product of 49 with the
    reciprocal of 49 is the float just below 1. *)
Lemma maximum_row_scores_999 :
  write_scored_bed (example_row <$> [0; 49]%float)
    default_score_col default_scale_factor
  = Py.Return [select (example_row 0) 0; select (example_row 49) 999] ∧
  floor_of ((49 - 0) / (49 - 0) * 1000) 1000 ∧
  floor_of ((49 - 0) * (1 / (49 - 0)) * 1000) 999 ∧
  clip 0 1000 1000 = 1000%Z ∧ clip 0 1000 999 = 999%Z.
Proof.
  split; [by vm_compute|].
  split; [by apply floor_Z_spec; vm_compute|].
  split; [by apply floor_Z_spec; vm_compute|].
  by vm_compute.
Qed.

(** C7, amended. When [write_scored_bed], called with its default scale
    factor of 1000, produces a frame, it has one row per input row; its
    row [i] holds exactly the six columns chrom, chromStart, chromEnd,
    name, score, strand, taken from input row [i], where the score is the
    floor [n] of the binary64 value [(x - lo) * (1 / (hi - lo)) * 1000]
    (the greatest integer not above it), clamped to [0, 1000], [x] being
    the row's value in the score column and [lo], [hi] the minimum and the
    maximum of the whole column.  The scores [10, 20, 30] are normalized
    to [0, 500, 1000]. *)
Theorem write_scored_bed_normalizes :
  (∀ (df : list row) (score_col : string) (out : list (list (string * cell))),
     write_scored_bed df score_col default_scale_factor = Py.Return out →
     length out = length df ∧
     ∃ scores,
       col df score_col = Py.Return scores ∧
       ∀ i r, df !! i = Some r →
         ∃ x lo hi n,
           float_columns r !! score_col = Some x ∧ scores !! i = Some x ∧
           is_minimum lo scores ∧ is_maximum hi scores ∧
           floor_of ((x - lo) * (1 / (hi - lo)) * 1000) n ∧
           (- 2 ^ 63 ≤ n < 2 ^ 63)%Z ∧
           out !! i = Some
             [("chrom", Utf8 (chrom r)); ("chromStart", Int64 (chromStart r));
              ("chromEnd", Int64 (chromEnd r)); ("name", Utf8 (name r));
              ("score", Int64 (Z.min (Z.max n 0) 1000));
              ("strand", Utf8 (strand r))]) ∧
  write_scored_bed (example_row <$> [10; 20; 30]%float)
    default_score_col default_scale_factor
  = Py.Return [select (example_row 10) 0; select (example_row 20) 500;
               select (example_row 30) 1000].
Proof.
  split; [|by vm_compute].
  intros df score_col out. unfold write_scored_bed, default_scale_factor.
  destruct (col df score_col) as [scores|e] eqn:Hcol; simpl; [|done].
  apply col_Return in Hcol. pose proof (Forall2_length _ _ _ Hcol) as Hlen.
  destruct (col_min scores) as [lo|] eqn:Hlo; cycle 1.
  { destruct scores; [|done]. destruct df; [|done]. intros [= <-].
    split; [done|]. exists []. split; [done|]. intros i r Hi. done. }
  destruct (col_max scores) as [hi|] eqn:Hhi; [|by destruct scores].
  destruct (mapM (score_expr lo hi 1000) scores) as [normalized|e] eqn:Hn;
    simpl; [|done].
  intros [= <-]. apply mapM_Return in Hn.
  pose proof (Forall2_length _ _ _ Hn) as Hlen'.
  assert (Hnan : Forall (λ x, PrimFloat.is_nan x = false) scores).
  { apply Forall_forall. intros x Hx.
    apply list_elem_of_lookup in Hx as [i Hi].
    destruct (Forall2_lookup_l _ _ _ _ _ Hn Hi) as (y & _ & Hy).
    by apply score_expr_Return in Hy as (n & _ & _ & Hx). }
  split; [rewrite length_zip_with; lia|].
  exists scores. split; [done|]. intros i r Hi.
  destruct (Forall2_lookup_l _ _ _ _ _ Hcol Hi) as (x & Hx & Hrx).
  destruct (Forall2_lookup_l _ _ _ _ _ Hn Hx) as (y & Hy & Hxy).
  destruct (score_expr_cast _ _ _ _ _ Hxy) as (n & Hfloor & Hrange & ->).
  exists x, lo, hi, n.
  split; [done|]. split; [done|].
  split; [by apply col_min_spec|]. split; [by apply col_max_spec|].
  split; [by apply floor_Z_spec|]. split; [done|].
  rewrite lookup_zip_with, Hi. simpl. rewrite Hy. done.
Qed.

Lemma write_scored_bed_normalizes_witness :
  length [select (example_row 10) 0; select (example_row 20) 500;
          select (example_row 30) 1000]
  = length (example_row <$> [10; 20; 30]%float).
Proof.
  apply (proj1 write_scored_bed_normalizes _ "conservation_score").
  by vm_compute.
Defined.

(** C8, as stated, fails: two rows with the same score 5.  The
    denominator [max - min] is 0, the quotient is NaN (as the product of 0
    with the reciprocal of 0 is), and the write raises instead of yielding
    a result. *)
Lemma equal_scores_not_guarded :
  col_min [5; 5]%float = Some 5%float ∧ col_max [5; 5]%float = Some 5%float ∧
  (5 - 5)%float = 0%float ∧ ((5 - 5) / (5 - 5))%float = nan ∧
  ((5 - 5) * (1 / (5 - 5)))%float = nan ∧
  write_scored_bed (example_row <$> [5; 5]%float)
    default_score_col default_scale_factor
  = Py.Raise (Py.Exception "conversion from `f64` to `i64` failed").
Proof. repeat split; by vm_compute. Qed.

(** C8, amended. [write_scored_bed] has no guard for a score column whose
    maximum equals its minimum: when every row of a non-empty frame holds
    the same score, the score expression divides by [max - min = 0], the
    quotient is NaN (computed as [0 / 0] or as [0 * (1 / 0)] alike), the
    cast to [Int64] fails, and the write raises without producing a
    frame. *)
Theorem equal_scores_write_raises (df : list row) (score_col : string)
    (scale_factor x : float) :
  df ≠ [] →
  (∀ r, r ∈ df → float_columns r !! score_col = Some x) →
  col_min (replicate (length df) x) = Some x ∧
  col_max (replicate (length df) x) = Some x ∧
  PrimFloat.is_nan ((x - x) / (x - x) * scale_factor) = true ∧
  PrimFloat.is_nan ((x - x) * (1 / (x - x)) * scale_factor) = true ∧
  ∃ e, write_scored_bed df score_col scale_factor = Py.Raise e.
Proof.
  intros Hne Hall. destruct df as [|r df]; [done|]. clear Hne. simpl length.
  split; [apply col_min_constant|]. split; [apply col_max_constant|].
  split; [apply FloatArith.degenerate_quotient_nan|].
  split; [apply FloatArith.degenerate_reciprocal_nan|].
  assert (Hcol : col (r :: df) score_col
                 = Py.Return (replicate (S (length df)) x)).
  { apply (proj2 (col_Return _ _ _)). apply Forall2_replicate_r; [done|].
    apply Forall_forall. exact Hall. }
  unfold write_scored_bed. rewrite Hcol. simpl.
  rewrite !fold_min_constant, !fold_max_constant.
  destruct (score_expr_degenerate x scale_factor) as [e He].
  exists e. rewrite He. done.
Qed.

Lemma equal_scores_write_raises_witness :
  ∃ e, write_scored_bed (example_row <$> [5; 5]%float)
         default_score_col default_scale_factor = Py.Raise e.
Proof.
  apply (equal_scores_write_raises (example_row <$> [5; 5]%float)
           default_score_col default_scale_factor 5).
  - discriminate.
  - intros r. simpl. rewrite !elem_of_cons, elem_of_nil.
    intros [->|[->|[]]]; reflexivity.
Defined.

End BedFacts.

(** * The name deduplicator *)
Module DedupFacts.
Import Dedup TextFacts.

(** ** Splitting and joining *)

(** The text [s] does not contain the character [c]. *)
Definition lacks (c : ascii) (s : string) : Prop :=
  all_chars (λ x, negb (Ascii.eqb x c)) s = true.

Lemma lacks_cons (c x : ascii) (s : string) :
  lacks c (String x s) ↔ x ≠ c ∧ lacks c s.
Proof.
  unfold lacks. simpl. rewrite andb_true_iff, negb_true_iff.
  by destruct (Ascii.eqb_spec x c); split; intros [? ?].
Qed.

Lemma lacks_app (c : ascii) (s t : string) :
  lacks c (s +:+ t) ↔ lacks c s ∧ lacks c t.
Proof. unfold lacks. by rewrite all_chars_app, andb_true_iff. Qed.

Lemma split_nonempty (sep : ascii) (s : string) : split sep s ≠ [].
Proof.
  induction s as [|c s IH]; simpl; [done|].
  destruct (Ascii.eqb c sep); [done|]. by destruct (split sep s).
Qed.

Lemma split_chars (P : ascii → bool) (sep : ascii) (s : string) :
  all_chars P s = true → Forall (λ f, all_chars P f = true) (split sep s).
Proof.
  induction s as [|c s IH]; simpl.
  - intros _. by repeat constructor.
  - rewrite andb_true_iff. intros [Hc Hs]. specialize (IH Hs).
    destruct (Ascii.eqb c sep); [by constructor|].
    destruct (split sep s) as [|f fs].
    + repeat constructor. simpl. by rewrite Hc.
    + apply Forall_cons in IH as [Hf Hfs]. constructor; [|done].
      simpl. by rewrite Hc, Hf.
Qed.

Lemma split_lacks_sep (sep : ascii) (s : string) :
  Forall (lacks sep) (split sep s).
Proof.
  induction s as [|c s IH]; simpl; [by repeat constructor|].
  destruct (Ascii.eqb_spec c sep) as [->|Hne]; [by constructor|].
  destruct (split sep s) as [|f fs].
  - repeat constructor. by apply lacks_cons.
  - apply Forall_cons in IH as [Hf Hfs]. constructor; [|done].
    by apply lacks_cons.
Qed.

Lemma split_app_sep (sep : ascii) (f rest : string) :
  lacks sep f → split sep (f +:+ String sep rest) = f :: split sep rest.
Proof.
  induction f as [|c f IH]; simpl.
  - intros _. by rewrite Ascii.eqb_refl.
  - intros [Hc Hf]%lacks_cons. rewrite IH by done.
    by destruct (Ascii.eqb_spec c sep).
Qed.

Lemma split_lacks (sep : ascii) (f : string) :
  lacks sep f → split sep f = [f].
Proof.
  induction f as [|c f IH]; simpl; [done|].
  intros [Hc Hf]%lacks_cons. rewrite IH by done.
  by destruct (Ascii.eqb_spec c sep).
Qed.

Lemma split_join (sep : ascii) (fields : list string) :
  fields ≠ [] → Forall (lacks sep) fields →
  split sep (join (String sep EmptyString) fields) = fields.
Proof.
  intros Hne Hall. induction Hall as [|f fields Hf Hfields IH]; [done|].
  destruct fields as [|g fields].
  - simpl. by apply split_lacks.
  - change (join (String sep "") (f :: g :: fields))
      with (f +:+ String sep (join (String sep "") (g :: fields))).
    rewrite split_app_sep by done. by rewrite IH.
Qed.

Lemma join_chars (P : ascii → bool) (sep : string) (fields : list string) :
  all_chars P sep = true → Forall (λ f, all_chars P f = true) fields →
  all_chars P (join sep fields) = true.
Proof.
  intros Hsep Hall. induction Hall as [|f fields Hf Hfields IH]; [done|].
  destruct fields as [|g fields]; [done|].
  change (join sep (f :: g :: fields))
    with (f +:+ sep +:+ join sep (g :: fields)).
  by rewrite !all_chars_app, Hf, Hsep, IH.
Qed.

(** ** Stripping *)

Lemma lstrip_chars (P : ascii → bool) (s : string) :
  all_chars P s = true → all_chars P (lstrip s) = true.
Proof.
  induction s as [|c s IH]; simpl; [done|].
  rewrite andb_true_iff. intros [Hc Hs].
  destruct (isspace c); [auto|]. simpl. by rewrite Hc, Hs.
Qed.

Lemma rstrip_chars (P : ascii → bool) (s : string) :
  all_chars P s = true → all_chars P (rstrip s) = true.
Proof.
  induction s as [|c s IH]; simpl; [done|].
  rewrite andb_true_iff. intros [Hc Hs]. specialize (IH Hs).
  destruct (rstrip s) as [|d t].
  - destruct (isspace c); [done|]. simpl. by rewrite Hc.
  - simpl in *. by rewrite Hc, IH.
Qed.

Lemma strip_chars (P : ascii → bool) (s : string) :
  all_chars P s = true → all_chars P (strip s) = true.
Proof. intros Hs. by apply rstrip_chars, lstrip_chars. Qed.

Lemma rstrip_app_space (s : string) (c : ascii) :
  isspace c = true → rstrip (s +:+ String c EmptyString) = rstrip s.
Proof.
  intros Hc. induction s as [|d s IH]; simpl.
  - by rewrite Hc.
  - by rewrite IH.
Qed.

Lemma lstrip_app_space (s : string) (c : ascii) :
  isspace c = true →
  lstrip (s +:+ String c EmptyString) = lstrip s
  ∨ lstrip (s +:+ String c EmptyString) = lstrip s +:+ String c EmptyString.
Proof.
  intros Hc. induction s as [|d s IH]; simpl.
  - rewrite Hc. by left.
  - destruct (isspace d); [done|]. by right.
Qed.

(** The newline that ends a line is removed by [strip]. *)
Lemma strip_newline (body : string) :
  strip (body +:+ String newline EmptyString) = strip body.
Proof.
  unfold strip.
  destruct (lstrip_app_space body newline eq_refl) as [-> | ->]; [done|].
  by apply rstrip_app_space.
Qed.

(** ** Lines *)

(** A line as the reading loop sees it: a text without newline, followed
    by a newline except possibly at the end of the file. *)
Definition is_line (line : string) : Prop :=
  ∃ body, lacks newline body ∧
          (line = body ∨ line = body +:+ String newline EmptyString).

Lemma readlines_lines (text : string) : Forall is_line (readlines text).
Proof.
  induction text as [|c text IH]; simpl; [constructor|].
  destruct (Ascii.eqb_spec c newline) as [->|Hne].
  - constructor; [|done]. exists EmptyString. split; [done|]. by right.
  - destruct (readlines text) as [|line lines].
    + repeat constructor. exists (String c EmptyString).
      split; [by apply lacks_cons|]. by left.
    + apply Forall_cons in IH as [(body & Hbody & Hline) Hlines].
      constructor; [|done]. exists (String c body).
      split; [by apply lacks_cons|]. destruct Hline as [-> | ->]; auto.
Qed.

Lemma readlines_app_line (line rest : string) :
  lacks newline line →
  readlines (line +:+ String newline rest)
  = (line +:+ String newline EmptyString) :: readlines rest.
Proof.
  induction line as [|c line IH]; simpl; [done|].
  intros [Hc Hline]%lacks_cons. rewrite IH by done.
  by destruct (Ascii.eqb_spec c newline).
Qed.

(** The text written by the final loop, and its lines. *)
Definition unlines (lines : list string) : string :=
  foldr (λ line rest, line +:+ String newline rest) EmptyString lines.

Lemma app_assoc_string (a b c : string) : (a +:+ b) +:+ c = a +:+ (b +:+ c).
Proof.
  induction a as [|x a IH]; [done|].
  change (String x ((a +:+ b) +:+ c) = String x (a +:+ (b +:+ c))).
  by f_equal.
Qed.

Lemma app_empty_r (a : string) : a +:+ EmptyString = a.
Proof.
  induction a as [|x a IH]; [done|].
  change (String x (a +:+ "") = String x a). by f_equal.
Qed.

Lemma write_loop (lines : list string) (written : string) :
  fold_left
    (λ written line, written +:+ (line +:+ String newline EmptyString))
    lines written
  = written +:+ unlines lines.
Proof.
  revert written. induction lines as [|line lines IH]; intros written; simpl.
  - by rewrite app_empty_r.
  - rewrite IH, !app_assoc_string. done.
Qed.

Lemma readlines_unlines (lines : list string) :
  Forall (lacks newline) lines →
  readlines (unlines lines)
  = (λ line, line +:+ String newline EmptyString) <$> lines.
Proof.
  induction 1 as [|line lines Hline _ IH]; simpl; [done|].
  by rewrite readlines_app_line, IH.
Qed.

(** A line without the newline that ends it. *)
Fixpoint chomp (line : string) : string :=
  match line with
  | EmptyString => EmptyString
  | String c rest =>
    match rest with
    | EmptyString => if Ascii.eqb c newline then EmptyString else line
    | String _ _ => String c (chomp rest)
    end
  end.

Lemma chomp_newline (body : string) :
  chomp (body +:+ String newline EmptyString) = body.
Proof.
  induction body as [|c body IH]; [done|].
  change (String c body +:+ String newline "")
    with (String c (body +:+ String newline "")).
  cbn [chomp]. rewrite IH. by destruct body.
Qed.

(** ** The reading loop *)

Definition tabs : string := String tab EmptyString.

(** The fields of a line as the loop reads them, and as they stand in the
    file. *)
Definition parse (line : string) : list string := split tab (strip line).
Definition fields_of (line : string) : list string := split tab (chomp line).

(** The name of a record: the fourth field, when there are four. *)
Definition name_of (line : string) : option string :=
  if 4 <=? length (parse line) then parse line !! 3 else None.

(** How many of the [earlier] records carry the name. *)
Definition occurrences (earlier : list string) (name : string) : nat :=
  length (filter (λ line, name_of line = Some name) earlier).

(** The name written for a record whose name occurred [k] times before. *)
Definition renamed (k : nat) (name : string) : string :=
  match k with
  | 0 => name
  | S _ => name +:+ "_dup" +:+ pretty k
  end.

Definition out_fields (earlier : list string) (line : string) : list string :=
  match name_of line with
  | Some name => <[3 := renamed (occurrences earlier name) name]> (parse line)
  | None => parse line
  end.

Fixpoint written (earlier lines : list string) : list string :=
  match lines with
  | [] => []
  | line :: lines =>
    join tabs (out_fields earlier line) :: written (earlier ++ [line]) lines
  end.

(** [name_counts] counts the records read so far, name by name. *)
Definition counts_ok (name_counts : gmap string nat) (earlier : list string) :
    Prop :=
  ∀ name, default 0 (name_counts !! name) = occurrences earlier name.

Lemma occurrences_snoc (earlier : list string) (line name : string) :
  occurrences (earlier ++ [line]) name
  = occurrences earlier name + (if decide (name_of line = Some name) then 1 else 0).
Proof.
  unfold occurrences. rewrite filter_app, length_app. f_equal.
  rewrite filter_cons, filter_nil. by case_decide.
Qed.

Lemma process_line_spec (name_counts : gmap string nat)
    (lines earlier : list string) (line : string) :
  counts_ok name_counts earlier →
  ∃ name_counts',
    process_line (name_counts, lines) line
    = (name_counts', lines ++ [join tabs (out_fields earlier line)]) ∧
    counts_ok name_counts' (earlier ++ [line]).
Proof.
  intros Hok. unfold process_line, out_fields, name_of.
  fold (parse line). fold tabs.
  destruct (4 <=? length (parse line)) eqn:Hlen.
  - apply Nat.leb_le in Hlen.
    destruct (lookup_lt_is_Some_2 (parse line) 3 ltac:(lia)) as [name Hname].
    rewrite Hname. simpl. rewrite (Hok name).
    eexists. split.
    + f_equal. f_equal. f_equal. f_equal.
      destruct (occurrences earlier name) as [|k] eqn:Hocc; simpl.
      * symmetry. by apply list_insert_id.
      * done.
    + intros n. rewrite occurrences_snoc. unfold name_of.
      rewrite (proj2 (Nat.leb_le _ _) Hlen), Hname.
      destruct (decide (name = n)) as [->|Hne].
      * rewrite lookup_insert_eq. simpl. rewrite decide_True by done. lia.
      * rewrite lookup_insert_ne by done. rewrite (Hok n).
        rewrite decide_False by congruence. lia.
  - eexists. split; [done|]. intros n. rewrite occurrences_snoc.
    unfold name_of. rewrite Hlen. rewrite decide_False by done.
    rewrite (Hok n). lia.
Qed.

Lemma read_loop (lines : list string) (name_counts : gmap string nat)
    (out earlier : list string) :
  counts_ok name_counts earlier →
  (fold_left process_line lines (name_counts, out)).2
  = out ++ written earlier lines.
Proof.
  revert name_counts out earlier.
  induction lines as [|line lines IH]; intros name_counts out earlier Hok.
  - simpl. by rewrite app_nil_r.
  - cbn [fold_left written].
    destruct (process_line_spec name_counts out earlier line Hok)
      as (name_counts' & -> & Hok').
    rewrite (IH _ _ _ Hok'), <- app_assoc. done.
Qed.

Lemma written_lookup (earlier lines : list string) (i : nat) (line : string) :
  lines !! i = Some line →
  written earlier lines !! i
  = Some (join tabs (out_fields (earlier ++ take i lines) line)).
Proof.
  revert earlier i. induction lines as [|l lines IH]; intros earlier i; [done|].
  destruct i as [|i]; simpl.
  - intros [= ->]. by rewrite app_nil_r.
  - intros Hi. rewrite (IH _ _ Hi), <- app_assoc. done.
Qed.

Lemma written_length (earlier lines : list string) :
  length (written earlier lines) = length lines.
Proof.
  revert earlier. induction lines as [|l lines IH]; intros earlier; simpl;
    [done|]. by rewrite IH.
Qed.

(** ** The fields that are written *)

Lemma parse_lacks_newline (line : string) :
  is_line line → Forall (lacks newline) (parse line).
Proof.
  intros (body & Hbody & Hline). unfold parse.
  assert (strip line = strip body) as ->.
  { destruct Hline as [-> | ->]; [done|]. apply strip_newline. }
  apply split_chars. by apply strip_chars.
Qed.

Lemma parse_lacks_tab (line : string) : Forall (lacks tab) (parse line).
Proof. apply split_lacks_sep. Qed.

Lemma renamed_lacks (c : ascii) (k : nat) (name : string) :
  is_digit c = false → lacks c "_dup" → lacks c name →
  lacks c (renamed k name).
Proof.
  intros Hc Hdup Hname. destruct k as [|k]; [done|]. simpl.
  apply lacks_app. split; [done|]. apply lacks_app. split; [done|].
  apply (all_chars_impl is_digit); [|apply pretty_nat_digits].
  intros d Hd. destruct (Ascii.eqb_spec d c) as [->|]; [congruence|done].
Qed.

Lemma out_fields_lacks (c : ascii) (earlier : list string) (line : string) :
  is_digit c = false → lacks c "_dup" →
  Forall (lacks c) (parse line) → Forall (lacks c) (out_fields earlier line).
Proof.
  intros Hc Hdup Hall. unfold out_fields, name_of.
  destruct (4 <=? length (parse line)); [|done].
  destruct (parse line !! 3) as [name|] eqn:Hname; [|done].
  apply Forall_insert; [done|]. apply renamed_lacks; [done..|].
  rewrite Forall_forall in Hall. apply Hall.
  by apply list_elem_of_lookup_2 in Hname.
Qed.

Lemma out_fields_length (earlier : list string) (line : string) :
  length (out_fields earlier line) = length (parse line).
Proof.
  unfold out_fields. destruct (name_of line); [|done]. apply length_insert.
Qed.

Lemma out_fields_other (earlier : list string) (line : string) (j : nat) :
  j ≠ 3 → out_fields earlier line !! j = parse line !! j.
Proof.
  intros Hj. unfold out_fields. destruct (name_of line); [|done].
  by apply list_lookup_insert_ne.
Qed.

Lemma out_fields_short (earlier : list string) (line : string) :
  length (parse line) < 4 → out_fields earlier line = parse line.
Proof.
  intros Hlen. unfold out_fields, name_of.
  destruct (Nat.leb_spec 4 (length (parse line))); [lia|done].
Qed.

Lemma out_fields_name (earlier : list string) (line name : string) :
  name_of line = Some name →
  out_fields earlier line !! 3 = Some (renamed (occurrences earlier name) name).
Proof.
  intros Hname. unfold out_fields. rewrite Hname.
  apply list_lookup_insert_eq. unfold name_of in Hname.
  destruct (Nat.leb_spec 4 (length (parse line))); [lia|done].
Qed.

Lemma written_lacks_newline (earlier lines : list string) :
  Forall is_line lines → Forall (lacks newline) (written earlier lines).
Proof.
  intros Hlines. revert earlier.
  induction Hlines as [|line lines Hline _ IH]; intros earlier; simpl;
    constructor; [|done].
  apply join_chars; [done|].
  apply (out_fields_lacks newline); [done..|]. by apply parse_lacks_newline.
Qed.

(** The lines of the output: one per input line, each the tab-join of the
    fields written for it, followed by a newline. *)
Lemma make_names_unique_lines (bed_file : string) :
  readlines (make_names_unique bed_file)
  = (λ line, line +:+ String newline EmptyString)
    <$> written [] (readlines bed_file).
Proof.
  unfold make_names_unique.
  pose proof (read_loop (readlines bed_file) ∅ [] []) as Hloop.
  destruct (fold_left process_line (readlines bed_file) (∅, []))
    as [name_counts lines].
  simpl in Hloop. rewrite Hloop; [|done].
  rewrite write_loop. change ("" +:+ ?s) with s.
  apply readlines_unlines, written_lacks_newline, readlines_lines.
Qed.

Lemma output_line (bed_file : string) (i : nat) (line : string) :
  readlines bed_file !! i = Some line →
  let fields := out_fields (take i (readlines bed_file)) line in
  readlines (make_names_unique bed_file) !! i
  = Some (join tabs fields +:+ String newline EmptyString)
  ∧ lacks newline (join tabs fields)
  ∧ fields_of (join tabs fields +:+ String newline EmptyString) = fields.
Proof.
  intros Hi fields. rewrite make_names_unique_lines, list_lookup_fmap.
  rewrite (written_lookup _ _ _ _ Hi). simpl. split; [done|].
  assert (Hline : is_line line).
  { pose proof (readlines_lines bed_file) as Hall.
    rewrite Forall_forall in Hall. apply Hall.
    by apply list_elem_of_lookup_2 in Hi. }
  split.
  - apply join_chars; [done|]. apply (out_fields_lacks newline); [done..|].
    by apply parse_lacks_newline.
  - unfold fields_of. rewrite chomp_newline. apply split_join.
    + intros Hnil. pose proof (out_fields_length (take i (readlines bed_file)) line)
        as Hlen. fold fields in Hlen. rewrite Hnil in Hlen.
      symmetry in Hlen. apply length_zero_iff_nil in Hlen.
      by apply split_nonempty in Hlen.
    + apply (out_fields_lacks tab); [done..|]. apply parse_lacks_tab.
Qed.

(** ** The properties of the tool *)

(** A file of records, one list of fields per line. *)
Definition bed_text (records : list (list string)) : string :=
  unlines (join tabs <$> records).

Definition example_bed : string :=
  bed_text [["chr1"; "0"; "10"; "a"]; ["chr1"; "10"; "20"; "b"];
            ["chr1"; "20"; "30"; "a"]; ["chr1"; "30"; "40"; "a"]].

(** Two records whose names differ by a trailing space, the name being
    the last field of its line. *)
Definition spaced_bed : string :=
  bed_text [["chr1"; "0"; "10"; "a"]; ["chr1"; "10"; "20"; "a "]].

(** C9, as stated, fails: the names a and "a " are two different names,
    each occurring once, yet the second record is written as a_dup1. *)
Lemma trailing_space_name_renamed :
  omap (λ line, fields_of line !! 3) (readlines spaced_bed) = ["a"; "a "] ∧
  omap (λ line, fields_of line !! 3) (readlines (make_names_unique spaced_bed))
  = ["a"; "a_dup1"].
Proof. split; by vm_compute. Qed.

(** C9, amended. For every input, taking as the name of a record the
    fourth tab-separated field of its line after the leading and trailing
    whitespace of the line is stripped: the record on line [i] whose name
    occurred [k] times on the lines before it is written with that name
    when [k = 0] (a first occurrence) and with [_dup{k}] appended
    otherwise (the second occurrence gets [_dup1], the third [_dup2], and
    so on); the names a, b, a, a are written as a, b, a_dup1, a_dup2. *)
Theorem duplicate_names_numbered :
  (∀ (bed_file : string) (i : nat) (line name : string),
     readlines bed_file !! i = Some line →
     name_of line = Some name →
     ∃ out_line,
       readlines (make_names_unique bed_file) !! i = Some out_line ∧
       fields_of out_line !! 3
       = Some (renamed (occurrences (take i (readlines bed_file)) name) name)) ∧
  (∀ name, renamed 0 name = name) ∧
  (∀ name k, renamed (S k) name = name +:+ "_dup" +:+ pretty (S k)) ∧
  (∀ name, renamed 1 name = name +:+ "_dup1") ∧
  (∀ name, renamed 2 name = name +:+ "_dup2") ∧
  omap name_of (readlines example_bed) = ["a"; "b"; "a"; "a"] ∧
  omap (λ line, fields_of line !! 3) (readlines (make_names_unique example_bed))
  = ["a"; "b"; "a_dup1"; "a_dup2"].
Proof.
  split; [|repeat split; by vm_compute].
  intros bed_file i line name Hi Hname.
  destruct (output_line bed_file i line Hi) as (Hout & _ & Hfields).
  eexists. split; [exact Hout|]. rewrite Hfields. by apply out_fields_name.
Qed.

Lemma duplicate_names_numbered_witness :
  ∃ out_line,
    readlines (make_names_unique example_bed) !! 3 = Some out_line ∧
    fields_of out_line !! 3
    = Some (renamed (occurrences (take 3 (readlines example_bed)) "a") "a").
Proof.
  apply (proj1 duplicate_names_numbered example_bed 3
           (join tabs ["chr1"; "30"; "40"; "a"] +:+ String newline "")).
  - by vm_compute.
  - by vm_compute.
Defined.

(** A file with a trailing empty field on its first line and a leading
    space on its second. *)
Definition ragged_bed : string :=
  bed_text [["chr1"; "100"; "200"; "gene"; ""]; [" chrX"; "5"]].

(** C10, as stated, fails: the fifth field of the first line is not
    written, and the first field of the second line, which has fewer than
    four fields, is written without its leading space. *)
Lemma ragged_fields_not_preserved :
  fields_of <$> readlines ragged_bed
  = [["chr1"; "100"; "200"; "gene"; ""]; [" chrX"; "5"]] ∧
  fields_of <$> readlines (make_names_unique ragged_bed)
  = [["chr1"; "100"; "200"; "gene"]; ["chrX"; "5"]].
Proof. split; by vm_compute. Qed.

(** C10, amended. [make_names_unique] writes exactly one line per input
    line, in the input order; the fields of each written line are the
    tab-separated fields of the input line after its leading and trailing
    whitespace is stripped, with every field other than the fourth
    unchanged; a stripped line with fewer than four fields is written with
    all its fields unchanged. *)
Theorem lines_and_other_fields_preserved (bed_file : string) :
  length (readlines (make_names_unique bed_file))
  = length (readlines bed_file) ∧
  ∀ (i : nat) (line : string),
    readlines bed_file !! i = Some line →
    ∃ body,
      readlines (make_names_unique bed_file) !! i
      = Some (body +:+ String newline EmptyString) ∧
      lacks newline body ∧
      let written_fields := fields_of (body +:+ String newline EmptyString) in
      length written_fields = length (parse line) ∧
      (∀ j, j ≠ 3 → written_fields !! j = parse line !! j) ∧
      (length (parse line) < 4 → written_fields = parse line).
Proof.
  split.
  - by rewrite make_names_unique_lines, length_fmap, written_length.
  - intros i line Hi.
    destruct (output_line bed_file i line Hi) as (Hout & Hbody & Hfields).
    eexists. split; [exact Hout|]. split; [exact Hbody|]. cbv zeta.
    rewrite Hfields. split; [apply out_fields_length|].
    split; [apply out_fields_other|apply out_fields_short].
Qed.

Lemma lines_and_other_fields_preserved_witness :
  length (readlines (make_names_unique ragged_bed))
  = length (readlines ragged_bed).
Proof. apply (proj1 (lines_and_other_fields_preserved ragged_bed)). Defined.

End DedupFacts.

(** * Further properties of the analyzer *)
Module AnalyzerExtra.
Import Analyzer.

(** ** Windows *)

(** X1. The window scores are never empty, whatever the window size: the
    reported [max_window] is always one of the window means, and the
    [np.nan] fallback of [_analyze_score_array] is never taken. *)
Theorem max_window_is_a_window_mean `{np : NumPy} (self : ConservationAnalyzer)
    (scores : list float) (prefix : string) :
  scores ≠ [] →
  length (_get_window_scores self scores)
  = (if (Z.of_nat (length scores) <? window_size self)%Z then 1
     else Z.to_nat (Z.of_nat (length scores) - window_size self + 1)) ∧
  ∃ best,
    Py.max (_get_window_scores self scores) = Some best ∧
    best ∈ _get_window_scores self scores ∧
    _analyze_score_array self (Some scores) prefix !! (prefix +:+ "_max_window")
    = Some (VFloat best).
Proof.
  intros Hne.
  assert (Hlen : length (_get_window_scores self scores)
    = (if (Z.of_nat (length scores) <? window_size self)%Z then 1
       else Z.to_nat (Z.of_nat (length scores) - window_size self + 1))).
  { unfold _get_window_scores. cbv zeta.
    destruct (Z.ltb_spec (Z.of_nat (length scores)) (window_size self));
      [done|].
    rewrite WindowFacts.window_loop_map. simpl.
    rewrite length_map. unfold Py.range. by rewrite length_seqZ. }
  split; [done|].
  destruct (Py.max (_get_window_scores self scores)) as [best|] eqn:Hbest.
  - exists best. split; [done|]. split; [by apply WindowFacts.max_elem|].
    rewrite WindowFacts.max_window_lookup by done. by rewrite Hbest.
  - exfalso. destruct (_get_window_scores self scores); [|done].
    simpl in Hlen.
    destruct (Z.ltb_spec (Z.of_nat (length scores)) (window_size self)); lia.
Qed.

Lemma max_window_is_a_window_mean_witness :
  ∃ best,
    Py.max (_get_window_scores (np := numpy_ref) {| window_size := 2 |}
              [1; 2; 3; 4]%float) = Some best ∧
    best ∈ _get_window_scores (np := numpy_ref) {| window_size := 2 |}
             [1; 2; 3; 4]%float ∧
    _analyze_score_array (np := numpy_ref) {| window_size := 2 |}
      (Some [1; 2; 3; 4]%float) "phylop" !! ("phylop" +:+ "_max_window")
    = Some (VFloat best).
Proof.
  apply (max_window_is_a_window_mean (np := numpy_ref) {| window_size := 2 |}
           [1; 2; 3; 4]%float "phylop").
  discriminate.
Defined.

(** X2. For a window size [w] with [0 ≤ w ≤ L], when no window has a NaN mean,
    the reported [max_window] is the maximum of the nan-aware means of the
    [L - w + 1] windows [scores[i:i+w]]: it is one of them and none is
    greater. *)
Theorem max_window_maximum_when_no_nan `{np : NumPy}
    (self : ConservationAnalyzer) (scores : list float) (w : nat)
    (prefix : string) :
  window_size self = Z.of_nat w → w ≤ length scores → scores ≠ [] →
  Forall (λ x, PrimFloat.is_nan x = false)
    (map (λ i, nanmean (take w (drop i scores)))
       (seq 0 (length scores - w + 1))) →
  ∃ best,
    _analyze_score_array self (Some scores) prefix !! (prefix +:+ "_max_window")
    = Some (VFloat best) ∧
    (∃ i, i ≤ length scores - w ∧ best = nanmean (take w (drop i scores))) ∧
    ∀ i, i ≤ length scores - w →
         (nanmean (take w (drop i scores)) <=? best)%float = true.
Proof.
  intros Hw Hlen Hne Hnan.
  destruct (WindowFacts.max_window_without_nan self scores w prefix
              Hw Hlen Hne Hnan) as (best & Hlookup & Hin & Hmax).
  exists best. split; [done|]. split.
  - apply list_elem_of_In, in_map_iff in Hin as (i & <- & Hi).
    apply in_seq in Hi. exists i. split; [lia|done].
  - intros i Hi. apply Hmax. apply list_elem_of_In, in_map_iff.
    exists i. split; [done|]. apply in_seq. lia.
Qed.

Lemma max_window_maximum_when_no_nan_witness :
  ∃ best,
    _analyze_score_array (np := numpy_ref) {| window_size := 2 |}
      (Some [1; 2; 3; 4]%float) "phylop" !! ("phylop" +:+ "_max_window")
    = Some (VFloat best) ∧
    (∃ i, i ≤ length [1; 2; 3; 4]%float - 2 ∧
          best = ref_nanmean (take 2 (drop i [1; 2; 3; 4]%float))) ∧
    ∀ i, i ≤ length [1; 2; 3; 4]%float - 2 →
         (ref_nanmean (take 2 (drop i [1; 2; 3; 4]%float)) <=? best)%float
         = true.
Proof.
  apply (max_window_maximum_when_no_nan (np := numpy_ref)
           {| window_size := 2 |} [1; 2; 3; 4]%float 2 "phylop").
  - reflexivity.
  - simpl. lia.
  - discriminate.
  - repeat constructor.
Defined.

(** ** The entries of one array *)

(** The array [0.0, 1.0, ..., n - 1]. *)
Definition seq_floats (n : nat) : list float :=
  (λ i, Py.of_Z (Z.of_nat i)) <$> seq 0 n.

Lemma slice_prefix {A} (l : list A) (n : nat) :
  Py.slice l 0 (Z.of_nat n) = take n l.
Proof.
  unfold Py.slice, Py.slice_bound.
  destruct (Z.ltb_spec 0 0); [lia|].
  destruct (Z.ltb_spec (Z.of_nat n) 0); [lia|].
  rewrite (Z.min_l 0) by lia. change (Z.to_nat 0) with 0. rewrite drop_0.
  destruct (decide (n ≤ length l)) as [Hle|Hgt].
  - rewrite Z.min_l by lia. f_equal. lia.
  - rewrite Z.min_r by lia. rewrite !take_ge by lia. done.
Qed.

Section entries.
Context `{np : NumPy}.
Variable self : ConservationAnalyzer.

Lemma mean_lookup (scores : list float) (prefix : string) :
  scores ≠ [] →
  _analyze_score_array self (Some scores) prefix !! (prefix +:+ "_mean")
  = Some (VFloat (nanmean scores)).
Proof.
  intros Hne. unfold _analyze_score_array.
  case_decide as Hnil; [by destruct scores|]. cbv zeta.
  repeat (rewrite lookup_insert_ne
            by (intros Heq; by apply (inj (String.app prefix)) in Heq)).
  by rewrite lookup_insert_eq.
Qed.

Lemma start_lookup (scores : list float) (prefix : string) :
  scores ≠ [] →
  _analyze_score_array self (Some scores) prefix !! (prefix +:+ "_start")
  = Some (VFloat (nanmean (take 15 scores))).
Proof.
  intros Hne. unfold _analyze_score_array.
  case_decide as Hnil; [by destruct scores|]. cbv zeta.
  repeat (rewrite lookup_insert_ne
            by (intros Heq; by apply (inj (String.app prefix)) in Heq)).
  rewrite lookup_insert_eq.
  change (Py.slice scores 0 15) with (Py.slice scores 0 (Z.of_nat 15)).
  by rewrite slice_prefix.
Qed.

End entries.

(** X3. An array shorter than the window has one window, the array itself: its
    [max_window] entry equals its [mean] entry. *)
Theorem short_array_max_window_equals_mean `{np : NumPy}
    (self : ConservationAnalyzer) (scores : list float) (prefix : string) :
  scores ≠ [] → (Z.of_nat (length scores) < window_size self)%Z →
  _analyze_score_array self (Some scores) prefix !! (prefix +:+ "_max_window")
  = _analyze_score_array self (Some scores) prefix !! (prefix +:+ "_mean").
Proof.
  intros Hne Hshort.
  by rewrite WindowFacts.max_window_short, mean_lookup.
Qed.

Lemma short_array_max_window_equals_mean_witness :
  _analyze_score_array (np := numpy_ref) default_analyzer
    (Some [1; nan; 4]%float) "phylop" !! ("phylop" +:+ "_max_window")
  = _analyze_score_array (np := numpy_ref) default_analyzer
      (Some [1; nan; 4]%float) "phylop" !! ("phylop" +:+ "_mean").
Proof.
  apply (short_array_max_window_equals_mean (np := numpy_ref)).
  - discriminate.
  - simpl. lia.
Defined.

(** X4. The [start] entry is the nan-aware mean of the first 15 values, and of
    the whole array when it has at most 15: then it equals the [mean]
    entry. *)
Theorem start_is_mean_of_first_15 `{np : NumPy} (self : ConservationAnalyzer)
    (scores : list float) (prefix : string) :
  scores ≠ [] →
  _analyze_score_array self (Some scores) prefix !! (prefix +:+ "_start")
  = Some (VFloat (nanmean (take 15 scores))) ∧
  (length scores ≤ 15 →
   _analyze_score_array self (Some scores) prefix !! (prefix +:+ "_start")
   = _analyze_score_array self (Some scores) prefix !! (prefix +:+ "_mean")).
Proof.
  intros Hne. split; [by apply start_lookup|].
  intros Hlen. rewrite start_lookup, mean_lookup by done.
  by rewrite take_ge.
Qed.

Lemma start_is_mean_of_first_15_witness :
  _analyze_score_array (np := numpy_ref) default_analyzer
    (Some (seq_floats 10)) "phylop" !! ("phylop" +:+ "_start")
  = _analyze_score_array (np := numpy_ref) default_analyzer
      (Some (seq_floats 10)) "phylop" !! ("phylop" +:+ "_mean").
Proof.
  apply (start_is_mean_of_first_15 (np := numpy_ref)).
  - discriminate.
  - simpl. lia.
Defined.

(** ** The longest positive run *)

(** X5. The longest positive run is at most the length of the array, and
    equals it exactly when every value is non-missing and positive. *)
Theorem longest_run_at_most_length (scores : list float) :
  _get_longest_positive_run scores ≤ length scores ∧
  (_get_longest_positive_run scores = length scores ↔
   Forall RunFacts.strictly_positive scores).
Proof.
  rewrite RunFacts.longest_run_fold.
  destruct (Runs.scan_inv_fold positive_score scores)
    as [_ _ _ _ [i [Hi Hrun]] Hbound].
  split; [lia|]. split.
  - intros Heq. apply Forall_lookup. intros k x Hk.
    pose proof (lookup_lt_Some _ _ _ Hk) as Hlt.
    destruct (Hrun k ltac:(lia)) as (y & Hy & HP).
    replace (i + k) with k in Hy by lia.
    apply RunFacts.positive_score_spec. congruence.
  - intros Hall. apply Nat.le_antisymm; [lia|].
    apply (Hbound 0). split; [lia|]. intros k Hk.
    destruct (lookup_lt_is_Some_2 scores k Hk) as [x Hx].
    exists x. split; [done|]. apply RunFacts.positive_score_spec.
    by apply (Forall_lookup_1 _ _ _ _ Hall Hx).
Qed.

Lemma scan_max_component (l : list float) (c m : nat) :
  (fold_left run_step l (c, m)).2
  = Nat.max m (fold_left run_step l (c, 0)).2 ∧
  (fold_left run_step l (c, m)).1 = (fold_left run_step l (c, 0)).1.
Proof.
  revert c m. induction l as [|x l IH]; intros c m; simpl.
  - split; [lia|done].
  - destruct (positive_score x); simpl.
    + destruct (IH (S c) (Nat.max m (S c))) as [-> ->].
      destruct (IH (S c) (S c)) as [-> ->]. split; [lia|done].
    + apply IH.
Qed.

Lemma scan_mono (l : list float) (c c' : nat) :
  c ≤ c' →
  (fold_left run_step l (c, 0)).2 ≤ (fold_left run_step l (c', 0)).2.
Proof.
  revert c c'. induction l as [|x l IH]; intros c c' Hle; simpl; [done|].
  destruct (positive_score x); simpl; [|done].
  destruct (scan_max_component l (S c) (S c)) as [-> _].
  destruct (scan_max_component l (S c') (S c')) as [-> _].
  specialize (IH (S c) (S c') ltac:(lia)). lia.
Qed.

(** X6. Appending values never shortens the longest run: the result on a
    concatenation is at least the result on each part. *)
Theorem longest_run_of_concatenation (a b : list float) :
  _get_longest_positive_run a ≤ _get_longest_positive_run (a ++ b) ∧
  _get_longest_positive_run b ≤ _get_longest_positive_run (a ++ b).
Proof.
  unfold _get_longest_positive_run. rewrite fold_left_app.
  destruct (fold_left run_step a (0, 0)) as [c m] eqn:Ha. simpl.
  destruct (scan_max_component b c m) as [-> _].
  pose proof (scan_mono b 0 c ltac:(lia)). lia.
Qed.

(** X7. A missing value, or a value [≤ 0], splits the array: the longest run is
    the longer of the longest runs on its two sides. *)
Theorem longest_run_split_at_break (a b : list float) (x : float) :
  PrimFloat.is_nan x = true ∨ (x <=? 0)%float = true →
  _get_longest_positive_run (a ++ x :: b)
  = Nat.max (_get_longest_positive_run a) (_get_longest_positive_run b).
Proof.
  intros Hbreak. apply RunFacts.positive_score_false in Hbreak.
  unfold _get_longest_positive_run. rewrite fold_left_app. simpl.
  destruct (fold_left run_step a (0, 0)) as [c m]. simpl.
  rewrite Hbreak. by destruct (scan_max_component b 0 m) as [-> _].
Qed.

Lemma longest_run_split_at_break_witness :
  _get_longest_positive_run ([1; 2]%float ++ nan :: [3; 4; 5]%float)
  = Nat.max (_get_longest_positive_run [1; 2]%float)
      (_get_longest_positive_run [3; 4; 5]%float).
Proof. apply longest_run_split_at_break. by left. Defined.

End AnalyzerExtra.

(** * Further properties of the metric set *)
Module MetricExtra.
Import Analyzer MetricFacts.

(** The arrays of a bundle that yield metrics: the non-empty ones. *)
Definition nonempty_arrays (frames : list (Z * list float))
    (base : option (list float)) : nat :=
  length (List.filter (λ fs, negb (Nat.eqb (length fs.2) 0)) frames)
  + match base with
    | Some (_ :: _) => 1
    | _ => 0
    end.

Lemma metric_size `{np : NumPy} (self : ConservationAnalyzer)
    (frames : list (Z * list float)) (base : option (list float)) :
  NoDup frames.*1 →
  size (calculate_metrics self frames base) = 7 * nonempty_arrays frames base.
Proof.
  intros Hnodup. rewrite <- size_dom, calculate_metrics_dom.
  rewrite size_union by apply frame_keys_base_disjoint.
  rewrite frame_keys_size by done. unfold nonempty_arrays, base_keys.
  destruct base as [[|x scores]|]; cbn [from_option]; cbv beta iota.
  - replace (metric_keys "phylop" []) with (∅ : gset string) by done.
    rewrite size_empty. lia.
  - rewrite metric_keys_size by done. lia.
  - rewrite size_empty. lia.
Qed.

(** X8. A metric set has seven keys for each non-empty array of the bundle and
    no other key, whatever the frame numbers are. *)
Theorem metric_count_is_seven_per_array `{np : NumPy}
    (self : ConservationAnalyzer) (frames : list (Z * list float))
    (base : option (list float)) :
  NoDup frames.*1 →
  size (calculate_metrics self frames base) = 7 * nonempty_arrays frames base.
Proof. apply metric_size. Qed.

Lemma metric_count_is_seven_per_array_witness :
  size (calculate_metrics (np := numpy_ref) default_analyzer
          [(2%Z, [1; nan]%float); (7%Z, []); (1%Z, [3]%float)] None)
  = 7 * nonempty_arrays
          [(2%Z, [1; nan]%float); (7%Z, []); (1%Z, [3]%float)] None.
Proof.
  apply (metric_count_is_seven_per_array (np := numpy_ref)).
  apply (bool_decide_unpack _). by vm_compute.
Defined.

Lemma other_frame_keys_disjoint (frames : list (Z * list float)) (f : Z)
    (scores : list float) :
  f ∉ frames.*1 → metric_keys (frame_prefix f) scores ## frame_keys frames.
Proof.
  intros Hf key Hk Hfr.
  apply metric_keys_elem in Hk as (_ & rest & ->).
  apply frame_keys_elem in Hfr as (g & t & rest' & Hin & _ & Heq).
  apply frame_key_inj in Heq as [-> _].
  apply Hf. apply list_elem_of_fmap. by exists (g, t).
Qed.

Section merge.
Context `{np : NumPy}.
Variable self : ConservationAnalyzer.

(** The loop over the frames keeps every entry whose key no later frame
    writes. *)
Lemma frames_loop_keeps (frames : list (Z * list float))
    (metrics kept : gmap string value) :
  kept ⊆ metrics → dom kept ## frame_keys frames →
  kept ⊆ fold_left
           (λ metrics '(frame, scores),
              Py.update metrics
                (_analyze_score_array self (Some scores) (frame_prefix frame)))
           frames metrics.
Proof.
  revert metrics. induction frames as [|[f s] frames IH]; intros metrics;
    [done|].
  intros Hsub Hdisj. cbn [fold_left]. apply IH.
  - apply map_subseteq_spec. intros key v Hkey. unfold Py.update.
    rewrite lookup_union_r.
    + by apply (proj1 (map_subseteq_spec _ _) Hsub).
    + apply not_elem_of_dom. rewrite analyze_dom. intros Hin.
      apply (Hdisj key); [by apply elem_of_dom_2 in Hkey|].
      unfold frame_keys. rewrite fmap_cons. cbn [union_list fst snd].
      apply elem_of_union. by left.
  - intros key Hk Hfr. apply (Hdisj key Hk).
    unfold frame_keys. rewrite fmap_cons. cbn [union_list].
    apply elem_of_union. by right.
Qed.

Lemma frames_loop_has (frames : list (Z * list float))
    (metrics : gmap string value) (f : Z) (scores : list float) :
  NoDup frames.*1 → (f, scores) ∈ frames →
  _analyze_score_array self (Some scores) (frame_prefix f)
  ⊆ fold_left
      (λ metrics '(frame, scores),
         Py.update metrics
           (_analyze_score_array self (Some scores) (frame_prefix frame)))
      frames metrics.
Proof.
  revert metrics. induction frames as [|[g t] frames IH]; intros metrics.
  - intros _ Hin. by apply elem_of_nil in Hin.
  - rewrite fmap_cons, NoDup_cons. cbn [fst]. intros [Hg Hnodup] Hin.
    cbn [fold_left]. apply elem_of_cons in Hin as [[= -> ->]|Hin].
    + apply frames_loop_keeps.
      * unfold Py.update. apply map_union_subseteq_l.
      * rewrite analyze_dom. by apply other_frame_keys_disjoint.
    + by apply IH.
Qed.

End merge.

(** X9. Merging loses nothing: with distinct frame numbers, every entry of the
    metrics of each frame's array, and of the base-level array, is in the
    merged set with the same value. *)
Theorem merged_metrics_keep_each_array `{np : NumPy}
    (self : ConservationAnalyzer) (frames : list (Z * list float))
    (base : option (list float)) :
  NoDup frames.*1 →
  (∀ f scores, (f, scores) ∈ frames →
     _analyze_score_array self (Some scores) (frame_prefix f)
     ⊆ calculate_metrics self frames base) ∧
  _analyze_score_array self base "phylop" ⊆ calculate_metrics self frames base.
Proof.
  intros Hnodup. split.
  - intros f scores Hin.
    pose proof (frames_loop_has self frames ∅ f scores Hnodup Hin) as Hloop.
    unfold calculate_metrics. destruct base as [b|]; [|done].
    apply map_subseteq_spec. intros key v Hkey. unfold Py.update.
    rewrite lookup_union_r.
    + by apply (proj1 (map_subseteq_spec _ _) Hloop).
    + apply not_elem_of_dom. rewrite analyze_dom. intros Hb.
      apply metric_keys_elem in Hb as (_ & rest & ->).
      apply elem_of_dom_2 in Hkey. rewrite analyze_dom in Hkey.
      apply metric_keys_elem in Hkey as (_ & rest' & Heq).
      symmetry in Heq. by apply frame_key_not_phylop in Heq.
  - unfold calculate_metrics. destruct base as [b|].
    + unfold Py.update. apply map_union_subseteq_l.
    + apply map_empty_subseteq.
Qed.

Lemma merged_metrics_keep_each_array_witness :
  _analyze_score_array (np := numpy_ref) default_analyzer
    (Some [1; nan]%float) (frame_prefix 2)
  ⊆ calculate_metrics (np := numpy_ref) default_analyzer
      [(2%Z, [1; nan]%float); (1%Z, [3]%float)] (Some [0.5]%float).
Proof.
  apply (merged_metrics_keep_each_array (np := numpy_ref) default_analyzer
           [(2%Z, [1; nan]%float); (1%Z, [3]%float)] (Some [0.5]%float)).
  - apply (bool_decide_unpack _). by vm_compute.
  - apply list_elem_of_here.
Defined.

End MetricExtra.

(** * Further properties of the score fetcher *)
Module TrackerExtra.
Import Tracker TrackerFacts.

(** ** What one lookup prints *)

(** A call on the track raises during the lookup of [name]: the catalog
    query, or, for a declared name, the length query, the comparison of
    the end with a length that is [None], or, for a valid span, the
    retrieval. *)
Definition raises (bw : BigWig) (name : string) (start end_ : Z) : Prop :=
  (∃ e, chroms bw = Py.Raise e) ∨
  ∃ catalog, chroms bw = Py.Return catalog ∧ name ∈ dom catalog ∧
    ((∃ e, chroms_of bw name = Py.Raise e) ∨
     (chroms_of bw name = Py.Return None ∧ (0 ≤ start)%Z) ∨
     (∃ len e, chroms_of bw name = Py.Return (Some len) ∧
               (0 ≤ start)%Z ∧ (end_ ≤ len)%Z ∧
               values bw name start end_ = Py.Raise e)).

Lemma body_Raise_iff (bw : BigWig) (name : string) (start end_ : Z) :
  (∃ e, _get_scores_body bw name start end_ = Py.Raise e) ↔
  raises bw name start end_.
Proof.
  unfold _get_scores_body, out_of_bounds, raises. split.
  - intros [e He]. destruct (chroms bw) as [catalog|e0]; [|eauto].
    right. exists catalog. simpl in He. split; [done|].
    case_bool_decide as Hin; [done|].
    split; [done|].
    destruct (chroms_of bw name) as [[len|]|e1]; simpl in He; [| |eauto].
    + right. right. destruct (Z.ltb_spec start 0); simpl in He; [done|].
      destruct (Z.ltb_spec len end_); simpl in He; [done|].
      destruct (values bw name start end_) as [v|e2]; simpl in He; [done|].
      exists len, e2. repeat split; auto; lia.
    + right. left. destruct (Z.ltb_spec start 0); simpl in He; [done|].
      split; [done|lia].
  - intros [[e He]|(catalog & Hc & Hin & Hcase)].
    + rewrite He. eauto.
    + rewrite Hc. simpl. rewrite bool_decide_eq_false_2 by auto.
      destruct Hcase as [[e He]|[[Hnone Hstart]|(len & e & Hl & Hs & He & Hv)]].
      * rewrite He. eauto.
      * rewrite Hnone. simpl. destruct (Z.ltb_spec start 0); [lia|].
        simpl. eauto.
      * rewrite Hl. simpl. destruct (Z.ltb_spec start 0); [lia|]. simpl.
        destruct (Z.ltb_spec len end_); [lia|]. simpl. rewrite Hv. eauto.
Qed.

(** X10. [_get_scores] prints at most one line.  It prints one, naming the
    normalized chromosome and the span, exactly when a call on the track
    raises; a name that is not declared or a span out of bounds gives
    [None] silently, and a successful lookup prints nothing. *)
Theorem get_scores_prints_only_on_fault (bw : BigWig) (chrom : string)
    (start end_ : Z) :
  let name := normalize_chrom chrom in
  let run := _get_scores bw chrom start end_ in
  (raises bw name start end_ ↔ ∃ line, Py.stdout run = [line]) ∧
  (¬ raises bw name start end_ ↔ Py.stdout run = []) ∧
  (∀ e, _get_scores_body bw name start end_ = Py.Raise e →
        run = Py.IO [error_message name start end_ e] (Py.Return None)) ∧
  (∀ scores, Py.outcome run = Py.Return (Some scores) → Py.stdout run = []).
Proof.
  cbv zeta. rewrite <- body_Raise_iff.
  unfold _get_scores, Py.try_except, Py.call. cbv zeta.
  destruct (_get_scores_body bw (normalize_chrom chrom) start end_)
    as [r|e]; simpl.
  - split; [|split; [|split]].
    + split; [by intros [e He]|by intros [line Hline]].
    + split; [done|]. by intros _ [e He].
    + done.
    + done.
  - split; [|split; [|split]].
    + split; eauto.
    + split; [|done]. intros Hno. destruct Hno. eauto.
    + by intros e' [= ->].
    + done.
Qed.

(** ** The bundle of a region *)

(** X11. [get_conservation_scores] returns, for every tracker and region, a
    frame dictionary whose keys are some of 1, 2, 3 in that order, without
    repetition; a frame is a key, with an array, exactly when a track is
    loaded for the strand and the frame and the lookup on it returns that
    array; the base-level value is the lookup on the PhyloP track, whatever
    the strand. *)
Theorem frame_dictionary_of_region (self : ConservationTracker)
    (chrom : string) (start end_ : Z) (strand : string) :
  ∃ frames base,
    Py.outcome (get_conservation_scores self chrom start end_ strand)
    = Py.Return (frames, base) ∧
    frames.*1 `sublist_of` [1; 2; 3]%Z ∧
    NoDup frames.*1 ∧
    (∀ frame scores,
       (frame, scores) ∈ frames ↔
       frame ∈ [1; 2; 3]%Z ∧
       ∃ track,
         phylocsf_tracks self !! (strand +:+ pretty frame) = Some track ∧
         Py.outcome (_get_scores track chrom start end_)
         = Py.Return (Some scores)) ∧
    Py.outcome (_get_scores (phylop_track self) chrom start end_)
    = Py.Return base ∧
    ∀ strand',
      ∃ frames',
        Py.outcome (get_conservation_scores self chrom start end_ strand')
        = Py.Return (frames', base).
Proof.
  eexists _, _. split; [apply fetch_value|].
  pose proof (entries_sublist self chrom start end_ strand [1; 2; 3]%Z)
    as Hsub.
  split; [done|]. split; [|split; [|split]].
  - apply (sublist_NoDup _ _) in Hsub; [done|].
    repeat constructor; rewrite ?elem_of_cons, ?elem_of_nil; lia.
  - intros frame scores. rewrite list_elem_of_omap. split.
    + intros (f & Hf & Hentry).
      apply frame_entry_Some in Hentry as [-> Htrack]. done.
    + intros [Hf Htrack]. exists frame. split; [done|].
      apply frame_entry_Some. done.
  - destruct (get_scores_value (phylop_track self) chrom start end_)
      as [out ->]. done.
  - intros strand'. eexists. apply fetch_value.
Qed.

End TrackerExtra.

(** * Properties of the track loader *)
Module LoaderExtra.
Import Tracker Loader.

(** The frames and strands in the order the two loops visit them. *)
Definition wanted : list (Z * string) :=
  [(1, "+"); (1, "-"); (2, "+"); (2, "-"); (3, "+"); (3, "-")]%Z.

(** [f"{strand}{frame}"]. *)
Definition track_key (item : Z * string) : string :=
  item.2 +:+ pretty item.1.

Lemma wanted_spec (frame : Z) (strand : string) :
  (frame, strand) ∈ wanted ↔ frame ∈ [1; 2; 3]%Z ∧ strand ∈ ["+"; "-"].
Proof.
  unfold wanted. rewrite !elem_of_cons, !elem_of_nil. split.
  - intros [H|[H|[H|[H|[H|[H|[]]]]]]]; injection H as -> ->; tauto.
  - intros [[->|[->|[->|[]]]] [->|[->|[]]]]; tauto.
Qed.

Lemma wanted_keys_NoDup : NoDup (track_key <$> wanted).
Proof.
  apply (bool_decide_unpack _). by vm_compute.
Qed.

(** A strand followed by one digit is a key of the loops only for the two
    strands of the loops. *)
Lemma app_digit_inj (s t : string) (c d : ascii) :
  s +:+ String c "" = t +:+ String d "" → s = t ∧ c = d.
Proof.
  revert t. induction s as [|a s IH]; intros [|b t].
  - by intros [= ->].
  - change (String c "" = String b (t +:+ String d "") → "" = String b t ∧ c = d).
    intros [= _ Heq]. by destruct t.
  - change (String a (s +:+ String c "") = String d ""
            → String a s = "" ∧ c = d).
    intros [= _ Heq]. by destruct s.
  - change (String a (s +:+ String c "") = String b (t +:+ String d "")
            → String a s = String b t ∧ c = d).
    intros [= -> Heq]. by destruct (IH _ Heq) as [-> ->].
Qed.

Lemma frame_digit (frame : Z) :
  frame ∈ [1; 2; 3]%Z → ∃ c, pretty frame = String c "".
Proof.
  rewrite !elem_of_cons, elem_of_nil.
  intros [->|[->|[->|[]]]]; by eexists.
Qed.

Lemma track_key_inj (frame frame' : Z) (strand strand' : string) :
  frame ∈ [1; 2; 3]%Z → frame' ∈ [1; 2; 3]%Z →
  strand +:+ pretty frame = strand' +:+ pretty frame' →
  strand = strand' ∧ frame = frame'.
Proof.
  rewrite !elem_of_cons, !elem_of_nil.
  intros [->|[->|[->|[]]]] [->|[->|[->|[]]]] Heq;
    apply (app_digit_inj strand strand' _ _) in Heq as [-> [=]]; done.
Qed.

Section loader.
Context {Path : Type}.
Variable joinpath : Path → string → Path.
Variable exists_ : Path → bool.
Variable bigwig_open : Path → Py.result BigWig.
Variable phylocsf_type : string.
Variable phylocsf_dir : Path.

(** [phylocsf_dir / filename] for a frame and a strand. *)
Definition track_path (item : Z * string) : Path :=
  joinpath phylocsf_dir (track_filename phylocsf_type item.2 item.1).

Definition load_item (item : Z * string) (tracks : gmap string BigWig) :
    Py.result (gmap string BigWig) :=
  load_track joinpath exists_ bigwig_open phylocsf_type phylocsf_dir
    item.1 item.2 tracks.


(** The two nested loops are one loop over [wanted]. *)
Lemma load_flat :
  _load_phylocsf_tracks joinpath exists_ bigwig_open phylocsf_type
    phylocsf_dir
  = for_in wanted load_item ∅.
Proof.
  unfold _load_phylocsf_tracks, wanted. cbn [for_in].
  change (load_track joinpath exists_ bigwig_open phylocsf_type phylocsf_dir)
    with (λ frame strand, load_item (frame, strand)).
  cbv beta.
  destruct (load_item (1%Z, "+") ∅) as [t1|]; [|done];
    cbn [mbind Py.result_bind mret Py.result_ret].
  destruct (load_item (1%Z, "-") t1) as [t2|]; [|done];
    cbn [mbind Py.result_bind mret Py.result_ret].
  destruct (load_item (2%Z, "+") t2) as [t3|]; [|done];
    cbn [mbind Py.result_bind mret Py.result_ret].
  destruct (load_item (2%Z, "-") t3) as [t4|]; [|done];
    cbn [mbind Py.result_bind mret Py.result_ret].
  destruct (load_item (3%Z, "+") t4) as [t5|]; [|done];
    cbn [mbind Py.result_bind mret Py.result_ret].
  by destruct (load_item (3%Z, "-") t5) as [t6|].
Qed.

Lemma load_item_cases (item : Z * string) (tracks : gmap string BigWig) :
  load_item item tracks
  = if exists_ (track_path item) then
      match bigwig_open (track_path item) with
      | Py.Return track => Py.Return (<[track_key item := track]> tracks)
      | Py.Raise e => Py.Raise e
      end
    else Py.Return tracks.
Proof.
  unfold load_item, load_track, track_path, track_key. cbv zeta.
  destruct (exists_ _); [|done]. by destruct (bigwig_open _).
Qed.



(** What the loop leaves under each key. *)
Lemma for_in_lookup (items : list (Z * string))
    (init tracks : gmap string BigWig) :
  NoDup (track_key <$> items) →
  for_in items load_item init = Py.Return tracks →
  (∀ key, key ∉ track_key <$> items → tracks !! key = init !! key) ∧
  (∀ item, item ∈ items →
     if exists_ (track_path item) then
       ∃ track, bigwig_open (track_path item) = Py.Return track ∧
                tracks !! track_key item = Some track
     else tracks !! track_key item = init !! track_key item).
Proof.
  revert init. induction items as [|item items IH]; intros init Hnodup Hrun.
  - injection Hrun as <-. split; [done|].
    intros item Hin. by apply elem_of_nil in Hin.
  - cbn [fmap list_fmap] in Hnodup.
    apply NoDup_cons in Hnodup as [Hfresh Hnodup].
    cbn [for_in] in Hrun. rewrite load_item_cases in Hrun.
    assert (∃ mid, for_in items load_item mid = Py.Return tracks ∧
              (∀ key, key ≠ track_key item → mid !! key = init !! key) ∧
              if exists_ (track_path item) then
                ∃ track, bigwig_open (track_path item) = Py.Return track ∧
                         mid !! track_key item = Some track
              else mid = init) as (mid & Hrest & Hother & Hitem).
    { destruct (exists_ (track_path item)).
      - destruct (bigwig_open (track_path item)) as [track|]; [|done].
        cbn [mbind Py.result_bind] in Hrun.
        eexists. split; [exact Hrun|]. split.
        + intros key Hne. by rewrite lookup_insert_ne.
        + exists track. by rewrite lookup_insert_eq.
      - cbn [mbind Py.result_bind] in Hrun. by exists init. }
    destruct (IH mid Hnodup Hrest) as [Hout Hin]. split.
    + intros key Hkey. cbn [fmap list_fmap] in Hkey.
      apply not_elem_of_cons in Hkey as [Hne Hkey].
      rewrite (Hout key Hkey). by apply Hother.
    + intros item' Hitem'. apply elem_of_cons in Hitem' as [->|Hitem'].
      * rewrite (Hout _ Hfresh).
        destruct (exists_ (track_path item)); [done|by subst mid].
      * assert (track_key item' ≠ track_key item) as Hne.
        { intros Heq. apply Hfresh. rewrite <- Heq.
          apply list_elem_of_fmap. by exists item'. }
        specialize (Hin item' Hitem').
        destruct (exists_ (track_path item')); [done|].
        rewrite Hin. by apply Hother.
Qed.

Lemma loaded_key (tracks : gmap string BigWig) (key : string) :
  for_in wanted load_item ∅ = Py.Return tracks →
  key ∈ dom tracks →
  ∃ item, item ∈ wanted ∧ key = track_key item ∧
          exists_ (track_path item) = true.
Proof.
  intros Hrun Hkey.
  destruct (for_in_lookup wanted ∅ tracks wanted_keys_NoDup Hrun)
    as [Hout Hin].
  destruct (decide (key ∈ track_key <$> wanted)) as [Hk|Hk].
  - apply list_elem_of_fmap in Hk as (item & -> & Hitem).
    exists item. split; [done|]. split; [done|].
    specialize (Hin item Hitem).
    destruct (exists_ (track_path item)); [done|].
    apply elem_of_dom in Hkey as [track Htrack].
    by rewrite Hin, lookup_empty in Htrack.
  - apply elem_of_dom in Hkey as [track Htrack].
    by rewrite (Hout key Hk), lookup_empty in Htrack.
Qed.

(** X12. After [_load_phylocsf_tracks] has returned, each of the six keys
    holds the opened file when its file exists and is absent when it does
    not; the dictionary has no other key, so at most six. *)
Theorem loaded_tracks_match_files (tracks : gmap string BigWig) :
  _load_phylocsf_tracks joinpath exists_ bigwig_open phylocsf_type
    phylocsf_dir = Py.Return tracks →
  (∀ frame strand,
     frame ∈ [1; 2; 3]%Z → strand ∈ ["+"; "-"] →
     let filepath :=
       joinpath phylocsf_dir (track_filename phylocsf_type strand frame) in
     if exists_ filepath then
       ∃ track, bigwig_open filepath = Py.Return track ∧
                tracks !! (strand +:+ pretty frame) = Some track
     else tracks !! (strand +:+ pretty frame) = None) ∧
  (∀ key, key ∈ dom tracks →
     ∃ frame strand,
       frame ∈ [1; 2; 3]%Z ∧ strand ∈ ["+"; "-"] ∧
       key = strand +:+ pretty frame ∧
       exists_ (joinpath phylocsf_dir
                  (track_filename phylocsf_type strand frame)) = true) ∧
  size tracks ≤ 6.
Proof.
  rewrite load_flat. intros Hrun.
  destruct (for_in_lookup wanted ∅ tracks wanted_keys_NoDup Hrun)
    as [Hout Hin].
  split; [|split].
  - intros frame strand Hframe Hstrand. cbv zeta.
    specialize (Hin (frame, strand)
                  (proj2 (wanted_spec frame strand) (conj Hframe Hstrand))).
    unfold track_path, track_key in Hin. cbn [fst snd] in Hin.
    destruct (exists_ _); [done|]. by rewrite Hin, lookup_empty.
  - intros key Hkey.
    destruct (loaded_key tracks key Hrun Hkey)
      as ([frame strand] & Hitem & -> & Hex).
    apply wanted_spec in Hitem as [Hframe Hstrand].
    by exists frame, strand.
  - assert (dom tracks ⊆ list_to_set (track_key <$> wanted)) as Hsub.
    { intros key Hkey.
      destruct (loaded_key tracks key Hrun Hkey) as (item & Hitem & -> & _).
      apply elem_of_list_to_set, list_elem_of_fmap. by exists item. }
    apply subseteq_size in Hsub. rewrite size_dom in Hsub.
    rewrite size_list_to_set in Hsub by apply wanted_keys_NoDup.
    exact Hsub.
Qed.



(** X15. A tracker made by the constructor yields a frame only from a file
    that exists: a frame of the result is one whose file, for the strand
    asked, was found when the tracker was made, and a strand other than
    ['+'] and ['-'] yields no frame at all. *)
Theorem frames_need_existing_files (phylop_path : Path)
    (self : ConservationTracker) (chrom : string) (start end_ : Z)
    (strand : string) (frames : frame_scores) (base : option (list float)) :
  __init__ joinpath exists_ bigwig_open phylocsf_dir phylop_path
    phylocsf_type = Py.Return self →
  Py.outcome (get_conservation_scores self chrom start end_ strand)
  = Py.Return (frames, base) →
  (∀ frame scores,
     (frame, scores) ∈ frames →
     strand ∈ ["+"; "-"] ∧
     exists_ (joinpath phylocsf_dir
                (track_filename phylocsf_type strand frame)) = true) ∧
  (strand ∉ ["+"; "-"] → frames = []).
Proof.
  intros Hmake Hfetch.
  assert (for_in wanted load_item ∅ = Py.Return (phylocsf_tracks self))
    as Hrun.
  { rewrite <- load_flat. unfold __init__ in Hmake.
    destruct (_load_phylocsf_tracks _ _ _ _ _) as [tracks|]; [|done].
    cbn [mbind Py.result_bind] in Hmake.
    destruct (_load_phylop_track _ _) as [track|]; [|done].
    by injection Hmake as <-. }
  assert (frames = omap (TrackerFacts.frame_entry self chrom start end_
                           strand) [1; 2; 3]%Z) as ->.
  { rewrite TrackerFacts.fetch_value in Hfetch. congruence. }
  assert (∀ frame scores,
            (frame, scores)
              ∈ omap (TrackerFacts.frame_entry self chrom start end_ strand)
                  [1; 2; 3]%Z →
            strand ∈ ["+"; "-"] ∧
            exists_ (joinpath phylocsf_dir
                       (track_filename phylocsf_type strand frame)) = true)
    as Hframes.
  { intros frame scores Hin.
    apply list_elem_of_omap in Hin as (f & Hf & Hentry).
    apply TrackerFacts.frame_entry_Some in Hentry as [-> (track & Htrack & _)].
    destruct (loaded_key (phylocsf_tracks self) (strand +:+ pretty f) Hrun)
      as ([frame' strand'] & Hitem & Hkey & Hex).
    { apply elem_of_dom. eauto. }
    apply wanted_spec in Hitem as [Hframe' Hstrand'].
    apply track_key_inj in Hkey as [-> ->]; done. }
  split; [exact Hframes|].
  intros Hstrand.
  destruct (omap _ [1; 2; 3]%Z) as [|[frame scores] rest]; [done|].
  destruct (Hframes frame scores) as [Hin _]; [apply list_elem_of_here|].
  done.
Qed.

End loader.
(** A directory with two of the six PhyloCSF files. *)
Definition example_join (dir name : string) : string :=
  dir +:+ "/" +:+ name.
Definition example_files : list string :=
  ["tracks/PhyloCSFRaw_plus1.bw"; "tracks/PhyloCSFRaw_minus2.bw";
   "tracks/phyloP.bw"].
Definition example_exists (path : string) : bool :=
  bool_decide (path ∈ example_files).
Definition example_open (path : string) : Py.result BigWig :=
  if example_exists path then Py.Return TrackerFacts.sound_track
  else Py.Raise (Py.Exception "[pyBigWig] Unable to open file").
Definition example_tracks : gmap string BigWig :=
  {[ "+1" := TrackerFacts.sound_track; "-2" := TrackerFacts.sound_track ]}.
Definition example_loaded : ConservationTracker := {|
  Tracker.phylocsf_type := "Raw";
  phylocsf_tracks := example_tracks;
  phylop_track := TrackerFacts.sound_track
|}.

Lemma example_load :
  _load_phylocsf_tracks example_join example_exists example_open "Raw"
    "tracks" = Py.Return example_tracks.
Proof. by vm_compute. Qed.

Lemma loaded_tracks_match_files_witness :
  (∀ frame strand,
     frame ∈ [1; 2; 3]%Z → strand ∈ ["+"; "-"] →
     let filepath :=
       example_join "tracks" (track_filename "Raw" strand frame) in
     if example_exists filepath then
       ∃ track, example_open filepath = Py.Return track ∧
                example_tracks !! (strand +:+ pretty frame) = Some track
     else example_tracks !! (strand +:+ pretty frame) = None) ∧
  (∀ key, key ∈ dom example_tracks →
     ∃ frame strand,
       frame ∈ [1; 2; 3]%Z ∧ strand ∈ ["+"; "-"] ∧
       key = strand +:+ pretty frame ∧
       example_exists (example_join "tracks"
                         (track_filename "Raw" strand frame)) = true) ∧
  size example_tracks ≤ 6.
Proof.
  apply (loaded_tracks_match_files example_join example_exists example_open
           "Raw" "tracks" example_tracks).
  by vm_compute.
Defined.

Lemma frames_need_existing_files_witness :
  (∀ frame scores,
     (frame, scores) ∈ [(1%Z, [1; 1]%float)] →
     "+" ∈ ["+"; "-"] ∧
     example_exists (example_join "tracks"
                       (track_filename "Raw" "+" frame)) = true) ∧
  ("+" ∉ ["+"; "-"] → [(1%Z, [1; 1]%float)] = []).
Proof.
  apply (frames_need_existing_files example_join example_exists example_open
           "Raw" "tracks" "tracks/phyloP.bw" example_loaded "1" 10 12 "+"
           [(1%Z, [1; 1]%float)] (Some [1; 1]%float)).
  - by vm_compute.
  - by vm_compute.
Defined.

End LoaderExtra.
(** * Further properties of the scored write *)
Module BedExtra.
Import Bed BedFacts.

(** ** A raising element stops [mapM] *)

Lemma mapM_Raise {A B} (f : A → Py.result B) (l : list A) (e : Py.exn) :
  mapM f l = Py.Raise e → ∃ x, x ∈ l ∧ f x = Py.Raise e.
Proof.
  induction l as [|a l IH]; simpl; [done|].
  destruct (f a) as [y|e'] eqn:Hfa; simpl.
  - destruct (mapM f l) as [k|e'']; simpl; [done|].
    intros [= ->]. destruct (IH eq_refl) as (x & Hx & Hfx).
    exists x. split; [by apply list_elem_of_further|done].
  - intros [= ->]. exists a. split; [apply list_elem_of_here|done].
Qed.

Lemma mapM_raises {A B} (f : A → Py.result B) (l : list A) (x : A)
    (e : Py.exn) :
  x ∈ l → f x = Py.Raise e → ∃ e', mapM f l = Py.Raise e'.
Proof.
  intros Hx Hfx. induction l as [|a l IH]; [by apply elem_of_nil in Hx|].
  simpl. destruct (f a) as [y|e'] eqn:Hfa; simpl; [|eauto].
  apply elem_of_cons in Hx as [->|Hx]; [congruence|].
  destruct (IH Hx) as [e' ->]. simpl. eauto.
Qed.

(** ** The score expression on NaN and on the minimum *)

Definition cast_failure : Py.exn :=
  Py.Exception "conversion from `f64` to `i64` failed".

Lemma score_expr_Raise (lo hi scale_factor x : float) (e : Py.exn) :
  score_expr lo hi scale_factor x = Py.Raise e → e = cast_failure.
Proof.
  unfold score_expr, floor_cast.
  destruct (Py.floor_Z _) as [n|]; simpl.
  - case_match; simpl; [done|]. by intros [= <-].
  - by intros [= <-].
Qed.

Lemma score_expr_nan (lo hi scale_factor x : float) :
  PrimFloat.is_nan x = true →
  score_expr lo hi scale_factor x = Py.Raise cast_failure.
Proof.
  intros Hx.
  destruct (score_expr lo hi scale_factor x) as [score|e] eqn:Hexpr.
  - apply score_expr_Return in Hexpr as (n & _ & _ & Hnan). congruence.
  - by rewrite (score_expr_Raise _ _ _ _ _ Hexpr).
Qed.

(** The value equal to the minimum is normalized to 0 whenever its
    expression has a value at all. *)
Lemma score_expr_min (lo hi scale_factor : float) (score : Z) :
  score_expr lo hi scale_factor lo = Py.Return score → score = 0%Z.
Proof.
  intros Hexpr. apply score_expr_Return in Hexpr as (n & Hfloor & -> & _).
  assert (n = 0%Z) as ->; [|done].
  unfold Py.floor_Z in Hfloor. rewrite !mul_spec in Hfloor.
  destruct (FloatArith.sub_self lo) as [Hsub|[s Hsub]]; rewrite Hsub in Hfloor.
  - done.
  - destruct (Prim2SF (1 / (hi - lo))) as [s'|s'| |s' m e]; simpl in Hfloor;
      try done;
      destruct (Prim2SF scale_factor) as [s''|s''| |s'' m' e'];
      simpl in Hfloor; congruence.
Qed.

(** Every score of a written frame is a number. *)
Lemma written_scores_not_nan (lo hi scale_factor : float)
    (scores : list float) (normalized : list Z) :
  mapM (score_expr lo hi scale_factor) scores = Py.Return normalized →
  Forall (λ x, PrimFloat.is_nan x = false) scores.
Proof.
  intros Hn. apply mapM_Return in Hn.
  apply Forall_forall. intros x Hx.
  apply list_elem_of_lookup in Hx as [i Hi].
  destruct (Forall2_lookup_l _ _ _ _ _ Hn Hi) as (y & _ & Hy).
  by apply score_expr_Return in Hy as (n & _ & _ & Hx).
Qed.

(** ** Properties of [write_scored_bed] *)

(** X16. A NaN anywhere in the score column makes the write raise, whatever
    the other scores and the scale factor: the row's expression is NaN and
    the strict cast to [Int64] fails. *)
Theorem nan_score_write_raises (df : list row) (score_col : string)
    (scale_factor : float) (scores : list float) :
  col df score_col = Py.Return scores →
  Exists (λ x, PrimFloat.is_nan x = true) scores →
  write_scored_bed df score_col scale_factor = Py.Raise cast_failure.
Proof.
  intros Hcol Hnan. apply Exists_exists in Hnan as (x & Hx & Hnan).
  unfold write_scored_bed. rewrite Hcol. simpl.
  destruct scores as [|y scores]; [by apply elem_of_nil in Hx|].
  cbn [col_min col_max].
  destruct (mapM_raises
              (score_expr (fold_left min_step scores y)
                 (fold_left max_step scores y) scale_factor)
              (y :: scores) x cast_failure Hx) as [e He].
  { by apply score_expr_nan. }
  rewrite He. simpl. f_equal.
  apply mapM_Raise in He as (z & _ & Hz).
  by apply score_expr_Raise in Hz.
Qed.

Lemma nan_score_write_raises_witness :
  write_scored_bed (example_row <$> [10; nan; 30]%float)
    default_score_col default_scale_factor
  = Py.Raise cast_failure.
Proof.
  apply (nan_score_write_raises _ _ _ [10; nan; 30]%float).
  - by vm_compute.
  - apply Exists_cons_tl, Exists_cons_hd. reflexivity.
Defined.

(** X17. In every frame that is written, each row that holds the minimum of
    the score column gets the score 0, whatever the scale factor; a
    written frame that is not empty has such a row. *)
Theorem minimum_row_scores_zero (df : list row) (score_col : string)
    (scale_factor : float) (out : list (list (string * cell)))
    (scores : list float) (lo : float) :
  write_scored_bed df score_col scale_factor = Py.Return out →
  col df score_col = Py.Return scores →
  col_min scores = Some lo →
  (∀ i r, df !! i = Some r → float_columns r !! score_col = Some lo →
          out !! i = Some (select r 0)) ∧
  ∃ i r, df !! i = Some r ∧ float_columns r !! score_col = Some lo ∧
         out !! i = Some (select r 0).
Proof.
  unfold write_scored_bed. intros Hwrite Hcol Hlo.
  rewrite Hcol in Hwrite. simpl in Hwrite. rewrite Hlo in Hwrite.
  destruct (col_max scores) as [hi|] eqn:Hhi; [|by destruct scores].
  destruct (mapM (score_expr lo hi scale_factor) scores) as [normalized|]
    eqn:Hn; simpl in Hwrite; [|done].
  injection Hwrite as <-.
  pose proof (written_scores_not_nan _ _ _ _ _ Hn) as Hnan.
  apply mapM_Return in Hn. apply col_Return in Hcol.
  assert (∀ i r, df !! i = Some r → float_columns r !! score_col = Some lo →
                 zip_with select df normalized !! i = Some (select r 0))
    as Hrows.
  { intros i r Hi Hr.
    destruct (Forall2_lookup_l _ _ _ _ _ Hcol Hi) as (x & Hx & Hrx).
    destruct (Forall2_lookup_l _ _ _ _ _ Hn Hx) as (score & Hscore & Hexpr).
    assert (x = lo) as -> by congruence.
    apply score_expr_min in Hexpr as ->.
    rewrite lookup_zip_with, Hi. simpl. by rewrite Hscore. }
  split; [exact Hrows|].
  destruct (col_min_spec scores lo Hnan Hlo) as [Hin _].
  apply list_elem_of_lookup in Hin as [i Hi].
  destruct (Forall2_lookup_r _ _ _ _ _ Hcol Hi) as (r & Hr & Hrx).
  exists i, r. auto.
Qed.

Lemma minimum_row_scores_zero_witness :
  (∀ i r, (example_row <$> [20; 10; 30]%float) !! i = Some r →
          float_columns r !! default_score_col = Some 10%float →
          [select (example_row 20) 500; select (example_row 10) 0;
           select (example_row 30) 1000] !! i = Some (select r 0)) ∧
  ∃ i r, (example_row <$> [20; 10; 30]%float) !! i = Some r ∧
         float_columns r !! default_score_col = Some 10%float ∧
         [select (example_row 20) 500; select (example_row 10) 0;
          select (example_row 30) 1000] !! i = Some (select r 0).
Proof.
  apply (minimum_row_scores_zero (example_row <$> [20; 10; 30]%float)
           default_score_col default_scale_factor _ [20; 10; 30]%float).
  - by vm_compute.
  - by vm_compute.
  - by vm_compute.
Defined.

(** X18. The bounds of the clip do not follow the scale factor: for every
    scale factor a written frame has one row per input row, with the five
    other columns of that row and a score between 0 and 1000. *)
Theorem scores_clipped_for_any_scale (df : list row) (score_col : string)
    (scale_factor : float) (out : list (list (string * cell))) :
  write_scored_bed df score_col scale_factor = Py.Return out →
  length out = length df ∧
  ∀ i r, df !! i = Some r →
    ∃ score,
      (0 ≤ score ≤ 1000)%Z ∧
      out !! i = Some
        [("chrom", Utf8 (chrom r)); ("chromStart", Int64 (chromStart r));
         ("chromEnd", Int64 (chromEnd r)); ("name", Utf8 (name r));
         ("score", Int64 score); ("strand", Utf8 (strand r))].
Proof.
  unfold write_scored_bed.
  destruct (col df score_col) as [scores|] eqn:Hcol; simpl; [|done].
  apply col_Return in Hcol. pose proof (Forall2_length _ _ _ Hcol) as Hlen.
  destruct (col_min scores) as [lo|] eqn:Hlo; cycle 1.
  { destruct scores; [|done]. destruct df; [|done]. intros [= <-].
    split; [done|]. intros i r Hi. done. }
  destruct (col_max scores) as [hi|] eqn:Hhi; [|by destruct scores].
  destruct (mapM (score_expr lo hi scale_factor) scores) as [normalized|]
    eqn:Hn; simpl; [|done].
  intros [= <-]. apply mapM_Return in Hn.
  pose proof (Forall2_length _ _ _ Hn) as Hlen'.
  split; [rewrite length_zip_with; lia|].
  intros i r Hi.
  destruct (Forall2_lookup_l _ _ _ _ _ Hcol Hi) as (x & Hx & Hrx).
  destruct (Forall2_lookup_l _ _ _ _ _ Hn Hx) as (score & Hscore & Hexpr).
  apply score_expr_Return in Hexpr as (n & _ & -> & _).
  exists (clip 0 1000 n). split; [apply clip_range|].
  rewrite lookup_zip_with, Hi. simpl. by rewrite Hscore.
Qed.

Lemma scores_clipped_for_any_scale_witness :
  length [select (example_row 10) 0; select (example_row 20) 1000;
          select (example_row 30) 1000]
  = length (example_row <$> [10; 20; 30]%float) ∧
  ∀ i r, (example_row <$> [10; 20; 30]%float) !! i = Some r →
    ∃ score,
      (0 ≤ score ≤ 1000)%Z ∧
      [select (example_row 10) 0; select (example_row 20) 1000;
       select (example_row 30) 1000] !! i = Some
        [("chrom", Utf8 (chrom r)); ("chromStart", Int64 (chromStart r));
         ("chromEnd", Int64 (chromEnd r)); ("name", Utf8 (name r));
         ("score", Int64 score); ("strand", Utf8 (strand r))].
Proof.
  apply (scores_clipped_for_any_scale (example_row <$> [10; 20; 30]%float)
           default_score_col 5000).
  by vm_compute.
Defined.

End BedExtra.
(** * Further properties of the name deduplicator *)
Module DedupExtra.
Import Dedup TextFacts DedupFacts.

(** ** Joining what was split *)

Lemma join_split (sep : ascii) (s : string) :
  join (String sep EmptyString) (split sep s) = s.
Proof.
  induction s as [|c s IH]; [done|]. cbn [split].
  pose proof (split_nonempty sep s) as Hne.
  destruct (Ascii.eqb_spec c sep) as [->|Hc].
  - destruct (split sep s) as [|f fs]; [done|].
    change (join (String sep "") ("" :: f :: fs))
      with (String sep (join (String sep "") (f :: fs))).
    by rewrite IH.
  - destruct (split sep s) as [|f fs]; [done|].
    destruct fs as [|g fs].
    + cbn [join] in *. by rewrite IH.
    + change (join (String sep "") (String c f :: g :: fs))
        with (String c (join (String sep "") (f :: g :: fs))).
      by rewrite IH.
Qed.

(** Two texts cut at the last occurrence of a separator agree part by
    part. *)
Lemma last_sep_inj (sep : ascii) (a b s t : string) :
  lacks sep s → lacks sep t →
  a +:+ String sep s = b +:+ String sep t → a = b ∧ s = t.
Proof.
  intros Hs Ht. revert b. induction a as [|c a IH]; intros [|d b].
  - by intros [= ->].
  - change (String sep s = String d (b +:+ String sep t)
            → "" = String d b ∧ s = t).
    intros [= <- ->]. apply lacks_app in Hs as [_ Hs].
    by apply lacks_cons in Hs as [? _].
  - change (String c (a +:+ String sep s) = String sep t
            → String c a = "" ∧ s = t).
    intros [= -> <-]. apply lacks_app in Ht as [_ Ht].
    by apply lacks_cons in Ht as [? _].
  - change (String c (a +:+ String sep s) = String d (b +:+ String sep t)
            → String c a = String d b ∧ s = t).
    intros [= -> Heq]. by destruct (IH _ Heq) as [-> ->].
Qed.

(** ** Generated names *)

(** The suffixed names determine the name and the number. *)
Lemma renamed_inj (k k' : nat) (name name' : string) :
  0 < k → 0 < k' → renamed k name = renamed k' name' →
  name = name' ∧ k = k'.
Proof.
  destruct k as [|k], k' as [|k']; [lia..|]. intros _ _. cbn [renamed].
  change (name +:+ String "_" ("dup" +:+ pretty (S k))
          = name' +:+ String "_" ("dup" +:+ pretty (S k'))
          → name = name' ∧ S k = S k').
  assert (∀ n : nat, lacks "_" ("dup" +:+ pretty n)) as Hlacks.
  { intros n. apply lacks_app. split; [done|].
    apply (all_chars_impl is_digit); [|apply pretty_nat_digits].
    intros c. unfold is_digit.
    destruct (Ascii.eqb_spec c "_") as [->|]; [done|]. done. }
  intros Heq. apply last_sep_inj in Heq as [-> Heq]; [|done..].
  split; [done|].
  change (String "d" (String "u" (String "p" (pretty (S k))))
          = String "d" (String "u" (String "p" (pretty (S k'))))) in Heq.
  injection Heq as Heq. by apply (inj pretty) in Heq.
Qed.

(** The names of the records of a file, and the names the tool can write
    for their duplicates. *)
Definition input_names (lines : list string) : list string :=
  omap name_of lines.
Definition generated_names (lines : list string) : list string :=
  base ← input_names lines;
  (λ k, renamed (S k) base) <$> seq 0 (length lines).

Lemma input_name_elem (lines : list string) (i : nat) (line name : string) :
  lines !! i = Some line → name_of line = Some name →
  name ∈ input_names lines.
Proof.
  intros Hi Hname. apply list_elem_of_omap. exists line.
  split; [|done]. by apply list_elem_of_lookup_2 in Hi.
Qed.

Lemma occurrences_bound (lines : list string) (i : nat) (name : string) :
  i ≤ length lines → occurrences (take i lines) name ≤ i.
Proof.
  intros Hi. unfold occurrences.
  etrans; [apply length_filter|]. rewrite length_take. lia.
Qed.

Lemma generated_name_elem (lines : list string) (i k : nat)
    (line name : string) :
  lines !! i = Some line → name_of line = Some name →
  S k = occurrences (take i lines) name →
  renamed (S k) name ∈ generated_names lines.
Proof.
  intros Hi Hname Hk. apply list_elem_of_bind. exists name. split.
  - apply list_elem_of_fmap. exists k. split; [done|].
    apply elem_of_seq. apply lookup_lt_Some in Hi.
    pose proof (occurrences_bound lines i name). lia.
  - by apply (input_name_elem lines i line).
Qed.

(** A later record has seen one more occurrence of an earlier record's
    name. *)
Lemma occurrences_lt (lines : list string) (i j : nat) (line name : string) :
  i < j → lines !! i = Some line → name_of line = Some name →
  occurrences (take i lines) name < occurrences (take j lines) name.
Proof.
  intros Hij Hi Hname.
  rewrite <- (take_drop_middle lines i line Hi) at 2.
  assert (length (take i lines) = i) as Hlen.
  { rewrite length_take. apply lookup_lt_Some in Hi. lia. }
  rewrite take_app, Hlen.
  rewrite (take_ge (take i lines)) by lia.
  replace (j - i) with (S (j - i - 1)) by lia. cbn [take].
  unfold occurrences. rewrite filter_app, length_app, filter_cons.
  rewrite decide_True by done. simpl. lia.
Qed.

(** The name written on line [i] of the output. *)
Lemma written_name (bed_file : string) (i : nat) (out_line name : string) :
  readlines (make_names_unique bed_file) !! i = Some out_line →
  fields_of out_line !! 3 = Some name →
  ∃ line original,
    readlines bed_file !! i = Some line ∧ name_of line = Some original ∧
    name = renamed (occurrences (take i (readlines bed_file)) original)
             original.
Proof.
  intros Hout Hname.
  assert (is_Some (readlines bed_file !! i)) as [line Hi].
  { apply lookup_lt_is_Some. apply lookup_lt_Some in Hout.
    rewrite make_names_unique_lines, length_fmap, written_length in Hout.
    done. }
  destruct (output_line bed_file i line Hi) as (Hout' & _ & Hfields).
  rewrite Hout in Hout'. injection Hout' as ->.
  rewrite Hfields in Hname.
  destruct (name_of line) as [original|] eqn:Horiginal.
  - exists line, original. split; [done|]. split; [done|].
    rewrite (out_fields_name _ _ _ Horiginal) in Hname. congruence.
  - unfold out_fields in Hname. rewrite Horiginal in Hname.
    unfold name_of in Horiginal.
    destruct (Nat.leb_spec 4 (length (parse line))) as [Hlen|Hlen].
    + congruence.
    + apply lookup_lt_Some in Hname. lia.
Qed.

Lemma written_names_differ (lines : list string) (i j : nat)
    (line line' name name' : string) :
  (∀ n, n ∈ input_names lines → n ∉ generated_names lines) →
  i < j →
  lines !! i = Some line → name_of line = Some name →
  lines !! j = Some line' → name_of line' = Some name' →
  renamed (occurrences (take i lines) name) name
  ≠ renamed (occurrences (take j lines) name') name'.
Proof.
  intros Hfresh Hij Hi Hname Hj Hname' Heq.
  pose proof (occurrences_lt lines i j line name Hij Hi Hname) as Hlt.
  destruct (occurrences (take i lines) name) as [|k] eqn:Hk;
    destruct (occurrences (take j lines) name') as [|k'] eqn:Hk'.
  - cbn [renamed] in Heq. subst name'. lia.
  - cbn [renamed] in Heq. apply (Hfresh name).
    + by apply (input_name_elem lines i line).
    + rewrite Heq. by apply (generated_name_elem lines j k' line').
  - cbn [renamed] in Heq. apply (Hfresh name').
    + by apply (input_name_elem lines j line').
    + rewrite <- Heq. by apply (generated_name_elem lines i k line).
  - apply renamed_inj in Heq as [<- Heq]; [|lia..]. lia.
Qed.

Lemma written_names_pairwise (bed_file : string) (i j : nat)
    (out_i out_j name : string) :
  (∀ n, n ∈ input_names (readlines bed_file) →
        n ∉ generated_names (readlines bed_file)) →
  readlines (make_names_unique bed_file) !! i = Some out_i →
  readlines (make_names_unique bed_file) !! j = Some out_j →
  fields_of out_i !! 3 = Some name →
  fields_of out_j !! 3 = Some name →
  i = j.
Proof.
  intros Hfresh Hi Hj Hni Hnj.
  destruct (written_name bed_file i out_i name Hi Hni)
    as (li & ni & Hli & Hnamei & Heqi).
  destruct (written_name bed_file j out_j name Hj Hnj)
    as (lj & nj & Hlj & Hnamej & Heqj).
  destruct (lt_eq_lt_dec i j) as [[Hlt|Heq]|Hlt]; [|done|].
  - exfalso.
    apply (written_names_differ _ i j li lj ni nj Hfresh Hlt Hli Hnamei Hlj
             Hnamej).
    congruence.
  - exfalso.
    apply (written_names_differ _ j i lj li nj ni Hfresh Hlt Hlj Hnamej Hli
             Hnamei).
    congruence.
Qed.

Lemma NoDup_omap {A B} (f : A → option B) (l : list A) :
  (∀ i j x y b, l !! i = Some x → l !! j = Some y →
                f x = Some b → f y = Some b → i = j) →
  NoDup (omap f l).
Proof.
  induction l as [|a l IH]; intros Hinj; [constructor|].
  assert (NoDup (omap f l)) as Hrest.
  { apply IH. intros i j x y b Hi Hj Hx Hy.
    apply (inj S). by apply (Hinj (S i) (S j) x y b). }
  cbn [omap list_omap]. destruct (f a) as [b|] eqn:Hfa; [|done].
  constructor; [|done]. intros Hin.
  apply list_elem_of_omap in Hin as (y & Hy & Hfy).
  apply list_elem_of_lookup in Hy as [j Hj].
  by specialize (Hinj 0 (S j) a y b eq_refl Hj Hfa Hfy).
Qed.

(** ** Properties of the tool *)

(** X19. When no name of the input is itself one of the names the tool can
    generate from the input (a name followed by [_dup] and a number up to
    the number of lines), the names written are pairwise distinct. *)
Theorem written_names_distinct (bed_file : string) :
  Forall (λ n, n ∉ generated_names (readlines bed_file))
    (input_names (readlines bed_file)) →
  NoDup (omap (λ line, fields_of line !! 3)
           (readlines (make_names_unique bed_file))).
Proof.
  rewrite Forall_forall. intros Hfresh. apply NoDup_omap.
  intros i j out_i out_j name. by apply written_names_pairwise.
Qed.

Lemma written_names_distinct_witness :
  NoDup (omap (λ line, fields_of line !! 3)
           (readlines (make_names_unique example_bed))).
Proof.
  apply (written_names_distinct example_bed).
  apply (bool_decide_unpack _). by vm_compute.
Defined.

(** Without that condition the written names can collide: the second
    record named a is written as the name of the third. *)
Example generated_name_collision :
  omap (λ line, fields_of line !! 3)
    (readlines (make_names_unique
       (bed_text [["chr1"; "0"; "10"; "a"]; ["chr1"; "10"; "20"; "a"];
                  ["chr1"; "20"; "30"; "a_dup1"]])))
  = ["a"; "a_dup1"; "a_dup1"].
Proof. by vm_compute. Qed.

Lemma make_names_unique_text (bed_file : string) :
  make_names_unique bed_file = unlines (written [] (readlines bed_file)).
Proof.
  unfold make_names_unique.
  pose proof (read_loop (readlines bed_file) ∅ [] []) as Hloop.
  destruct (fold_left process_line (readlines bed_file) (∅, []))
    as [name_counts lines].
  simpl in Hloop. rewrite Hloop; [|done].
  rewrite write_loop. done.
Qed.

Lemma written_fresh (earlier lines : list string) :
  NoDup (input_names (earlier ++ lines)) →
  written earlier lines = strip <$> lines.
Proof.
  revert earlier. induction lines as [|line lines IH]; intros earlier Hnodup;
    [done|].
  cbn [written fmap list_fmap]. f_equal.
  - rewrite <- (join_split tab (strip line)). f_equal.
    fold (parse line). unfold out_fields.
    destruct (name_of line) as [name|] eqn:Hname; [|done].
    assert (occurrences earlier name = 0) as ->.
    { unfold occurrences. apply length_zero_iff_nil.
      destruct (filter _ earlier) as [|l ls] eqn:Hfilter; [done|].
      assert (l ∈ filter (λ line, name_of line = Some name) earlier) as Hl.
      { rewrite Hfilter. apply list_elem_of_here. }
      apply list_elem_of_filter in Hl as [Hl Hin].
      unfold input_names in Hnodup. rewrite omap_app in Hnodup.
      apply NoDup_app in Hnodup as (_ & Hdisjoint & _).
      destruct (Hdisjoint name).
      - apply list_elem_of_omap. by exists l.
      - cbn [omap list_omap]. rewrite Hname. apply list_elem_of_here. }
    cbn [renamed]. apply list_insert_id. unfold name_of in Hname.
    by destruct (4 <=? length (parse line)).
  - apply IH. by rewrite <- app_assoc.
Qed.

(** X20. A file whose records all have different names is written line by
    line with nothing renamed: each line without its leading and trailing
    whitespace, followed by a newline. *)
Theorem distinct_names_only_stripped (bed_file : string) :
  NoDup (input_names (readlines bed_file)) →
  make_names_unique bed_file = unlines (strip <$> readlines bed_file).
Proof.
  intros Hnodup. rewrite make_names_unique_text.
  f_equal. by apply written_fresh.
Qed.

Definition distinct_bed : string :=
  bed_text [["chr1"; "0"; "10"; "a"]; [" chr1"; "10"; "20"; "b "];
            ["chr2"; "5"]].

Lemma distinct_names_only_stripped_witness :
  make_names_unique distinct_bed
  = unlines (strip <$> readlines distinct_bed).
Proof.
  apply (distinct_names_only_stripped distinct_bed).
  apply (bool_decide_unpack _). by vm_compute.
Defined.

End DedupExtra.
(** * Properties of the command line *)
Module CliExtra.
Import Cli.

Lemma three_arguments (argv : list string) :
  length argv = 3 ↔ ∃ prog input output, argv = [prog; input; output].
Proof.
  split.
  - destruct argv as [|prog [|input [|output [|extra argv]]]]; try done.
    eauto.
  - by intros (prog & input & output & ->).
Qed.

Lemma make_names_unique_Return (fs fs' : FileSystem)
    (bed_file output_file : string) :
  make_names_unique fs bed_file output_file = Py.Return fs' ↔
  ∃ text, read_text fs bed_file = Py.Return text ∧
          write_text fs output_file (Dedup.make_names_unique text)
          = Py.Return fs'.
Proof.
  unfold make_names_unique.
  destruct (read_text fs bed_file) as [text|e]; cbn [mbind Py.result_bind].
  - split; [eauto|]. by intros (text' & [= <-] & Hwrite).
  - split; [done|]. by intros (text' & [=] & _).
Qed.

Lemma main_three (prog input output : string) (fs : FileSystem) :
  main [prog; input; output] fs
  = match make_names_unique fs input output with
    | Py.Return fs' =>
      {| exit_code := 0; printed := []; printed_err := []; disk := fs' |}
    | Py.Raise e =>
      {| exit_code := 1; printed := [];
         printed_err := ["Error: " +:+ Py.str e]; disk := fs |}
    end.
Proof. done. Qed.

(** X21. The tool exits with 0 or 1.  It exits with 0 exactly when it is
    given two arguments, reading the first as a text file returns, and
    writing the deduplicated text to the second returns. *)
Theorem main_succeeds_iff (argv : list string) (fs : FileSystem) :
  (exit_code (main argv fs) = 0%Z ↔
   ∃ prog input output text fs',
     argv = [prog; input; output] ∧
     read_text fs input = Py.Return text ∧
     write_text fs output (Dedup.make_names_unique text) = Py.Return fs') ∧
  (exit_code (main argv fs) = 0%Z ∨ exit_code (main argv fs) = 1%Z).
Proof.
  destruct (decide (length argv = 3)) as [Hlen|Hlen].
  - apply three_arguments in Hlen as (prog & input & output & ->).
    rewrite main_three.
    destruct (make_names_unique fs input output) as [fs'|e] eqn:Hrun;
      cbn [exit_code].
    + apply make_names_unique_Return in Hrun as (text & Hin & Hout).
      split; [|by left]. split; [|done]. intros _.
      by exists prog, input, output, text, fs'.
    + split; [|by right]. split; [done|].
      intros (p & i & o & text & fs' & [= <- <- <-] & Hin & Hout).
      assert (make_names_unique fs input output = Py.Return fs') as Hfs'.
      { apply make_names_unique_Return. eauto. }
      congruence.
  - unfold main. apply Nat.eqb_neq in Hlen as Hneq. rewrite Hneq.
    cbn [negb exit_code]. split; [|by right]. split; [done|].
    intros (p & i & o & text & fs' & -> & _). done.
Qed.

(** X22. When reading the input returns its text and writing to the
    output returns, the tool exits with 0, prints nothing, and what it
    has written is the deduplicated text of the input as it was read,
    which has as many lines as the input.  The input is read to its end
    before the output is opened, so this holds as well when the output is
    the input file itself. *)
Theorem main_rewrites_output (prog input output text : string)
    (fs fs' : FileSystem) :
  read_text fs input = Py.Return text →
  write_text fs output (Dedup.make_names_unique text) = Py.Return fs' →
  let result := main [prog; input; output] fs in
  exit_code result = 0%Z ∧ printed result = [] ∧ printed_err result = [] ∧
  disk result = fs' ∧
  length (Dedup.readlines (Dedup.make_names_unique text))
  = length (Dedup.readlines text).
Proof.
  intros Hin Hout. cbv zeta. rewrite main_three.
  assert (make_names_unique fs input output = Py.Return fs') as ->.
  { apply make_names_unique_Return. eauto. }
  cbn [exit_code printed printed_err disk].
  split; [done|]. split; [done|]. split; [done|]. split; [done|].
  by rewrite DedupFacts.make_names_unique_lines, length_fmap,
    DedupFacts.written_length.
Qed.

Definition example_disk : FileSystem := {|
  files := {[ "orfs.bed" := Py.Return DedupFacts.example_bed;
              "notes.txt" := Py.Return "keep";
              "tracks" := Py.Raise (Py.Exception
                            "[Errno 21] Is a directory: 'tracks'") ]};
  read_only := {[ "locked.bed" ]}
|}.

Lemma main_rewrites_output_witness :
  let result :=
    main ["dedup.py"; "orfs.bed"; "orfs.bed"] example_disk in
  exit_code result = 0%Z ∧ printed result = [] ∧ printed_err result = [] ∧
  disk result
  = {| files := <["orfs.bed" :=
                    Py.Return (Dedup.make_names_unique
                                 DedupFacts.example_bed)]>
                  (files example_disk);
       read_only := read_only example_disk |} ∧
  length (Dedup.readlines (Dedup.make_names_unique DedupFacts.example_bed))
  = length (Dedup.readlines DedupFacts.example_bed).
Proof.
  apply (main_rewrites_output "dedup.py" "orfs.bed" "orfs.bed"
           DedupFacts.example_bed example_disk).
  - by vm_compute.
  - unfold write_text. rewrite decide_False; [done|].
    apply (bool_decide_unpack _). by vm_compute.
Defined.



End CliExtra.
(** * From a region to its metrics *)
Module PipelineExtra.
Import Tracker Analyzer.

(** X24. The bundle fetched for a region, whatever the tracker, the region and
    the strand, is one [calculate_metrics] counts exactly: its metric set
    has seven keys for each non-empty array fetched, hence at most 28. *)
Theorem fetched_bundle_metrics `{np : NumPy} (tracker : ConservationTracker)
    (analyzer : ConservationAnalyzer) (chrom : string) (start end_ : Z)
    (strand : string) :
  ∃ frames base,
    Py.outcome (get_conservation_scores tracker chrom start end_ strand)
    = Py.Return (frames, base) ∧
    size (calculate_metrics analyzer frames base)
    = 7 * MetricExtra.nonempty_arrays frames base ∧
    size (calculate_metrics analyzer frames base) ≤ 28.
Proof.
  eexists _, _. split; [apply TrackerFacts.fetch_value|].
  pose proof (TrackerFacts.entries_sublist tracker chrom start end_ strand
                [1; 2; 3]%Z) as Hsub.
  assert (NoDup (omap (TrackerFacts.frame_entry tracker chrom start end_
                         strand) [1; 2; 3]%Z).*1) as Hnodup.
  { apply (sublist_NoDup _ _) in Hsub; [done|].
    repeat constructor; rewrite ?elem_of_cons, ?elem_of_nil; lia. }
  rewrite (MetricExtra.metric_size analyzer _ _ Hnodup).
  split; [done|].
  apply sublist_length in Hsub. rewrite length_fmap in Hsub.
  cbn [length] in Hsub.
  unfold MetricExtra.nonempty_arrays.
  pose proof (List.filter_length_le
                (λ fs : Z * list float, negb (Nat.eqb (length fs.2) 0))
                (omap (TrackerFacts.frame_entry tracker chrom start end_
                         strand) [1; 2; 3]%Z)) as Hfilter.
  destruct (TrackerFacts.lookup_value (phylop_track tracker) chrom start end_)
    as [[|x base]|]; lia.
Qed.

End PipelineExtra.
